(** * Backtracking CSP search (Project-2/submission.py)

    A shallow embedding of the class [BacktrackingSearch]: the consistency
    check, the variable selection, the AC-3 propagation and the recursive
    search, over an explicit store that holds the engine's fields, the
    Python list objects (by location) and the assignment dictionary.

    The methods live in a state-and-exception monad.  The two unbounded
    constructs, the recursion of [backtrack] and the [while] loop of
    [arc_consistency_check], take fuel; [solve_terminates] shows that
    [solve] never lacks it from some amount on. *)

From stdpp Require Import base option list.
From Stdlib Require Import ZArith Lia.

Set Default Proof Using "Type*".

(** ** Outcomes of a Python call *)

(** The exceptions the engine can raise.  [NameError] covers Python's
    [UnboundLocalError], which is a subclass of it. *)
Inductive exn := AssertionError | KeyError | IndexError | NameError.

(** A call returns, raises, or (in the model only) exhausts its fuel. *)
Inductive outcome (A : Type) :=
  | Ok (a : A)
  | Raise (e : exn)
  | OutOfFuel.
Arguments Ok {A} a.
Arguments Raise {A} e.
Arguments OutOfFuel {A}.

(** ** Python dictionaries: insertion-ordered association lists *)

Module Dict.
Section Dict.
Context {K V : Type} `{EqDecision K}.

(** [d[k]]: [None] stands for the [KeyError] of a missing key. *)
Fixpoint get (k : K) (d : list (K * V)) : option V :=
  match d with
  | [] => None
  | (k', v) :: d' => if decide (k = k') then Some v else get k d'
  end.

(** [k in d] *)
Definition mem (k : K) (d : list (K * V)) : bool :=
  match get k d with Some _ => true | None => false end.

(** [d[k] = v]: an existing key keeps its position, a new one goes last. *)
Fixpoint set (k : K) (v : V) (d : list (K * V)) : list (K * V) :=
  match d with
  | [] => [(k, v)]
  | (k', v') :: d' =>
      if decide (k = k') then (k, v) :: d' else (k', v') :: set k v d'
  end.

(** [del d[k]]: [None] stands for the [KeyError] of a missing key. *)
Fixpoint del (k : K) (d : list (K * V)) : option (list (K * V)) :=
  match d with
  | [] => None
  | (k', v') :: d' =>
      if decide (k = k') then Some d'
      else match del k d' with
           | Some d'' => Some ((k', v') :: d'')
           | None => None
           end
  end.

(** [d.keys()] *)
Definition keys (d : list (K * V)) : list K := d.*1.
End Dict.
End Dict.

(** ** The engine *)

(** Python list objects live in a heap and are named by their index. *)
Abbreviation loc := nat (only parsing).

Section Engine.
Context {var val : Type} `{EqDecision var}.

(** Factor weights are only ever compared with zero. *)
Definition weight := Z.

(** Modelled from the spec: the CSP container (module [csp], not part of
    the sources).  Only the query interface the engine reads: the declared
    variables in order, the location of each variable's value sequence, the
    unary table of a variable or its absence, and the per-variable
    dictionary of binary tables.  The tables are total on the declared
    values, as the container builds them. *)
Record CSP := mkCSP {
  variables : list var;
  values : var → loc;
  unary_factors : var → option (val → weight);
  binary_factors : var → list (var * (val → val → weight));
}.

(** Modelled from the spec: [csp.vars_num], the count of the variables. *)
Definition vars_num (csp : CSP) : nat := length (variables csp).

(** Modelled from the spec: [csp.get_neighbor_vars(var)], the variables
    sharing a binary factor with [var]. *)
Definition get_neighbor_vars (csp : CSP) (v : var) : list var :=
  Dict.keys (binary_factors csp v).

(** The store: the four result fields and [self.domains] of the engine,
    the heap of list objects, and the contents of the one assignment
    dictionary that every method receives by reference. *)
Record state := mkState {
  num_assignments : nat;
  num_operations : nat;
  first_assignment_num_operations : nat;
  all_assignments : list (list (var * val));
  domains : list (var * loc);
  heap : list (list val);
  assignment : list (var * val);
}.

Definition set_num_assignments (n : nat) (s : state) : state :=
  mkState n (num_operations s) (first_assignment_num_operations s)
    (all_assignments s) (domains s) (heap s) (assignment s).
Definition set_num_operations (n : nat) (s : state) : state :=
  mkState (num_assignments s) n (first_assignment_num_operations s)
    (all_assignments s) (domains s) (heap s) (assignment s).
Definition set_first (n : nat) (s : state) : state :=
  mkState (num_assignments s) (num_operations s) n
    (all_assignments s) (domains s) (heap s) (assignment s).
Definition set_all_assignments (l : list (list (var * val))) (s : state) : state :=
  mkState (num_assignments s) (num_operations s)
    (first_assignment_num_operations s) l (domains s) (heap s) (assignment s).
Definition set_domains (d : list (var * loc)) (s : state) : state :=
  mkState (num_assignments s) (num_operations s)
    (first_assignment_num_operations s) (all_assignments s) d (heap s)
    (assignment s).
Definition set_heap (h : list (list val)) (s : state) : state :=
  mkState (num_assignments s) (num_operations s)
    (first_assignment_num_operations s) (all_assignments s) (domains s) h
    (assignment s).
Definition set_assignment (a : list (var * val)) (s : state) : state :=
  mkState (num_assignments s) (num_operations s)
    (first_assignment_num_operations s) (all_assignments s) (domains s)
    (heap s) a.

(** *** The state-and-exception monad *)

Definition M (A : Type) : Type := state → outcome A * state.

#[global] Instance M_ret : MRet M := λ A a s, (Ok a, s).
#[global] Instance M_bind : MBind M := λ A B f m s,
  match m s with
  | (Ok a, s') => f a s'
  | (Raise e, s') => (Raise e, s')
  | (OutOfFuel, s') => (OutOfFuel, s')
  end.

Definition raise {A} (e : exn) : M A := λ s, (Raise e, s).
Definition out_of_fuel {A} : M A := λ s, (OutOfFuel, s).
Definition gets {A} (f : state → A) : M A := λ s, (Ok (f s), s).
Definition modify (f : state → state) : M unit := λ s, (Ok tt, f s).

(** [for x in l: body x], where [l] is the contents the iterated sequence
    has when the loop starts.  No loop of the engine writes to the sequence
    it iterates: the only list written in place is the one
    [arc_consistency_check] builds for the neighbor it revises. *)
Fixpoint for_each {A} (l : list A) (body : A → M unit) : M unit :=
  match l with
  | [] => mret tt
  | x :: l' => body x;; for_each l' body
  end.

(** *** List objects *)

(** A new list object with the given contents. *)
Definition alloc (l : list val) : M loc :=
  λ s, (Ok (length (heap s)), set_heap (heap s ++ [l]) s).

Definition contents (h : list (list val)) (ℓ : loc) : list val :=
  default [] (h !! ℓ).

(** The current contents of a list object. *)
Definition read (ℓ : loc) : M (list val) := gets (λ s, contents (heap s) ℓ).

(** [obj.append(x)] *)
Definition append (ℓ : loc) (x : val) : M unit :=
  modify (λ s, set_heap (alter (λ l, l ++ [x]) ℓ (heap s)) s).

(** [self.domains[v]] *)
Definition domains_lookup (v : var) : M loc :=
  d ← gets domains;
  match Dict.get v d with
  | Some ℓ => mret ℓ
  | None => raise KeyError
  end.

(** [self.domains[v] = obj] *)
Definition domains_store (v : var) (ℓ : loc) : M unit :=
  modify (λ s, set_domains (Dict.set v ℓ (domains s)) s).

(** The copy of the items of a dictionary of domains: a new dictionary
    whose values are new list objects; the memo keeps a list object shared by two keys shared
    in the copy.  The values inside the lists are atoms. *)
Fixpoint deepcopy_items (memo : list (loc * loc)) (items : list (var * loc))
  : M (list (var * loc)) :=
  match items with
  | [] => mret []
  | (v, ℓ) :: rest =>
      match Dict.get ℓ memo with
      | Some ℓ' =>
          rest' ← deepcopy_items memo rest;
          mret ((v, ℓ') :: rest')
      | None =>
          l ← read ℓ;
          ℓ' ← alloc l;
          rest' ← deepcopy_items ((ℓ, ℓ') :: memo) rest;
          mret ((v, ℓ') :: rest')
      end
  end.

(** [copy.deepcopy(self.domains)] *)
Definition deepcopy_domains : M (list (var * loc)) :=
  d ← gets domains; deepcopy_items [] d.

Section Methods.
(** The fields [self.csp], [self.mcv] and [self.ac3]: [solve] writes them
    once, every other method only reads them. *)
Variable csp : CSP.
Variables mcv ac3 : bool.

(** [reset_results] *)
Definition reset_results : M unit :=
  modify (set_num_assignments 0);;
  modify (set_num_operations 0);;
  modify (set_first 0);;
  modify (set_all_assignments []).

(** The loop of [check_factors] over
    [self.csp.binary_factors[var].items()]. *)
Fixpoint check_binary (a : list (var * val)) (x : val)
    (items : list (var * (val → val → weight))) : bool :=
  match items with
  | [] => true
  | (var2, factor) :: rest =>
      match Dict.get var2 a with
      | None => check_binary a x rest
      | Some x2 =>
          if (factor x x2 =? 0)%Z then false else check_binary a x rest
      end
  end.

(** [check_factors(assignment, var, val)].  The truth test of line 89 is
    the test for [None]: a table is empty only for a variable without
    values, for which no value is ever checked. *)
Definition check_factors (v : var) (x : val) : M bool :=
  a ← gets assignment;
  if Dict.mem v a then raise AssertionError
  else
    match unary_factors csp v with
    | Some table =>
        if (table x =? 0)%Z then mret false
        else mret (check_binary a x (binary_factors csp v))
    | None => mret (check_binary a x (binary_factors csp v))
    end.

(** [sum(self.check_factors(assignment, var, x) for x in ...)] *)
Fixpoint count_consistent (v : var) (xs : list val) (acc : nat) : M nat :=
  match xs with
  | [] => mret acc
  | x :: xs' =>
      b ← check_factors v x;
      count_consistent v xs' (acc + (if (b : bool) then 1 else 0))
  end.

(** The loop of the branch [not self.mcv]; [None] is Python's [None],
    returned when the loop ends without a [return]. *)
Fixpoint first_unassigned (a : list (var * val)) (vars : list var)
  : option var :=
  match vars with
  | [] => None
  | v :: vars' => if Dict.mem v a then first_unassigned a vars' else Some v
  end.

(** [n < m] where [None] is [float('inf')]. *)
Definition lt_inf (n : nat) (m : option nat) : bool :=
  match m with
  | None => true
  | Some k => n <? k
  end.

(** The loop of the MCV branch, with its two locals. *)
Fixpoint mcv_loop (vars : list var) (min_num_consistent_val : option nat)
    (var_mcv : var) : M var :=
  match vars with
  | [] => mret var_mcv
  | v :: vars' =>
      a ← gets assignment;
      if Dict.mem v a then mcv_loop vars' min_num_consistent_val var_mcv
      else
        ℓ ← domains_lookup v;
        xs ← read ℓ;
        num_consistent_val ← count_consistent v xs 0;
        if lt_inf num_consistent_val min_num_consistent_val
        then mcv_loop vars' (Some num_consistent_val) v
        else mcv_loop vars' min_num_consistent_val var_mcv
  end.

(** [get_unassigned_variable(assignment)] *)
Definition get_unassigned_variable : M (option var) :=
  if negb mcv then
    a ← gets assignment;
    mret (first_unassigned a (variables csp))
  else
    match variables csp with
    | [] => raise IndexError
    | v0 :: _ =>
        v ← mcv_loop (variables csp) None v0;
        mret (Some v)
    end.

(** *** AC-3 *)

(** The test of line 238 over [self.domains[current_var]]; the binary
    table is looked up only when there is a value to test. *)
Definition binary_support (current_var neighbor_var : var)
    (current_vals : list val) (neighbor_val : val) : M bool :=
  match current_vals with
  | [] => mret false
  | _ :: _ =>
      match Dict.get neighbor_var (binary_factors csp current_var) with
      | None => raise KeyError
      | Some table =>
          mret (existsb (λ current_val,
                           negb (table current_val neighbor_val =? 0)%Z)
                        current_vals)
      end
  end.

(** The test of lines 242-246: the neighbor has no unary table, or the
    table gives the value a weight other than zero. *)
Definition unary_support (neighbor_var : var) (neighbor_val : val) : bool :=
  match unary_factors csp neighbor_var with
  | Some table => negb (table neighbor_val =? 0)%Z
  | None => true
  end.

(** The loop over the values of one neighbor (lines 233-255).
    [neighbor_domain] is the location of the list being built; the
    locals [domain_change] and [queue] are threaded. *)
Fixpoint revise_values (current_var neighbor_var : var)
    (neighbor_domain : loc) (neighbor_vals : list val)
    (domain_change : bool) (queue : list var) : M (list var) :=
  match neighbor_vals with
  | [] => mret queue
  | neighbor_val :: rest =>
      ℓc ← domains_lookup current_var;
      current_vals ← read ℓc;
      binary_change ←
        binary_support current_var neighbor_var current_vals neighbor_val;
      let uniary_change := unary_support neighbor_var neighbor_val in
      domain_change ←
        (if uniary_change && binary_change
         then append neighbor_domain neighbor_val;; mret domain_change
         else mret true);
      if (domain_change : bool) then
        domains_store neighbor_var neighbor_domain;;
        revise_values current_var neighbor_var neighbor_domain rest
          domain_change (queue ++ [neighbor_var])
      else
        revise_values current_var neighbor_var neighbor_domain rest
          domain_change queue
  end.

(** The loop over the neighbors of [current_var] (lines 230-255); the
    local [neighbor_var] keeps the last neighbor visited, [None] while
    it is unbound. *)
Fixpoint revise_neighbors (current_var : var) (neighbors : list var)
    (queue : list var) (last : option var)
  : M (list var * option var) :=
  match neighbors with
  | [] => mret (queue, last)
  | neighbor_var :: rest =>
      neighbor_domain ← alloc [];
      ℓn ← domains_lookup neighbor_var;
      neighbor_vals ← read ℓn;
      queue ← revise_values current_var neighbor_var neighbor_domain
                neighbor_vals false queue;
      revise_neighbors current_var rest queue (Some neighbor_var)
  end.

(** What one iteration of the [while] loop decides. *)
Inductive flow :=
  | Return (b : bool)
  | Continue (queue : list var) (neighbor_var : option var).

(** One iteration of the [while] loop (lines 229-256) after
    [queue.pop(0)] gave [current_var]. *)
Definition while_body (current_var : var) (queue : list var)
    (last : option var) : M flow :=
  '(queue, last) ←
    revise_neighbors current_var (get_neighbor_vars csp current_var)
      queue last;
  match last with
  | None => raise NameError
  | Some neighbor_var =>
      ℓ ← domains_lookup neighbor_var;
      l ← read ℓ;
      match l with
      | [] => mret (Return false)
      | _ :: _ => mret (Continue queue last)
      end
  end.

(** The [while] loop (lines 228-258). *)
Fixpoint ac3_while (fuel : nat) (queue : list var) (last : option var)
  : M bool :=
  match fuel with
  | O => out_of_fuel
  | S fuel' =>
      match queue with
      | [] => mret true
      | current_var :: queue' =>
          r ← while_body current_var queue' last;
          match r with
          | Return b => mret b
          | Continue queue'' last' => ac3_while fuel' queue'' last'
          end
      end
  end.

(** [arc_consistency_check(var)]; [fuel] bounds the iterations of the
    [while] loop. *)
Definition arc_consistency_check (fuel : nat) (v : var) : M bool :=
  ac3_while fuel [v] None.

(** *** The search *)

(** [assignment[var] = val] *)
Definition bind_value (v : var) (x : val) : M unit :=
  modify (λ s, set_assignment (Dict.set v x (assignment s)) s).

(** [del assignment[var]] *)
Definition unbind (v : var) : M unit :=
  a ← gets assignment;
  match Dict.del v a with
  | Some a' => modify (set_assignment a')
  | None => raise KeyError
  end.

(** Lines 135-137: the copy of the assignment in declaration order. *)
Fixpoint copy_assignment (vars : list var) (new_assignment : list (var * val))
  : M (list (var * val)) :=
  match vars with
  | [] => mret new_assignment
  | v :: vars' =>
      a ← gets assignment;
      match Dict.get v a with
      | Some x => copy_assignment vars' (Dict.set v x new_assignment)
      | None => raise KeyError
      end
  end.

(** Lines 134-141: a complete assignment is recorded. *)
Definition record_solution : M unit :=
  n ← gets num_assignments;
  modify (set_num_assignments (n + 1));;
  new_assignment ← copy_assignment (variables csp) [];
  modify (λ s, set_all_assignments (all_assignments s ++ [new_assignment]) s);;
  first ← gets first_assignment_num_operations;
  if first =? 0 then
    ops ← gets num_operations;
    modify (set_first ops)
  else mret tt.

(** The body of the loop of "problem a" (lines 149-153), given the
    recursive call. *)
Definition try_value (recurse : M unit) (v : var) (x : val) : M unit :=
  weight ← check_factors v x;
  if (weight : bool) then
    bind_value v x;;
    recurse;;
    unbind v
  else mret tt.

(** The body of the loop of "problem d" (lines 157-169). *)
Definition try_value_ac3 (gas : nat) (recurse : M unit) (v : var) (x : val)
  : M unit :=
  weight ← check_factors v x;
  if (weight : bool) then
    bind_value v x;;
    localCopy ← deepcopy_domains;
    singleton ← alloc [x];
    domains_store v singleton;;
    succeed ← arc_consistency_check gas v;
    (if (succeed : bool) then recurse else mret tt);;
    modify (set_domains localCopy);;
    unbind v
  else mret tt.

(** [backtrack(assignment)]; [fuel] bounds the depth of the recursion
    and [gas] the iterations of each AC-3 loop. *)
Fixpoint backtrack (gas fuel : nat) : M unit :=
  match fuel with
  | O => out_of_fuel
  | S fuel' =>
      ops ← gets num_operations;
      modify (set_num_operations (ops + 1));;
      a ← gets assignment;
      let num_assigned := length (Dict.keys a) in
      if num_assigned =? vars_num csp then record_solution
      else
        v ← get_unassigned_variable;
        match v with
        | None => raise KeyError
        | Some v =>
            ordered_values ← domains_lookup v;
            xs ← read ordered_values;
            if negb ac3 then
              for_each xs (try_value (backtrack gas fuel') v)
            else
              for_each xs (try_value_ac3 gas (backtrack gas fuel') v)
        end
  end.

(** The dictionary comprehension of [solve] (lines 116-117). *)
Fixpoint init_domains (vars : list var) (d : list (var * loc))
  : M (list (var * loc)) :=
  match vars with
  | [] => mret d
  | v :: vars' =>
      l ← read (values csp v);
      ℓ ← alloc l;
      init_domains vars' (Dict.set v ℓ d)
  end.

(** The body of [solve] after the three flags are stored; the call
    [self.backtrack({})] makes the assignment dictionary. *)
Definition solve_body (fuel : nat) : M unit :=
  reset_results;;
  d ← init_domains (variables csp) [];
  modify (set_domains d);;
  modify (set_assignment []);;
  backtrack fuel fuel.
End Methods.

(** [solve(csp, mcv, ac3)] *)
Definition solve (fuel : nat) (csp : CSP) (mcv ac3 : bool) : M unit :=
  solve_body csp mcv ac3 fuel.

(** The engine as [__init__] leaves it, over a heap that holds the value
    sequences of the CSP. *)
Definition init (h : list (list val)) : state :=
  mkState 0 0 0 [] [] h [].
End Engine.

(** ** Concrete instances used below *)

Module Examples.
(** One variable [0] with the declared values [[0]] (list object 0) and no
    factor at all. *)
Definition lone : @CSP nat nat :=
  mkCSP [0] (λ _, 0) (λ _, None) (λ _, []).
Definition lone_heap : list (list nat) := [[0]].

(** One variable [0] whose declared value sequence (list object 0) is
    empty, and no factor. *)
Definition barren : @CSP nat nat :=
  mkCSP [0] (λ _, 0) (λ _, None) (λ _, []).
Definition barren_heap : list (list nat) := [[]].

(** Three variables with one value [0] each (list objects 0, 1, 2).
    Variable 0 has the neighbors 1 and 2, in this order, and they have the
    neighbor 0; the factor between 0 and 1 forbids every pair, the factor
    between 0 and 2 allows every pair. *)
Definition star : @CSP nat nat :=
  mkCSP [0; 1; 2] (λ v, v) (λ _, None)
    (λ v, match v with
          | 0 => [(1, λ _ _, 0%Z); (2, λ _ _, 1%Z)]
          | 1 => [(0, λ _ _, 0%Z)]
          | _ => [(0, λ _ _, 1%Z)]
          end).
Definition star_heap : list (list nat) := [[0]; [0]; [0]].

(** The store in which the search on [star] calls
    [arc_consistency_check(0)]: variable 0 is bound to 0 and its working
    domain is the singleton (list object 9); objects 3 to 5 are the working
    domains [solve] made, objects 6 to 8 the snapshot. *)
Definition star_store : @state nat nat :=
  mkState 0 1 0 [] [(0, 9); (1, 4); (2, 5)]
    [[0]; [0]; [0]; [0]; [0]; [0]; [0]; [0]; [0]; [0]] [(0, 0)].

(** No variable at all. *)
Definition empty : @CSP nat nat :=
  mkCSP [] (λ _, 0) (λ _, None) (λ _, []).

(** The n-queens CSP in the manner of [create_n_queens_csp]: the variables
    are the rows [0 .. n-1], every row takes the columns [0 .. n-1] (one
    shared sequence, list object 0), and two rows at distance [d] exclude
    equal columns and columns that differ by [d]. *)
Definition dist (i j : nat) : nat := if i <? j then j - i else i - j.
Definition queens_table (d : nat) (x y : nat) : weight :=
  if (x =? y) || (dist x y =? d) then 0%Z else 1%Z.
Definition queens (n : nat) : @CSP nat nat :=
  mkCSP (seq 0 n) (λ _, 0) (λ _, None)
    (λ v, (λ u, (u, queens_table (dist u v)))
            <$> List.filter (λ u, negb (u =? v)) (seq 0 n)).
Definition queens_heap (n : nat) : list (list nat) := [seq 0 n].

(** The store in which the 4-queens search starts. *)
Definition queens4_root : @state nat nat :=
  mkState 0 0 0 [] [(0, 1); (1, 2); (2, 3); (3, 4)]
    [seq 0 4; seq 0 4; seq 0 4; seq 0 4; seq 0 4] [].

(** The store after binding row 0 to column 1 in the 4-queens search
    without propagation. *)
Definition queens4_partial : @state nat nat :=
  mkState 0 1 0 [] [(0, 1); (1, 2); (2, 3); (3, 4)]
    [seq 0 4; seq 0 4; seq 0 4; seq 0 4; seq 0 4] [(0, 1)].
(** The store in which the 4-queens search with propagation calls
    [arc_consistency_check(0)] after binding row 0 to column 1: the working
    domain of row 0 is the singleton (list object 5). *)
Definition queens4_bound : @state nat nat :=
  mkState 0 1 0 [] [(0, 5); (1, 2); (2, 3); (3, 4)]
    [seq 0 4; seq 0 4; seq 0 4; seq 0 4; seq 0 4; [1]] [(0, 1)].

(** A solution of the 4-queens problem: the column of each row. *)
Definition queens4_solution (row : nat) : nat := nth row [1; 3; 0; 2] 0.

End Examples.

(** * Verification *)

Section Proofs.
Context {var val : Type} `{EqDecision var}.
Abbreviation state := (@state var val).
Abbreviation CSP := (@CSP var val).
Abbreviation M := (@M var val).
Implicit Types (s : state) (csp : CSP) (v u : var) (x : val).
Implicit Types (a : list (var * val)) (h : list (list val)).

(** ** Vocabulary of the statements *)

(** The unary factor of [v] exists and gives [x] the weight zero. *)
Definition unary_rejects csp v x : Prop :=
  ∃ table, unary_factors csp v = Some table ∧ table x = 0%Z.

(** Some neighbor of [v] bound in [a] has a zero binary weight with [x]. *)
Definition binary_rejects csp a v x : Prop :=
  ∃ var2 factor x2,
    (var2, factor) ∈ binary_factors csp v ∧
    Dict.get var2 a = Some x2 ∧ factor x x2 = 0%Z.

(** The value [x] of [v] passes [check_factors] in the store [s]. *)
Definition consistent csp s v x : bool :=
  match (check_factors csp v x s).1 with
  | Ok b => b
  | _ => false
  end.

(** The contents of [self.domains[v]]. *)
Definition working_domain s v : list val :=
  match Dict.get v (domains s) with
  | Some ℓ => contents (heap s) ℓ
  | None => []
  end.

(** The number of values of the working domain of [v] that pass
    [check_factors]. *)
Definition num_consistent csp s v : nat :=
  length (List.filter (consistent csp s v) (working_domain s v)).

(** The variable the MCV loop ends with, as a function of its locals. *)
Fixpoint select_mcv csp s (vars : list var) (m : option nat) (cur : var)
  : var :=
  match vars with
  | [] => cur
  | u :: vars' =>
      if Dict.mem u (assignment s) then select_mcv csp s vars' m cur
      else if lt_inf (num_consistent csp s u) m
           then select_mcv csp s vars' (Some (num_consistent csp s u)) u
           else select_mcv csp s vars' m cur
  end.

(** [m] relates each store to the store it leaves, whatever the outcome. *)
Definition preserves {A} (R : relation state) (m : M A) : Prop :=
  ∀ s, R s (m s).2.

(** The result fields and the assignment are the same. *)
Definition same_results : relation state := λ s s',
  assignment s' = assignment s ∧
  num_assignments s' = num_assignments s ∧
  num_operations s' = num_operations s ∧
  first_assignment_num_operations s' = first_assignment_num_operations s ∧
  all_assignments s' = all_assignments s.

(** Every list object of the first store is in the second, unchanged. *)
Definition heap_le : relation state := λ s s',
  ∀ ℓ l, heap s !! ℓ = Some l → heap s' !! ℓ = Some l.

(** The same, but for the object at [ℓ0]. *)
Definition heap_le_except (ℓ0 : loc) : relation state := λ s s',
  ∀ ℓ l, ℓ ≠ ℓ0 → heap s !! ℓ = Some l → heap s' !! ℓ = Some l.

(** Every value [m] returns satisfies [P]. *)
Definition returns {A} (P : A → Prop) (m : M A) : Prop :=
  ∀ s r s', m s = (Ok r, s') → P r.

(** A property of the store that, once true, stays true. *)
Definition keeps (P : state → Prop) : relation state := λ s s', P s → P s'.

(** The invariant of the search: the counter of solutions is the length
    of the list of solutions; the keys of the assignment are distinct
    declared variables; the operation count of the first solution is zero
    while no solution is recorded and an operation index afterwards. *)
Definition inv csp s : Prop :=
  num_assignments s = length (all_assignments s) ∧
  NoDup (Dict.keys (assignment s)) ∧
  Dict.keys (assignment s) ⊆ variables csp ∧
  (all_assignments s = [] → first_assignment_num_operations s = 0) ∧
  (all_assignments s ≠ [] →
   1 ≤ first_assignment_num_operations s ≤ num_operations s).

Definition keeps_inv csp : relation state := keeps (inv csp).

(** Once the operation count of the first solution is set, it stays. *)
Definition frozen : relation state := λ s s',
  first_assignment_num_operations s ≠ 0 →
  first_assignment_num_operations s' = first_assignment_num_operations s.

(** The working domains as values: what each key of a dictionary of
    domains holds in the heap [h]. *)
Definition view h (d : list (var * loc)) : list (var * list val) :=
  (λ p, (p.1, contents h p.2)) <$> d.

Definition dom_view s : list (var * list val) := view (heap s) (domains s).

Arguments view : simpl never.

(** Every list a dictionary of domains names is an allocated object. *)
Definition allocated h (d : list (var * loc)) : Prop :=
  Forall (λ p, p.2 < length h) d.

(** [m] relates each store to the store it leaves when it returns. *)
Definition preserves_ok {A} (R : relation state) (m : M A) : Prop :=
  ∀ s r s', m s = (Ok r, s') → R s s'.

Definition same_assignment : relation state := λ s s',
  assignment s' = assignment s.

(** The triangular numbers. *)
Fixpoint tri (n : nat) : nat :=
  match n with
  | O => 0
  | S k => S k + tri k
  end.

(** The potential of a dictionary of domains: the sum of the triangular
    numbers of the sizes of the domains.  It bounds the work the
    propagation has left. *)
Fixpoint potential h (d : list (var * loc)) : nat :=
  match d with
  | [] => 0
  | (_, ℓ) :: d' => tri (length (contents h ℓ)) + potential h d'
  end.

(** The number of entries of [d] that name the list object [ℓ0]. *)
Fixpoint refs (ℓ0 : loc) (d : list (var * loc)) : nat :=
  match d with
  | [] => 0
  | (_, ℓ) :: d' => (if decide (ℓ = ℓ0) then 1 else 0) + refs ℓ0 d'
  end.

(** [m] never stops for lack of fuel. *)
Definition fuel_free {A} (m : M A) : Prop := ∀ s, (m s).1 ≠ OutOfFuel.

(** The store [m] leaves. *)
Definition after {A} (m : M A) s : state := (m s).2.

Definition domains_allocated s : Prop := allocated (heap s) (domains s).

(** Every declared variable has an entry in [self.domains]. *)
Definition domains_covered csp s : Prop :=
  ∀ u, u ∈ variables csp → is_Some (Dict.get u (domains s)).

(** The working domains hold the values they held, under allocated list
    objects, if they were allocated. *)
Definition restored : relation state := λ s s',
  domains_allocated s → dom_view s' = dom_view s ∧ domains_allocated s'.

(** The binary tables of [v] toward [u] give the value [x] of [v] and the
    value [y] of [u] a weight other than zero. *)
Definition admits csp v x u y : Prop :=
  ∀ factor, (u, factor) ∈ binary_factors csp v → factor x y ≠ 0%Z.

(** Every binding of [a] is one the consistency check accepts against the
    bindings made before it. *)
Definition accepted csp a : Prop :=
  ∀ a1 v x a2, a = a1 ++ (v, x) :: a2 →
    ¬ unary_rejects csp v x ∧ ∀ u y, (u, y) ∈ a1 → admits csp v x u y.

(** No unary factor rejects a binding of [sol], and of two bindings of
    [sol] one is admitted by the binary tables of its variable toward the
    other. *)
Definition checked csp (sol : list (var * val)) : Prop :=
  (∀ v x, Dict.get v sol = Some x → ¬ unary_rejects csp v x) ∧
  (∀ u y v x, u ≠ v → Dict.get u sol = Some y → Dict.get v sol = Some x →
     admits csp v x u y ∨ admits csp u y v x).

(** The invariant behind the soundness of the search. *)
Definition sound csp s : Prop :=
  inv csp s ∧ accepted csp (assignment s) ∧
  Forall (λ sol, Dict.keys sol = variables csp ∧ checked csp sol)
    (all_assignments s).

(** The contents of every working domain are among the values [D] gives
    its variable. *)
Definition within (D : var → list val) s : Prop :=
  ∀ u ℓ, Dict.get u (domains s) = Some ℓ → contents (heap s) ℓ ⊆ D u.

(** The invariant behind the origin of the values of the search: the
    working domains, the live bindings and the recorded assignments hold
    only values that [D] gives their variable. *)
Definition declared (D : var → list val) s : Prop :=
  domains_allocated s ∧ within D s ∧
  (∀ v x, (v, x) ∈ assignment s → x ∈ D v) ∧
  Forall (λ sol : list (var * val),
            ∀ v x, Dict.get v sol = Some x → x ∈ D v) (all_assignments s).

(** The valuation [σ] lies in the working domains: every variable that has
    a working domain is one of [P] and the domain holds its value. *)
Definition lies_in (P : var → Prop) (σ : var → val) s : Prop :=
  ∀ u ℓ, Dict.get u (domains s) = Some ℓ → P u ∧ σ u ∈ contents (heap s) ℓ.

(** The valuation [σ] passes every factor among the variables of [P]. *)
Definition passes (P : var → Prop) csp (σ : var → val) : Prop :=
  (∀ u, P u → ¬ unary_rejects csp u (σ u)) ∧
  (∀ u w, P u → P w → admits csp u (σ u) w (σ w)).

(** ** Facts on dictionaries *)

Section DictFacts.
Context {K V : Type} `{EqDecision K}.
Implicit Types (d : list (K * V)) (k : K) (w : V).

Lemma get_None_keys k d : Dict.get k d = None ↔ k ∉ Dict.keys d.
Proof.
  unfold Dict.keys. induction d as [|[k' w'] d IH]; simpl.
  - split; [intros _; apply not_elem_of_nil | done].
  - rewrite not_elem_of_cons. destruct (decide (k = k')) as [->|Hne].
    + split; [done|]. by intros [? _].
    + rewrite IH. split; [done|]. by intros [_ ?].
Qed.

Lemma mem_false_keys k d : Dict.mem k d = false ↔ k ∉ Dict.keys d.
Proof.
  rewrite <- get_None_keys. unfold Dict.mem.
  destruct (Dict.get k d); naive_solver.
Qed.

Lemma keys_set_fresh k w d :
  k ∉ Dict.keys d → Dict.keys (Dict.set k w d) = Dict.keys d ++ [k].
Proof.
  unfold Dict.keys. induction d as [|[k' w'] d IH]; simpl; [done|].
  rewrite not_elem_of_cons. intros [Hne Hni].
  rewrite decide_False by done. simpl. f_equal. by apply IH.
Qed.

Lemma keys_set_present k w d :
  k ∈ Dict.keys d → Dict.keys (Dict.set k w d) = Dict.keys d.
Proof.
  unfold Dict.keys. induction d as [|[k' w'] d IH]; simpl.
  - intros Hin. by apply elem_of_nil in Hin.
  - destruct (decide (k = k')) as [->|Hne]; simpl; [done|].
    rewrite elem_of_cons. intros [?|Hin]; [done|]. f_equal. by apply IH.
Qed.

Lemma del_set_fresh k w d :
  k ∉ Dict.keys d → Dict.del k (Dict.set k w d) = Some d.
Proof.
  unfold Dict.keys. induction d as [|[k' w'] d IH]; simpl.
  - intros _. by rewrite decide_True.
  - rewrite not_elem_of_cons. intros [Hne Hni].
    rewrite decide_False by done. simpl. rewrite decide_False by done.
    by rewrite IH.
Qed.

Lemma del_keys_sublist k d d' :
  Dict.del k d = Some d' → Dict.keys d' `sublist_of` Dict.keys d.
Proof.
  unfold Dict.keys. revert d'. induction d as [|[k' w'] d IH]; simpl; [done|].
  intros d'. destruct (decide (k = k')).
  - intros [= <-]. by apply sublist_cons.
  - destruct (Dict.del k d) as [d''|]; [|done].
    intros [= <-]. simpl. apply sublist_skip. by apply IH.
Qed.

Lemma NoDup_keys_set k w d :
  NoDup (Dict.keys d) → NoDup (Dict.keys (Dict.set k w d)).
Proof.
  intros Hnd. destruct (decide (k ∈ Dict.keys d)) as [Hin|Hni].
  - by rewrite keys_set_present.
  - rewrite keys_set_fresh by done. apply NoDup_app. split_and!; [done| |].
    + intros x Hx Hx'. apply list_elem_of_singleton in Hx'. by subst.
    + apply NoDup_singleton.
Qed.

Lemma keys_set_incl k w d (l : list K) :
  k ∈ l → Dict.keys d ⊆ l → Dict.keys (Dict.set k w d) ⊆ l.
Proof.
  intros Hk Hd. destruct (decide (k ∈ Dict.keys d)) as [Hin|Hni].
  - by rewrite keys_set_present.
  - rewrite keys_set_fresh by done. intros x Hx.
    apply elem_of_app in Hx as [Hx|Hx]; [by apply Hd|].
    apply list_elem_of_singleton in Hx. by subst.
Qed.

(** A dictionary with as many keys as [l] has entries, all of them taken
    from [l], has every element of [l] as a key. *)
Lemma keys_full d (l : list K) :
  NoDup (Dict.keys d) → Dict.keys d ⊆ l →
  length (Dict.keys d) = length l →
  ∀ k, k ∈ l → is_Some (Dict.get k d).
Proof.
  intros Hnd Hincl Hlen k Hk.
  assert (Dict.keys d ≡ₚ l) as Hperm.
  { apply submseteq_length_Permutation; [|lia]. by apply NoDup_submseteq. }
  destruct (Dict.get k d) eqn:E; [done|].
  apply get_None_keys in E. rewrite Hperm in E. done.
Qed.
End DictFacts.

(** ** Running the monad *)

Lemma run_bind {A B} (m : M A) (f : A → M B) s :
  (m ≫= f) s =
  match m s with
  | (Ok r, s') => f r s'
  | (Raise e, s') => (Raise e, s')
  | (OutOfFuel, s') => (OutOfFuel, s')
  end.
Proof. reflexivity. Qed.

(** ** The consistency check *)

Lemma check_binary_false a x (items : list (var * (val → val → weight))) :
  check_binary a x items = false ↔
  ∃ var2 factor x2,
    (var2, factor) ∈ items ∧ Dict.get var2 a = Some x2 ∧ factor x x2 = 0%Z.
Proof.
  induction items as [|[var2 factor] items IH]; simpl.
  - split; [done|]. intros (? & ? & ? & Hin & _). by apply elem_of_nil in Hin.
  - destruct (Dict.get var2 a) as [x2|] eqn:Eg.
    + destruct (Z.eqb_spec (factor x x2) 0) as [Hz|Hnz].
      * split; [intros _|done]. exists var2, factor, x2. split_and!; [left|done..].
      * rewrite IH. split.
        -- intros (w & f & y & Hin & Hg & Hf). exists w, f, y.
           split_and!; [by right|done..].
        -- intros (w & f & y & Hin & Hg & Hf).
           apply elem_of_cons in Hin as [[= -> ->]|Hin].
           ++ rewrite Eg in Hg. injection Hg as <-. done.
           ++ by exists w, f, y.
    + rewrite IH. split.
      * intros (w & f & y & Hin & Hg & Hf). exists w, f, y.
        split_and!; [by right|done..].
      * intros (w & f & y & Hin & Hg & Hf).
        apply elem_of_cons in Hin as [[= -> ->]|Hin].
        -- rewrite Eg in Hg. done.
        -- by exists w, f, y.
Qed.

Lemma unary_support_false csp v x :
  unary_support csp v x = false ↔ unary_rejects csp v x.
Proof.
  unfold unary_support, unary_rejects.
  destruct (unary_factors csp v) as [table|].
  - destruct (Z.eqb_spec (table x) 0) as [Hz|Hnz]; simpl.
    + split; [intros _; by exists table|done].
    + split; [done|]. intros (t & [= <-] & ?). done.
  - split; [done|]. intros (t & ? & _). done.
Qed.

(** What [check_factors] computes on an unassigned variable. *)
Lemma check_factors_run csp v x s :
  Dict.mem v (assignment s) = false →
  check_factors csp v x s =
  (Ok (unary_support csp v x
       && check_binary (assignment s) x (binary_factors csp v)), s).
Proof.
  intros Hm. unfold check_factors, unary_support.
  rewrite run_bind. unfold gets. rewrite Hm.
  destruct (unary_factors csp v) as [table|]; [|done].
  by destruct (table x =? 0)%Z.
Qed.

(** On an assigned variable the assertion of line 88 fails. *)
Lemma check_factors_assigned csp v x s :
  Dict.mem v (assignment s) = true →
  check_factors csp v x s = (Raise AssertionError, s).
Proof.
  intros Hm. unfold check_factors. rewrite run_bind. unfold gets.
  by rewrite Hm.
Qed.

Lemma check_factors_state csp v x s : (check_factors csp v x s).2 = s.
Proof.
  destruct (Dict.mem v (assignment s)) eqn:Hm.
  - by rewrite check_factors_assigned.
  - by rewrite check_factors_run.
Qed.

Lemma check_factors_true_unassigned csp v x s :
  (check_factors csp v x s).1 = Ok true → Dict.mem v (assignment s) = false.
Proof.
  destruct (Dict.mem v (assignment s)) eqn:Hm; [|done].
  by rewrite check_factors_assigned.
Qed.

Lemma count_consistent_run csp v xs acc s :
  Dict.mem v (assignment s) = false →
  count_consistent csp v xs acc s =
  (Ok (acc + length (List.filter (consistent csp s v) xs)), s).
Proof.
  intros Hm. revert acc. induction xs as [|x xs IH]; intros acc; simpl.
  - by rewrite Nat.add_0_r.
  - rewrite run_bind. unfold consistent at 1.
    rewrite (check_factors_run _ _ _ _ Hm). simpl. rewrite IH.
    destruct (unary_support csp v x && _); simpl; do 2 f_equal; lia.
Qed.

(** ** The variable selection *)

Lemma mcv_loop_run csp s vars m cur :
  (∀ u, u ∈ vars → Dict.mem u (assignment s) = false →
        is_Some (Dict.get u (domains s))) →
  mcv_loop csp vars m cur s = (Ok (select_mcv csp s vars m cur), s).
Proof.
  revert m cur. induction vars as [|u vars IH]; intros m cur Hdom; [done|].
  simpl. rewrite run_bind. unfold gets at 1.
  assert (∀ u', u' ∈ vars → Dict.mem u' (assignment s) = false →
                is_Some (Dict.get u' (domains s))) as Hdom'.
  { intros u' Hu'. apply Hdom. by right. }
  destruct (Dict.mem u (assignment s)) eqn:Hm; [by apply IH|].
  destruct (Hdom u) as [ℓ Hℓ]; [left|done|].
  rewrite run_bind. unfold domains_lookup at 1. rewrite run_bind.
  unfold gets at 1. rewrite Hℓ. unfold mret at 1, M_ret at 1.
  rewrite run_bind. unfold read at 1, gets at 1.
  rewrite run_bind, (count_consistent_run _ _ _ _ _ Hm). simpl.
  unfold num_consistent, working_domain. rewrite Hℓ.
  destruct (lt_inf _ m); by apply IH.
Qed.

Lemma first_unassigned_spec a (vars : list var) :
  (∃ u, u ∈ vars ∧ Dict.mem u a = false) →
  ∃ pre v post,
    first_unassigned a vars = Some v ∧ vars = pre ++ v :: post ∧
    Dict.mem v a = false ∧ ∀ u, u ∈ pre → Dict.mem u a = true.
Proof.
  induction vars as [|u vars IH]; intros (w & Hw & Hm).
  - by apply elem_of_nil in Hw.
  - simpl. destruct (Dict.mem u a) eqn:Hu.
    + destruct IH as (pre & v & post & Hf & -> & Hv & Hpre).
      { apply elem_of_cons in Hw as [->|Hw]; [congruence|by exists w]. }
      exists (u :: pre), v, post. split_and!; [done..|].
      intros u' Hu'. apply elem_of_cons in Hu' as [->|Hu']; [done|by apply Hpre].
    + exists [], u, vars. split_and!; [done..|].
      intros u' Hu'. by apply elem_of_nil in Hu'.
Qed.

Lemma select_mcv_spec csp s (vars : list var) m cur :
  let r := select_mcv csp s vars m cur in
  (r = cur ∧
   ∀ u, u ∈ vars → Dict.mem u (assignment s) = false →
        lt_inf (num_consistent csp s u) m = false)
  ∨ (∃ pre post,
       vars = pre ++ r :: post ∧ Dict.mem r (assignment s) = false ∧
       lt_inf (num_consistent csp s r) m = true ∧
       (∀ u, u ∈ pre → Dict.mem u (assignment s) = false →
             num_consistent csp s r < num_consistent csp s u) ∧
       (∀ u, u ∈ post → Dict.mem u (assignment s) = false →
             num_consistent csp s r ≤ num_consistent csp s u)).
Proof.
  revert m cur. induction vars as [|u vars IH]; intros m cur; simpl.
  - left. split; [done|]. intros u Hu. by apply elem_of_nil in Hu.
  - destruct (Dict.mem u (assignment s)) eqn:Hu.
    { destruct (IH m cur) as [[Hr Hall]|(pre & post & Hv & Hr & Hlt & Hpre & Hpost)].
      - left. split; [done|]. intros u' Hu' Hm.
        apply elem_of_cons in Hu' as [->|Hu']; [congruence|by apply Hall].
      - right. exists (u :: pre), post. split_and!; [by rewrite Hv at 1|done..| |done].
        intros u' Hu' Hm.
        apply elem_of_cons in Hu' as [->|Hu']; [congruence|by apply Hpre]. }
    destruct (lt_inf (num_consistent csp s u) m) eqn:Hlt.
    + destruct (IH (Some (num_consistent csp s u)) u)
        as [[Hr Hall]|(pre & post & Hv & Hr & Hlt' & Hpre & Hpost)].
      * right. exists [], vars. rewrite Hr. split_and!; [done..| |].
        -- intros u' Hu'. by apply elem_of_nil in Hu'.
        -- intros u' Hu' Hm. specialize (Hall u' Hu' Hm). simpl in Hall.
           apply Nat.ltb_ge in Hall. done.
      * simpl in Hlt'. apply Nat.ltb_lt in Hlt'.
        right. exists (u :: pre), post.
        split_and!; [by rewrite Hv at 1|done| | |done].
        -- destruct m as [k|]; [|done]. simpl in *.
           apply Nat.ltb_lt in Hlt. apply Nat.ltb_lt. lia.
        -- intros u' Hu' Hm.
           apply elem_of_cons in Hu' as [->|Hu']; [done|by apply Hpre].
    + destruct (IH m cur) as [[Hr Hall]|(pre & post & Hv & Hr & Hlt' & Hpre & Hpost)].
      * left. split; [done|]. intros u' Hu' Hm.
        apply elem_of_cons in Hu' as [->|Hu']; [done|by apply Hall].
      * right. exists (u :: pre), post.
        split_and!; [by rewrite Hv at 1|done..| |done].
        intros u' Hu' Hm.
        apply elem_of_cons in Hu' as [->|Hu']; [|by apply Hpre].
        destruct m as [k|]; [|done]. simpl in *.
        apply Nat.ltb_lt in Hlt'. apply Nat.ltb_ge in Hlt. lia.
Qed.
(** ** Relations every step maintains *)

Section Preserves.
Context (R : relation state) `{!PreOrder R}.

Lemma preserves_ret {A} (r : A) : preserves R (mret r).
Proof. intros s. simpl. reflexivity. Qed.

Lemma preserves_raise {A} e : preserves R (raise e : M A).
Proof. intros s. simpl. reflexivity. Qed.

Lemma preserves_out_of_fuel {A} : preserves R (out_of_fuel : M A).
Proof. intros s. simpl. reflexivity. Qed.

Lemma preserves_gets {A} (f : state → A) : preserves R (gets f).
Proof. intros s. simpl. reflexivity. Qed.

Lemma preserves_bind {A B} (m : M A) (f : A → M B) :
  preserves R m → (∀ r, preserves R (f r)) → preserves R (m ≫= f).
Proof.
  intros Hm Hf s. rewrite run_bind. specialize (Hm s).
  destruct (m s) as [[r| |] s1]; simpl in *; [|done..].
  etransitivity; [done|apply Hf].
Qed.

Lemma preserves_for_each {A} (l : list A) (body : A → M unit) :
  (∀ y, preserves R (body y)) → preserves R (for_each l body).
Proof.
  intros Hbody. induction l as [|y l IH]; simpl.
  - apply preserves_ret.
  - apply preserves_bind; [apply Hbody|]. intros _. apply IH.
Qed.
End Preserves.

Lemma preserves_weaken {A} (R R' : relation state) (m : M A) :
  (∀ s s', R s s' → R' s s') → preserves R m → preserves R' m.
Proof. intros Hsub Hm s. apply Hsub, Hm. Qed.

#[local] Instance same_results_po : PreOrder same_results.
Proof.
  split.
  - by intros s.
  - intros s1 s2 s3 (? & ? & ? & ? & ?) (? & ? & ? & ? & ?).
    unfold same_results. split_and!; congruence.
Qed.

#[local] Instance heap_le_po : PreOrder heap_le.
Proof.
  split.
  - by intros s ℓ l.
  - intros s1 s2 s3 H1 H2 ℓ l Hl. by apply H2, H1.
Qed.

#[local] Instance heap_le_except_po ℓ0 : PreOrder (heap_le_except ℓ0).
Proof.
  split.
  - by intros s ℓ l.
  - intros s1 s2 s3 H1 H2 ℓ l Hne Hl. by apply H2, H1.
Qed.

Lemma heap_le_length s s' : heap_le s s' → length (heap s) ≤ length (heap s').
Proof.
  intros Hle. destruct (heap s) as [|l0 h0] eqn:Eh using rev_ind; [simpl; lia|].
  clear IHh0. rewrite length_app. simpl.
  assert (heap s' !! length h0 = Some l0) as Hl.
  { apply Hle. rewrite Eh. by rewrite list_lookup_middle. }
  apply lookup_lt_Some in Hl. lia.
Qed.

Ltac preserves_step :=
  first
    [ assumption
    | solve [eauto 3 with preserves]
    | lazymatch goal with
      | |- preserves _ (mret _) => apply preserves_ret; typeclasses eauto
      | |- preserves _ (raise _) => apply preserves_raise; typeclasses eauto
      | |- preserves _ out_of_fuel =>
          apply preserves_out_of_fuel; typeclasses eauto
      | |- preserves _ (gets _) => apply preserves_gets; typeclasses eauto
      | |- preserves _ (mbind _ _) =>
          apply preserves_bind; [typeclasses eauto| |intros ?]
      | |- preserves _ (match ?y with _ => _ end) => destruct y
      end ].
Ltac preserves_auto := repeat preserves_step.

Create HintDb preserves.
Hint Resolve same_results_po heap_le_po heap_le_except_po : preserves.

(** *** List objects and dictionaries of domains *)

Lemma alloc_same_results l : preserves same_results (alloc l).
Proof. by intros s. Qed.

Lemma alloc_heap_le l : preserves heap_le (alloc l).
Proof.
  intros s ℓ c Hc. simpl. rewrite lookup_app_l; [done|].
  by apply lookup_lt_Some in Hc.
Qed.

Lemma append_same_results ℓ x : preserves same_results (append ℓ x).
Proof. by intros s. Qed.

Lemma append_heap_le_except ℓ x : preserves (heap_le_except ℓ) (append ℓ x).
Proof. intros s ℓ' c Hne Hc. simpl. by rewrite list_lookup_alter_ne. Qed.

Lemma domains_store_same_results v ℓ : preserves same_results (domains_store v ℓ).
Proof. by intros s. Qed.

Lemma domains_store_heap_le v ℓ : preserves heap_le (domains_store v ℓ).
Proof. by intros s ℓ' l Hl. Qed.

Lemma set_domains_same_results d : preserves same_results (modify (set_domains d)).
Proof. by intros s. Qed.

Lemma set_domains_heap_le d : preserves heap_le (modify (set_domains d)).
Proof. by intros s ℓ' l Hl. Qed.

Hint Resolve alloc_same_results alloc_heap_le append_same_results
  domains_store_same_results domains_store_heap_le
  set_domains_same_results set_domains_heap_le : preserves.

Lemma heap_le_weaken {A} ℓ0 (m : M A) :
  preserves heap_le m → preserves (heap_le_except ℓ0) m.
Proof. apply preserves_weaken. intros s s' Hle ℓ l _. apply Hle. Qed.

Lemma domains_lookup_preserves R `{!PreOrder R} v : preserves R (domains_lookup v).
Proof. unfold domains_lookup. preserves_auto. Qed.

Lemma read_preserves R `{!PreOrder R} ℓ : preserves R (read ℓ).
Proof. by apply preserves_gets. Qed.

Hint Resolve domains_lookup_preserves read_preserves : preserves.

Lemma deepcopy_items_same_results memo items :
  preserves same_results (deepcopy_items memo items).
Proof.
  revert memo. induction items as [|[v ℓ] items IH]; intros memo; simpl;
    preserves_auto.
Qed.

Lemma deepcopy_items_heap_le memo items :
  preserves heap_le (deepcopy_items memo items).
Proof.
  revert memo. induction items as [|[v ℓ] items IH]; intros memo; simpl;
    preserves_auto.
Qed.

Lemma deepcopy_domains_same_results : preserves same_results deepcopy_domains.
Proof. unfold deepcopy_domains. preserves_auto. apply deepcopy_items_same_results. Qed.

Lemma deepcopy_domains_heap_le : preserves heap_le deepcopy_domains.
Proof. unfold deepcopy_domains. preserves_auto. apply deepcopy_items_heap_le. Qed.

Hint Resolve deepcopy_domains_same_results deepcopy_domains_heap_le : preserves.

(** *** The consistency check and the selection read only *)

Lemma check_factors_preserves R `{!PreOrder R} csp v x :
  preserves R (check_factors csp v x).
Proof. intros s. rewrite check_factors_state. reflexivity. Qed.

Hint Resolve check_factors_preserves : preserves.

Lemma count_consistent_preserves R `{!PreOrder R} csp v xs acc :
  preserves R (count_consistent csp v xs acc).
Proof. revert acc. induction xs as [|x xs IH]; intros acc; simpl; preserves_auto. Qed.

Hint Resolve count_consistent_preserves : preserves.

Lemma mcv_loop_preserves R `{!PreOrder R} csp vars m cur :
  preserves R (mcv_loop csp vars m cur).
Proof.
  revert m cur. induction vars as [|u vars IH]; intros m cur; simpl;
    preserves_auto.
Qed.

Hint Resolve mcv_loop_preserves : preserves.

Lemma get_unassigned_variable_preserves R `{!PreOrder R} csp mcv :
  preserves R (get_unassigned_variable csp mcv).
Proof. unfold get_unassigned_variable. destruct mcv; simpl; preserves_auto. Qed.

Hint Resolve get_unassigned_variable_preserves : preserves.

(** *** AC-3 *)

Lemma binary_support_preserves R `{!PreOrder R} csp cur nb cvals x :
  preserves R (binary_support csp cur nb cvals x).
Proof. unfold binary_support. preserves_auto. Qed.

Hint Resolve binary_support_preserves : preserves.

Lemma revise_values_same_results csp cur nb nd xs dc q :
  preserves same_results (revise_values csp cur nb nd xs dc q).
Proof.
  revert dc q. induction xs as [|x xs IH]; intros dc q; simpl; preserves_auto.
Qed.

(** The only list object written while a neighbor is revised is the list
    being built. *)
Lemma revise_values_heap_le_except csp cur nb nd xs dc q :
  preserves (heap_le_except nd) (revise_values csp cur nb nd xs dc q).
Proof.
  revert dc q. induction xs as [|x xs IH]; intros dc q; simpl;
    preserves_auto;
    solve [ apply append_heap_le_except
          | apply heap_le_weaken; eauto with preserves ].
Qed.

Lemma revise_neighbors_same_results csp cur nbs q last :
  preserves same_results (revise_neighbors csp cur nbs q last).
Proof.
  revert q last. induction nbs as [|nb nbs IH]; intros q last; simpl;
    preserves_auto.
  apply revise_values_same_results.
Qed.

(** Revising the neighbors writes to no list object that existed before:
    each list written is the one allocated for that neighbor. *)
Lemma revise_neighbors_heap_le csp cur nbs q last :
  preserves heap_le (revise_neighbors csp cur nbs q last).
Proof.
  revert q last. induction nbs as [|nb nbs IH]; intros q last; simpl.
  { preserves_auto. }
  intros s. rewrite run_bind. simpl.
  set (nd := length (heap s)). set (s1 := set_heap _ s).
  assert (preserves (heap_le_except nd)
            (ℓn ← domains_lookup nb;
             neighbor_vals ← read ℓn;
             queue ← revise_values csp cur nb nd neighbor_vals false q;
             revise_neighbors csp cur nbs queue (Some nb))) as Hrest.
  { preserves_auto;
      solve [ apply revise_values_heap_le_except
            | apply heap_le_weaken; eauto with preserves ]. }
  intros ℓ l Hl. apply (Hrest s1).
  - apply lookup_lt_Some in Hl. unfold nd. lia.
  - apply (alloc_heap_le [] s). done.
Qed.

Hint Resolve revise_neighbors_same_results revise_neighbors_heap_le : preserves.

Lemma while_body_same_results csp cur q last :
  preserves same_results (while_body csp cur q last).
Proof. unfold while_body. preserves_auto. Qed.

Lemma while_body_heap_le csp cur q last :
  preserves heap_le (while_body csp cur q last).
Proof. unfold while_body. preserves_auto. Qed.

Hint Resolve while_body_same_results while_body_heap_le : preserves.

Lemma ac3_while_same_results csp fuel q last :
  preserves same_results (ac3_while csp fuel q last).
Proof.
  revert q last. induction fuel as [|fuel IH]; intros q last; simpl;
    preserves_auto.
Qed.

Lemma ac3_while_heap_le csp fuel q last :
  preserves heap_le (ac3_while csp fuel q last).
Proof.
  revert q last. induction fuel as [|fuel IH]; intros q last; simpl;
    preserves_auto.
Qed.

Lemma arc_consistency_check_same_results csp fuel v :
  preserves same_results (arc_consistency_check csp fuel v).
Proof. apply ac3_while_same_results. Qed.

Lemma arc_consistency_check_heap_le csp fuel v :
  preserves heap_le (arc_consistency_check csp fuel v).
Proof. apply ac3_while_heap_le. Qed.

Hint Resolve arc_consistency_check_same_results
  arc_consistency_check_heap_le : preserves.

(** *** The search writes to no list object that existed before *)

Lemma modify_heap_le (f : state → state) :
  (∀ s, heap (f s) = heap s) → preserves heap_le (modify f).
Proof. intros Hf s ℓ l Hl. simpl. by rewrite Hf. Qed.

Lemma bind_value_heap_le v x : preserves heap_le (bind_value v x).
Proof. by apply modify_heap_le. Qed.

Lemma unbind_heap_le v : preserves heap_le (unbind v).
Proof. unfold unbind. preserves_auto. by apply modify_heap_le. Qed.

Lemma copy_assignment_heap_le vars new : preserves heap_le (copy_assignment vars new).
Proof. revert new. induction vars as [|u vars IH]; intros new; simpl; preserves_auto. Qed.

Hint Resolve bind_value_heap_le unbind_heap_le copy_assignment_heap_le : preserves.

Lemma record_solution_heap_le csp : preserves heap_le (record_solution csp).
Proof. unfold record_solution. preserves_auto; by apply modify_heap_le. Qed.

Hint Resolve record_solution_heap_le : preserves.

Lemma try_value_heap_le csp (recurse : M unit) v x :
  preserves heap_le recurse → preserves heap_le (try_value csp recurse v x).
Proof. intros Hrec. unfold try_value. preserves_auto. Qed.

Lemma try_value_ac3_heap_le csp gas (recurse : M unit) v x :
  preserves heap_le recurse →
  preserves heap_le (try_value_ac3 csp gas recurse v x).
Proof. intros Hrec. unfold try_value_ac3. preserves_auto. Qed.

Lemma backtrack_heap_le csp mcv ac3 gas fuel :
  preserves heap_le (backtrack csp mcv ac3 gas fuel).
Proof.
  induction fuel as [|fuel IH]; simpl; preserves_auto;
    try (by apply modify_heap_le);
    (apply preserves_for_each; [typeclasses eauto|]); intros y;
    first [by apply try_value_ac3_heap_le | by apply try_value_heap_le].
Qed.

Lemma init_domains_heap_le csp vars d : preserves heap_le (init_domains csp vars d).
Proof. revert d. induction vars as [|u vars IH]; intros d; simpl; preserves_auto. Qed.

Lemma solve_heap_le fuel csp mcv ac3 : preserves heap_le (solve fuel csp mcv ac3).
Proof.
  unfold solve, solve_body, reset_results.
  preserves_auto;
    solve [ by apply modify_heap_le
          | apply init_domains_heap_le
          | apply backtrack_heap_le ].
Qed.

(** *** What a call returns *)

Lemma returns_ret {A} (P : A → Prop) r : P r → returns P (mret r).
Proof. intros HP s r' s' [= <- _]. done. Qed.

Lemma returns_raise {A} (P : A → Prop) e : returns P (raise e).
Proof. intros s r' s' [=]. Qed.

Lemma returns_bind {A B} (P : B → Prop) (m : M A) (f : A → M B) :
  (∀ r, returns P (f r)) → returns P (m ≫= f).
Proof.
  intros Hf s r s'. rewrite run_bind.
  destruct (m s) as [[r0| |] s0]; [apply Hf|done..].
Qed.

Lemma mcv_loop_returns csp vars m cur :
  returns (λ r, r = cur ∨ r ∈ vars) (mcv_loop csp vars m cur).
Proof.
  revert m cur. induction vars as [|u vars IH]; intros m cur; simpl.
  { apply returns_ret. by left. }
  assert (∀ m' cur', cur' = cur ∨ cur' = u →
            returns (λ r, r = cur ∨ r ∈ u :: vars) (mcv_loop csp vars m' cur'))
    as Hstep.
  { intros m' cur' Hcur s r s' Hrun. apply IH in Hrun.
    destruct Hrun as [->|Hin].
    - destruct Hcur as [->| ->]; [by left|right; left].
    - right. by right. }
  apply returns_bind. intros a. destruct (Dict.mem u a); [apply Hstep; by left|].
  do 3 (apply returns_bind; intros ?).
  destruct (lt_inf _ m); apply Hstep; auto.
Qed.

Lemma first_unassigned_in a (vars : list var) v :
  first_unassigned a vars = Some v → v ∈ vars.
Proof.
  induction vars as [|u vars IH]; simpl; [done|].
  destruct (Dict.mem u a).
  - intros Hf. right. by apply IH.
  - intros [= ->]. left.
Qed.

(** The selection returns a declared variable or Python's [None]. *)
Lemma get_unassigned_variable_returns csp mcv :
  returns (λ r, ∀ v, r = Some v → v ∈ variables csp)
    (get_unassigned_variable csp mcv).
Proof.
  unfold get_unassigned_variable. destruct mcv; simpl.
  - destruct (variables csp) as [|v0 vars] eqn:Hvars; [apply returns_raise|].
    intros s r s'. rewrite run_bind.
    destruct (mcv_loop csp (v0 :: vars) None v0 s) as [[r0| |] s0] eqn:Hrun;
      [|done..].
    intros [= <- _] v [= <-]. apply mcv_loop_returns in Hrun.
    destruct Hrun as [->|Hin]; [left|done].
  - apply returns_bind. intros a. apply returns_ret.
    intros v. apply first_unassigned_in.
Qed.

(** ** The statistics *)

#[local] Instance keeps_inv_po csp : PreOrder (keeps_inv csp).
Proof.
  split.
  - by intros s Hs.
  - intros s1 s2 s3 H1 H2 Hs. by apply H2, H1.
Qed.

Hint Resolve keeps_inv_po : preserves.

Lemma same_results_keeps_inv {A} csp (m : M A) :
  preserves same_results m → preserves (keeps_inv csp) m.
Proof.
  apply preserves_weaken. intros s s' (Ha & Hn & Ho & Hf & Hall).
  unfold keeps_inv, keeps, inv. by rewrite Ha, Hn, Ho, Hf, Hall.
Qed.

Lemma bind_value_keeps_inv csp v x :
  v ∈ variables csp → preserves (keeps_inv csp) (bind_value v x).
Proof.
  intros Hv s (Hn & Hnd & Hsub & Hfirst). unfold inv. simpl.
  split_and!; [done| |by apply keys_set_incl|apply Hfirst..].
  by apply NoDup_keys_set.
Qed.

Lemma unbind_keeps_inv csp v : preserves (keeps_inv csp) (unbind v).
Proof.
  intros s (Hn & Hnd & Hsub & Hfirst). unfold unbind. rewrite run_bind. simpl.
  destruct (Dict.del v (assignment s)) as [a'|] eqn:Hdel; simpl;
    [|by unfold inv].
  apply del_keys_sublist in Hdel. unfold inv. simpl.
  split_and!; [done| | |apply Hfirst..].
  - by eapply sublist_NoDup.
  - intros u Hu. apply Hsub. by apply (sublist_subseteq _ _ Hdel).
Qed.

Lemma try_value_keeps_inv csp (recurse : M unit) v x :
  v ∈ variables csp → preserves (keeps_inv csp) recurse →
  preserves (keeps_inv csp) (try_value csp recurse v x).
Proof.
  intros Hv Hrec. unfold try_value. preserves_auto.
  - by apply bind_value_keeps_inv.
  - apply unbind_keeps_inv.
Qed.

Lemma try_value_ac3_keeps_inv csp gas (recurse : M unit) v x :
  v ∈ variables csp → preserves (keeps_inv csp) recurse →
  preserves (keeps_inv csp) (try_value_ac3 csp gas recurse v x).
Proof.
  intros Hv Hrec. unfold try_value_ac3. preserves_auto;
    solve [ by apply bind_value_keeps_inv
          | apply unbind_keeps_inv
          | apply same_results_keeps_inv; eauto with preserves ].
Qed.

Lemma copy_assignment_run vars new s :
  (∀ u, u ∈ vars → is_Some (Dict.get u (assignment s))) →
  ∃ new', copy_assignment vars new s = (Ok new', s).
Proof.
  revert new. induction vars as [|u vars IH]; intros new Hall; simpl.
  - by eexists.
  - rewrite run_bind. simpl. destruct (Hall u) as [x ->]; [left|].
    apply IH. intros u' Hu'. apply Hall. by right.
Qed.

Lemma copy_assignment_state vars new s : (copy_assignment vars new s).2 = s.
Proof.
  revert new. induction vars as [|u vars IH]; intros new; simpl; [done|].
  rewrite run_bind. simpl. by destruct (Dict.get u (assignment s)).
Qed.

Lemma record_solution_keeps_inv csp s :
  inv csp s → length (Dict.keys (assignment s)) = vars_num csp →
  1 ≤ num_operations s →
  inv csp (record_solution csp s).2.
Proof.
  intros (Hn & Hnd & Hsub & Hnil & Hcons) Hlen Hops.
  unfold record_solution. rewrite run_bind. simpl.
  rewrite run_bind. simpl.
  set (s1 := set_num_assignments _ s).
  destruct (copy_assignment_run (variables csp) [] s1) as [new Hnew].
  { intros u Hu. by apply (keys_full _ (variables csp)). }
  rewrite run_bind, Hnew. rewrite run_bind. simpl. rewrite run_bind. simpl.
  assert (all_assignments s ++ [new] ≠ []) as Hne.
  { intros Heq. by apply app_nil in Heq as [_ ?]. }
  destruct (Nat.eqb_spec (first_assignment_num_operations s) 0) as [Hz|Hnz];
    unfold inv; simpl; rewrite length_app; simpl.
  - split_and!; [lia|done..|lia].
  - split_and!; [lia|done..|].
    intros _. apply Hcons. intros Hall. apply Hnz. by apply Hnil.
Qed.

Lemma backtrack_keeps_inv csp mcv ac3 gas fuel :
  preserves (keeps_inv csp) (backtrack csp mcv ac3 gas fuel).
Proof.
  induction fuel as [|fuel IH]; [by intros s Hs|].
  intros s Hinv. simpl. rewrite run_bind. simpl. rewrite run_bind. simpl.
  rewrite run_bind. simpl.
  set (s1 := set_num_operations _ s).
  assert (inv csp s1) as Hinv1.
  { destruct Hinv as (Hn & Hnd & Hsub & Hnil & Hcons). unfold inv. simpl.
    split_and!; [done..|]. intros Hne. specialize (Hcons Hne). lia. }
  destruct (Nat.eqb_spec (length (Dict.keys (assignment s))) (vars_num csp))
    as [Hlen|Hlen].
  { apply record_solution_keeps_inv; [done..|simpl; lia]. }
  rewrite run_bind.
  pose proof (get_unassigned_variable_returns csp mcv s1) as Hret.
  pose proof (get_unassigned_variable_preserves (keeps_inv csp) csp mcv s1 Hinv1)
    as Hsel.
  destruct (get_unassigned_variable csp mcv s1) as [[[v|]| |] s2] eqn:Hrun;
    simpl in Hsel; try done.
  specialize (Hret _ _ eq_refl v eq_refl).
  lazymatch goal with
  | |- inv csp (?m s2).2 => assert (preserves (keeps_inv csp) m) as Hrest
  end; [|by apply Hrest].
  preserves_auto; (apply preserves_for_each; [typeclasses eauto|]); intros y;
    first [by apply try_value_ac3_keeps_inv | by apply try_value_keeps_inv].
Qed.

Lemma init_domains_ok csp vars d s :
  ∃ d' s', init_domains csp vars d s = (Ok d', s') ∧ same_results s s'.
Proof.
  revert d s. induction vars as [|u vars IH]; intros d s; simpl.
  - by exists d, s.
  - rewrite run_bind. simpl. rewrite run_bind. simpl.
    edestruct IH as (d' & s' & -> & Hsame). by exists d', s'.
Qed.

(** The invariant holds when [solve] stops, whatever the outcome. *)
Lemma solve_inv fuel csp mcv ac3 s : inv csp (solve fuel csp mcv ac3 s).2.
Proof.
  unfold solve, solve_body, reset_results.
  rewrite run_bind. simpl.
  set (s0 := set_all_assignments _ _).
  destruct (init_domains_ok csp (variables csp) [] s0)
    as (d & s1 & Hinit & _ & Hn & Ho & Hf & Hall).
  rewrite run_bind, Hinit. rewrite run_bind. simpl. rewrite run_bind. simpl.
  apply backtrack_keeps_inv. unfold inv. simpl.
  rewrite Hn, Hf, Hall. simpl. split_and!; [done| | |done..].
  - apply NoDup_nil_2.
  - apply list_subseteq_nil.
Qed.

#[local] Instance frozen_po : PreOrder frozen.
Proof.
  split.
  - by intros s Hs.
  - intros s1 s2 s3 H1 H2 Hs. unfold frozen in *.
    rewrite H2; rewrite H1; done.
Qed.

Hint Resolve frozen_po : preserves.

Lemma same_results_frozen {A} (m : M A) :
  preserves same_results m → preserves frozen m.
Proof.
  apply preserves_weaken. intros s s' (_ & _ & _ & Hf & _) _. done.
Qed.

Lemma modify_frozen (f : state → state) :
  (∀ s, first_assignment_num_operations (f s)
        = first_assignment_num_operations s) →
  preserves frozen (modify f).
Proof. intros Hf s _. apply Hf. Qed.

Lemma record_solution_frozen csp : preserves frozen (record_solution csp).
Proof.
  intros s Hnz. unfold record_solution. rewrite run_bind. simpl.
  rewrite run_bind. simpl. rewrite run_bind.
  set (s1 := set_num_assignments _ s).
  pose proof (copy_assignment_state (variables csp) [] s1) as Hst.
  destruct (copy_assignment (variables csp) [] s1) as [[new| |] s2];
    simpl in Hst; subst s2; [|done..].
  rewrite run_bind. simpl. rewrite run_bind. simpl.
  destruct (Nat.eqb_spec (first_assignment_num_operations s) 0); done.
Qed.

Lemma try_value_frozen csp (recurse : M unit) v x :
  preserves frozen recurse → preserves frozen (try_value csp recurse v x).
Proof.
  intros Hrec. unfold try_value, bind_value, unbind.
  preserves_auto; by apply modify_frozen.
Qed.

Lemma try_value_ac3_frozen csp gas (recurse : M unit) v x :
  preserves frozen recurse →
  preserves frozen (try_value_ac3 csp gas recurse v x).
Proof.
  intros Hrec. unfold try_value_ac3, bind_value, unbind.
  preserves_auto;
    solve [ by apply modify_frozen
          | apply same_results_frozen; eauto with preserves ].
Qed.

Lemma backtrack_frozen csp mcv ac3 gas fuel :
  preserves frozen (backtrack csp mcv ac3 gas fuel).
Proof.
  induction fuel as [|fuel IH]; simpl; preserves_auto;
    try (by apply modify_frozen); try apply record_solution_frozen;
    (apply preserves_for_each; [typeclasses eauto|]); intros y;
    first [by apply try_value_ac3_frozen | by apply try_value_frozen].
Qed.

(** The call of [backtrack] on a complete assignment records it; when it is
    the first solution, the operation count of the first solution becomes
    the operation counter of that call. *)
Lemma backtrack_records_first csp mcv ac3 gas fuel s :
  inv csp s → all_assignments s = [] →
  length (Dict.keys (assignment s)) = vars_num csp →
  ∃ new s', backtrack csp mcv ac3 gas (S fuel) s = (Ok tt, s') ∧
            all_assignments s' = [new] ∧
            num_operations s' = num_operations s + 1 ∧
            first_assignment_num_operations s' = num_operations s'.
Proof.
  intros (Hn & Hnd & Hsub & Hnil & Hcons) Hall Hlen.
  simpl. rewrite run_bind. simpl. rewrite run_bind. simpl.
  rewrite run_bind. simpl.
  rewrite (proj2 (Nat.eqb_eq _ _) Hlen).
  unfold record_solution. rewrite run_bind. simpl. rewrite run_bind. simpl.
  set (s1 := set_num_assignments _ _).
  destruct (copy_assignment_run (variables csp) [] s1) as [new Hnew].
  { intros u Hu. by apply (keys_full _ (variables csp)). }
  rewrite run_bind, Hnew. rewrite run_bind. simpl. rewrite run_bind. simpl.
  rewrite (Hnil Hall). simpl. rewrite Hall.
  eexists new, _. split; [reflexivity|]. done.
Qed.

(** ** Snapshot and restore *)

Lemma allocated_elem h d v ℓ : allocated h d → (v, ℓ) ∈ d → ℓ < length h.
Proof.
  intros Hal Hin. unfold allocated in Hal. rewrite Forall_forall in Hal.
  apply (Hal (v, ℓ) Hin).
Qed.

Lemma view_cons h v ℓ d : view h ((v, ℓ) :: d) = (v, contents h ℓ) :: view h d.
Proof. done. Qed.

Lemma contents_prefix h h' ℓ :
  h `prefix_of` h' → ℓ < length h → contents h' ℓ = contents h ℓ.
Proof.
  intros [k ->] Hlt. unfold contents. by rewrite lookup_app_l.
Qed.

Lemma view_heap_le s s' d :
  heap_le s s' → allocated (heap s) d → view (heap s') d = view (heap s) d.
Proof.
  intros Hle Hd. unfold view. apply list_fmap_ext. intros i [v ℓ] Hi. simpl.
  unfold contents.
  assert (ℓ < length (heap s)) as Hlt.
  { apply (allocated_elem _ _ v _ Hd). by eapply list_elem_of_lookup_2. }
  destruct (heap s !! ℓ) as [l|] eqn:Hl.
  - by rewrite (Hle _ _ Hl).
  - apply lookup_ge_None in Hl. lia.
Qed.

Lemma set_heap_id s : set_heap (heap s) s = s.
Proof. by destruct s. Qed.

(** The copy holds, under new allocated objects, the values the original
    holds; nothing but the heap changes, and the heap only grows. *)
Lemma deepcopy_items_spec h0 memo items s :
  h0 `prefix_of` heap s → allocated h0 items →
  (∀ ℓ ℓ', Dict.get ℓ memo = Some ℓ' →
           ℓ' < length (heap s) ∧ contents (heap s) ℓ' = contents h0 ℓ) →
  ∃ lc h', deepcopy_items memo items s = (Ok lc, set_heap h' s) ∧
           heap s `prefix_of` h' ∧
           view h' lc = view h0 items ∧ allocated h' lc.
Proof.
  revert memo s. induction items as [|[v ℓ] items IH]; intros memo s Hpre Hal Hmemo.
  { exists [], (heap s). simpl. rewrite set_heap_id. split_and!; [done..|].
    apply Forall_nil_2. }
  assert (allocated h0 items) as Hal' by (by apply Forall_inv_tail in Hal).
  assert (ℓ < length h0) as Hℓ by (by apply Forall_inv in Hal).
  simpl. destruct (Dict.get ℓ memo) as [ℓ'|] eqn:Hget.
  - destruct (IH memo s Hpre Hal' Hmemo) as (lc & h' & Hrun & Hpre' & Hview & Hlc).
    exists ((v, ℓ') :: lc), h'. rewrite run_bind, Hrun. simpl.
    destruct (Hmemo _ _ Hget) as [Hlt Hc].
    split_and!; [done..| |].
    + rewrite !view_cons, Hview. rewrite <- Hc.
      by rewrite (contents_prefix (heap s) h').
    + apply Forall_cons. split; [|done]. simpl.
      apply prefix_length in Hpre'. lia.
  - rewrite run_bind. simpl. rewrite run_bind. simpl.
    set (l := contents (heap s) ℓ). set (s1 := set_heap _ s).
    assert (l = contents h0 ℓ) as Hl by (by apply contents_prefix).
    destruct (IH ((ℓ, length (heap s)) :: memo) s1)
      as (lc & h' & Hrun & Hpre' & Hview & Hlc).
    { simpl. etransitivity; [done|]. by apply prefix_app_r. }
    { done. }
    { intros ℓ1 ℓ2. simpl. destruct (decide (ℓ1 = ℓ)) as [->|Hne].
      - intros [= <-]. rewrite length_app. simpl. split; [lia|].
        unfold contents. by rewrite list_lookup_middle.
      - intros Hg. destruct (Hmemo _ _ Hg) as [Hlt Hc].
        rewrite length_app. simpl. split; [lia|]. rewrite <- Hc.
        apply contents_prefix; [|done]. by apply prefix_app_r. }
    rewrite run_bind, Hrun. simpl. exists ((v, length (heap s)) :: lc), h'.
    simpl in Hpre'. split_and!; [done| | |].
    + etransitivity; [|done]. by apply prefix_app_r.
    + rewrite !view_cons, Hview. rewrite <- Hl.
      destruct Hpre' as [k ->]. unfold contents at 1.
      rewrite <- app_assoc. simpl. by rewrite list_lookup_middle.
    + apply Forall_cons. split; [|done]. simpl.
      apply prefix_length in Hpre'. rewrite length_app in Hpre'.
      simpl in Hpre'. lia.
Qed.

Lemma deepcopy_domains_spec s :
  allocated (heap s) (domains s) →
  ∃ lc h', deepcopy_domains s = (Ok lc, set_heap h' s) ∧
           heap s `prefix_of` h' ∧
           view h' lc = dom_view s ∧ allocated h' lc.
Proof.
  intros Hal. unfold deepcopy_domains. rewrite run_bind. simpl.
  by apply deepcopy_items_spec.
Qed.

Lemma preserves_ok_for_each {A} (R : relation state) `{!PreOrder R}
    (l : list A) (body : A → M unit) :
  (∀ y, preserves_ok R (body y)) → preserves_ok R (for_each l body).
Proof.
  intros Hbody. induction l as [|y l IH]; intros s r s'; simpl.
  - intros [= _ <-]. reflexivity.
  - rewrite run_bind. destruct (body y s) as [[[]| |] s1] eqn:Hy; [|done..].
    intros Hrest. etransitivity; [by eapply Hbody|by eapply IH].
Qed.

(** The steps of one tentative assignment with propagation that returns. *)
Lemma try_value_ac3_inv csp gas (recurse : M unit) v x s s' :
  (check_factors csp v x s).1 = Ok true →
  try_value_ac3 csp gas recurse v x s = (Ok tt, s') →
  ∃ (succeed : bool) lc s2 s3 s4 a',
    deepcopy_domains (set_assignment (Dict.set v x (assignment s)) s)
    = (Ok lc, s2) ∧
    arc_consistency_check csp gas v
      (set_domains (Dict.set v (length (heap s2)) (domains s2))
         (set_heap (heap s2 ++ [[x]]) s2))
    = (Ok succeed, s3) ∧
    (if succeed then recurse s3 = (Ok tt, s4) else s4 = s3) ∧
    Dict.del v (assignment s4) = Some a' ∧
    s' = set_assignment a' (set_domains lc s4).
Proof.
  intros Hcheck. unfold try_value_ac3. rewrite run_bind.
  pose proof (check_factors_state csp v x s) as Hst.
  destruct (check_factors csp v x s) as [[[]| |] s0]; simpl in *; try done.
  subst s0. rewrite run_bind. simpl. rewrite run_bind.
  destruct (deepcopy_domains _) as [[lc| |] s2] eqn:Hcopy; [|done..].
  rewrite run_bind. simpl. rewrite run_bind. simpl. rewrite run_bind.
  destruct (arc_consistency_check csp gas v _) as [[succeed| |] s3] eqn:Harc;
    [|done..].
  rewrite run_bind.
  destruct ((if succeed then recurse else mret ()) s3) as [[[]| |] s4] eqn:Hrec;
    [|done..].
  rewrite run_bind. simpl. unfold unbind. rewrite run_bind. simpl.
  destruct (Dict.del v (assignment s4)) as [a'|] eqn:Hdel; [|done].
  simpl. intros [= <-].
  exists succeed, lc, s2, s3, s4, a'. split_and!; [done..| |done|done].
  destruct succeed; [done|]. by injection Hrec as <-.
Qed.

Lemma check_factors_true_fresh csp v x s :
  (check_factors csp v x s).1 = Ok true → v ∉ Dict.keys (assignment s).
Proof. intros Hc. by apply mem_false_keys, (check_factors_true_unassigned csp v x). Qed.

(** One tentative assignment with propagation that returns has restored
    the assignment and the working domains, and has written to no list
    object that existed before. *)
Lemma try_value_ac3_restores csp gas (recurse : M unit) v x s s' :
  preserves heap_le recurse → preserves_ok same_assignment recurse →
  allocated (heap s) (domains s) →
  try_value_ac3 csp gas recurse v x s = (Ok tt, s') →
  assignment s' = assignment s ∧ dom_view s' = dom_view s ∧
  allocated (heap s') (domains s').
Proof.
  intros Hheap Hassign Hal Hrun.
  destruct (check_factors csp v x s) as [[[]| |] s0] eqn:Hcheck.
  2-4: (unfold try_value_ac3 in Hrun; rewrite run_bind, Hcheck in Hrun;
        pose proof (check_factors_state csp v x s) as Hst;
        rewrite Hcheck in Hst; simpl in *; try done;
        injection Hrun as <-; by subst s0).
  assert ((check_factors csp v x s).1 = Ok true) as Htrue by (by rewrite Hcheck).
  destruct (try_value_ac3_inv _ _ _ _ _ _ _ Htrue Hrun)
    as (succeed & lc & s2 & s3 & s4 & a' & Hcopy & Harc & Hrec & Hdel & ->).
  set (s1 := set_assignment _ s) in Hcopy.
  destruct (deepcopy_domains_spec s1 Hal) as (lc' & h' & Hcopy' & Hpre & Hview & Hlc).
  rewrite Hcopy in Hcopy'. injection Hcopy' as <- ->.
  (* from the copy to the end of the branch *)
  assert (heap_le (set_heap h' s1) s4 ∧
          assignment s4 = Dict.set v x (assignment s)) as [Hle Ha].
  { set (s2' := set_domains _ _) in Harc.
    assert (heap_le (set_heap h' s1) s2') as Hle2.
    { intros ℓ l Hl. simpl. rewrite lookup_app_l; [done|].
      by apply lookup_lt_Some in Hl. }
    pose proof (arc_consistency_check_heap_le csp gas v s2') as Hle3.
    pose proof (arc_consistency_check_same_results csp gas v s2') as (Ha3 & _).
    rewrite Harc in Hle3, Ha3. simpl in Hle3, Ha3.
    destruct succeed.
    - pose proof (Hheap s3) as Hle4. pose proof (Hassign _ _ _ Hrec) as Ha4.
      rewrite Hrec in Hle4. simpl in Hle4. split.
      + etransitivity; [done|]. etransitivity; done.
      + unfold same_assignment in Ha4. by rewrite Ha4, Ha3.
    - subst s4. split; [by etransitivity|done]. }
  rewrite Ha, del_set_fresh in Hdel by (by eapply check_factors_true_fresh).
  injection Hdel as <-. unfold dom_view. simpl. split_and!; [done| |].
  - rewrite (view_heap_le (set_heap h' s1) s4); done.
  - pose proof (heap_le_length _ _ Hle) as Hlen. simpl in Hlen.
    eapply Forall_impl; [exact Hlc|]. intros [u ℓ] Hlt. simpl in *. lia.
Qed.

#[local] Instance same_assignment_po : PreOrder same_assignment.
Proof.
  split.
  - by intros s.
  - intros s1 s2 s3 H1 H2. unfold same_assignment in *. congruence.
Qed.

Hint Resolve same_assignment_po : preserves.

Lemma preserves_ok_of {A} (R : relation state) (m : M A) :
  preserves R m → preserves_ok R m.
Proof. intros Hm s r s' Hrun. specialize (Hm s). by rewrite Hrun in Hm. Qed.

Lemma preserves_ok_bind {A B} (R : relation state) `{!PreOrder R}
    (m : M A) (f : A → M B) :
  preserves_ok R m → (∀ r, preserves_ok R (f r)) → preserves_ok R (m ≫= f).
Proof.
  intros Hm Hf s r s'. rewrite run_bind.
  destruct (m s) as [[r0| |] s0] eqn:Hrun; [|done..].
  intros Hrest. etransitivity; [by eapply Hm|by eapply Hf].
Qed.

Lemma modify_same_assignment (f : state → state) :
  (∀ s, assignment (f s) = assignment s) →
  preserves same_assignment (modify f).
Proof. intros Hf s. apply Hf. Qed.

Lemma record_solution_same_assignment csp :
  preserves same_assignment (record_solution csp).
Proof.
  unfold record_solution. preserves_auto; try (by apply modify_same_assignment).
  generalize (@nil (var * val)). induction (variables csp) as [|u vars IH];
    intros new; simpl; preserves_auto.
Qed.

Lemma try_value_same_assignment csp (recurse : M unit) v x :
  preserves_ok same_assignment recurse →
  preserves_ok same_assignment (try_value csp recurse v x).
Proof.
  intros Hrec s [] s'. unfold try_value. rewrite run_bind.
  pose proof (check_factors_true_fresh csp v x s) as Hfresh.
  pose proof (check_factors_state csp v x s) as Hst.
  destruct (check_factors csp v x s) as [[[]| |] s0]; simpl in *; subst s0;
    [|by intros [= <-]|done..].
  rewrite run_bind. simpl. rewrite run_bind.
  destruct (recurse _) as [[[]| |] s1] eqn:Hrun; [|done..].
  apply Hrec in Hrun. unfold same_assignment in Hrun. simpl in Hrun.
  unfold unbind. rewrite run_bind. simpl.
  rewrite Hrun, del_set_fresh by auto. simpl. by intros [= <-].
Qed.

Lemma try_value_ac3_same_assignment csp gas (recurse : M unit) v x :
  preserves_ok same_assignment recurse →
  preserves_ok same_assignment (try_value_ac3 csp gas recurse v x).
Proof.
  intros Hrec s [] s' Hrun.
  destruct (check_factors csp v x s) as [[[]| |] s0] eqn:Hcheck.
  2-4: (unfold try_value_ac3 in Hrun; rewrite run_bind, Hcheck in Hrun;
        pose proof (check_factors_state csp v x s) as Hst;
        rewrite Hcheck in Hst; simpl in *; try done;
        injection Hrun as <-; by subst s0).
  assert ((check_factors csp v x s).1 = Ok true) as Htrue by (by rewrite Hcheck).
  destruct (try_value_ac3_inv _ _ _ _ _ _ _ Htrue Hrun)
    as (succeed & lc & s2 & s3 & s4 & a' & Hcopy & Harc & Hrec' & Hdel & ->).
  pose proof (deepcopy_domains_same_results
                (set_assignment (Dict.set v x (assignment s)) s)) as (Ha2 & _).
  rewrite Hcopy in Ha2. simpl in Ha2.
  set (s2' := set_domains _ _) in Harc.
  pose proof (arc_consistency_check_same_results csp gas v s2') as (Ha3 & _).
  rewrite Harc in Ha3. simpl in Ha3.
  assert (assignment s4 = assignment s3) as Ha4.
  { destruct succeed; [by apply Hrec in Hrec'|by subst]. }
  rewrite Ha4, Ha3, Ha2, del_set_fresh in Hdel
    by (by eapply check_factors_true_fresh).
  by injection Hdel as <-.
Qed.

(** One tentative assignment with propagation returns when the propagation
    returns [False], and when it returns [True] and the recursive call
    returns. *)
Lemma try_value_ac3_completes csp gas (recurse : M unit) v x s lc s2 succeed s3 :
  preserves_ok same_assignment recurse →
  (check_factors csp v x s).1 = Ok true →
  deepcopy_domains (after (bind_value v x) s) = (Ok lc, s2) →
  arc_consistency_check csp gas v
    (after (singleton ← alloc [x]; domains_store v singleton) s2)
  = (Ok succeed, s3) →
  (succeed = true → ∃ s4, recurse s3 = (Ok tt, s4)) →
  (try_value_ac3 csp gas recurse v x s).1 = Ok tt.
Proof.
  intros Hrec Hcheck Hcopy Harc Hsucc.
  pose proof (check_factors_true_fresh _ _ _ _ Hcheck) as Hfresh.
  unfold try_value_ac3. rewrite run_bind.
  pose proof (check_factors_state csp v x s) as Hst.
  destruct (check_factors csp v x s) as [[[]| |] s0]; simpl in *; try done.
  subst s0. rewrite run_bind. simpl. unfold after in Hcopy. simpl in Hcopy.
  rewrite run_bind, Hcopy. rewrite run_bind. simpl. rewrite run_bind. simpl.
  unfold after in Harc. simpl in Harc. rewrite run_bind, Harc.
  pose proof (deepcopy_domains_same_results
                (set_assignment (Dict.set v x (assignment s)) s)) as (Ha2 & _).
  rewrite Hcopy in Ha2. simpl in Ha2.
  pose proof (arc_consistency_check_same_results csp gas v
                (set_domains (Dict.set v (length (heap s2)) (domains s2))
                   (set_heap (heap s2 ++ [[x]]) s2))) as (Ha3 & _).
  rewrite Harc in Ha3. simpl in Ha3.
  rewrite run_bind.
  assert (∃ s4, (if succeed then recurse else mret ()) s3 = (Ok tt, s4) ∧
                assignment s4 = assignment s3) as (s4 & -> & Ha4).
  { destruct succeed.
    - destruct (Hsucc eq_refl) as [s4 Hs4]. exists s4. split; [done|].
      by apply Hrec in Hs4.
    - by exists s3. }
  rewrite run_bind. simpl. unfold unbind. rewrite run_bind. simpl.
  by rewrite Ha4, Ha3, Ha2, del_set_fresh.
Qed.

(** A call of [backtrack] that returns leaves the assignment as it got it. *)
Lemma backtrack_same_assignment csp mcv ac3 gas fuel :
  preserves_ok same_assignment (backtrack csp mcv ac3 gas fuel).
Proof.
  induction fuel as [|fuel IH]; [by intros s r s'|]. simpl.
  apply preserves_ok_bind; [typeclasses eauto|apply preserves_ok_of; preserves_auto|].
  intros ops.
  apply preserves_ok_bind;
    [typeclasses eauto|by apply preserves_ok_of, modify_same_assignment|].
  intros _.
  apply preserves_ok_bind; [typeclasses eauto|apply preserves_ok_of; preserves_auto|].
  intros a. destruct (_ =? _).
  { apply preserves_ok_of, record_solution_same_assignment. }
  apply preserves_ok_bind; [typeclasses eauto|apply preserves_ok_of; preserves_auto|].
  intros [v|]; [|by intros s r s'].
  apply preserves_ok_bind; [typeclasses eauto|apply preserves_ok_of; preserves_auto|].
  intros ℓ.
  apply preserves_ok_bind; [typeclasses eauto|apply preserves_ok_of; preserves_auto|].
  intros xs.
  destruct (negb ac3); (apply preserves_ok_for_each; [typeclasses eauto|]);
    intros y.
  - by apply try_value_same_assignment.
  - by apply try_value_ac3_same_assignment.
Qed.

(** ** The working domains name allocated list objects *)

#[local] Instance keeps_po P : PreOrder (keeps P).
Proof.
  split.
  - by intros s Hs.
  - intros s1 s2 s3 H1 H2 Hs. by apply H2, H1.
Qed.

Hint Resolve keeps_po : preserves.

Lemma allocated_mono h h' d :
  length h ≤ length h' → allocated h d → allocated h' d.
Proof.
  intros Hlen Hal. eapply Forall_impl; [exact Hal|]. intros p Hp. simpl in *. lia.
Qed.

Lemma allocated_set h d v ℓ :
  allocated h d → ℓ < length h → allocated h (Dict.set v ℓ d).
Proof.
  intros Hal Hℓ. induction d as [|[u ℓ'] d IH]; simpl.
  - by apply Forall_singleton.
  - apply Forall_cons in Hal as [Hu Hd]. destruct (decide (v = u)).
    + by apply Forall_cons.
    + apply Forall_cons. split; [done|]. by apply IH.
Qed.

(** A step that only grows the heap keeps a list object allocated. *)
Lemma keeps_and_heap_le {A} (P : state → Prop) (Q : list (list val) → Prop)
    (m : M A) :
  (∀ h h', length h ≤ length h' → Q h → Q h') →
  preserves heap_le m → preserves (keeps P) m →
  preserves (keeps (λ s, Q (heap s) ∧ P s)) m.
Proof.
  intros Hmono Hle Hkeep s [HQ HP]. split.
  - eapply Hmono; [|done]. apply heap_le_length, Hle.
  - by apply Hkeep.
Qed.

Lemma modify_keeps_allocated (f : state → state) :
  (∀ s, heap (f s) = heap s ∧ domains (f s) = domains s) →
  preserves (keeps domains_allocated) (modify f).
Proof.
  intros Hf s Hs. unfold domains_allocated. simpl.
  destruct (Hf s) as [-> ->]. done.
Qed.

Lemma revise_values_keeps_allocated csp cur nb nd xs dc q :
  preserves (keeps (λ s, nd < length (heap s) ∧ domains_allocated s))
    (revise_values csp cur nb nd xs dc q).
Proof.
  revert dc q. induction xs as [|x xs IH]; intros dc q; simpl; preserves_auto.
  - intros s [Hnd Hal]. unfold domains_allocated, allocated. simpl.
    by rewrite length_alter.
  - intros s [Hnd Hal]. split; [done|]. by apply allocated_set.
Qed.

Lemma revise_neighbors_keeps_allocated csp cur nbs q last :
  preserves (keeps domains_allocated) (revise_neighbors csp cur nbs q last).
Proof.
  revert q last. induction nbs as [|nb nbs IH]; intros q last; simpl.
  { preserves_auto. }
  intros s Hal. rewrite run_bind. simpl.
  set (nd := length (heap s)). set (s1 := set_heap _ s).
  assert (preserves (keeps (λ s, nd < length (heap s) ∧ domains_allocated s))
            (ℓn ← domains_lookup nb;
             neighbor_vals ← read ℓn;
             queue ← revise_values csp cur nb nd neighbor_vals false q;
             revise_neighbors csp cur nbs queue (Some nb))) as Hrest.
  { preserves_auto; [apply revise_values_keeps_allocated|].
    apply (keeps_and_heap_le _ (λ h, nd < length h)); [lia| |apply IH].
    apply revise_neighbors_heap_le. }
  apply (Hrest s1). unfold domains_allocated. simpl.
  rewrite length_app. simpl. split; [unfold nd; lia|].
  eapply allocated_mono; [|exact Hal]. rewrite length_app. lia.
Qed.

Hint Resolve revise_neighbors_keeps_allocated : preserves.

Lemma arc_consistency_check_keeps_allocated csp gas v :
  preserves (keeps domains_allocated) (arc_consistency_check csp gas v).
Proof.
  unfold arc_consistency_check. generalize (@None var), [v].
  induction gas as [|gas IH]; intros last q; simpl; preserves_auto.
  unfold while_body. preserves_auto.
Qed.

Lemma unbind_keeps_allocated v : preserves (keeps domains_allocated) (unbind v).
Proof. unfold unbind. preserves_auto. by apply modify_keeps_allocated. Qed.

Lemma try_value_keeps_allocated csp (recurse : M unit) v x :
  preserves (keeps domains_allocated) recurse →
  preserves (keeps domains_allocated) (try_value csp recurse v x).
Proof.
  intros Hrec. unfold try_value. preserves_auto.
  - by apply modify_keeps_allocated.
  - apply unbind_keeps_allocated.
Qed.

Lemma try_value_ac3_keeps_allocated csp gas (recurse : M unit) v x :
  preserves heap_le recurse →
  preserves (keeps domains_allocated) recurse →
  preserves (keeps domains_allocated) (try_value_ac3 csp gas recurse v x).
Proof.
  intros Hle Hrec s Hal. unfold try_value_ac3. rewrite run_bind.
  pose proof (check_factors_state csp v x s) as Hst.
  destruct (check_factors csp v x s) as [[[]| |] s0]; simpl in *; subst s0;
    try done.
  rewrite run_bind. simpl. rewrite run_bind.
  set (s1 := set_assignment _ s).
  destruct (deepcopy_domains_spec s1 Hal) as (lc & h' & -> & Hpre & _ & Hlc).
  rewrite run_bind. simpl. rewrite run_bind. simpl.
  set (s3 := set_domains _ _).
  assert (allocated (heap s3) lc ∧ domains_allocated s3) as Hs3.
  { unfold domains_allocated. simpl. split.
    - eapply allocated_mono; [|exact Hlc]. rewrite length_app. lia.
    - apply allocated_set; [|rewrite length_app; simpl; lia].
      eapply allocated_mono; [|exact Hal].
      apply prefix_length in Hpre. rewrite length_app. simpl in *. lia. }
  assert (preserves (keeps (λ s, allocated (heap s) lc ∧ domains_allocated s))
            (arc_consistency_check csp gas v)) as Harc.
  { apply (keeps_and_heap_le _ (λ h, allocated h lc));
      [intros h1 h2; apply allocated_mono| |];
      auto using arc_consistency_check_heap_le,
                 arc_consistency_check_keeps_allocated. }
  assert (preserves (keeps (λ s, allocated (heap s) lc ∧ domains_allocated s))
            recurse) as Hrec'.
  { by apply (keeps_and_heap_le _ (λ h, allocated h lc));
      [intros h1 h2; apply allocated_mono|..]. }
  rewrite run_bind. specialize (Harc s3 Hs3).
  destruct (arc_consistency_check csp gas v s3) as [[succeed| |] s4];
    simpl in Harc; [|apply Harc..].
  rewrite run_bind.
  assert (allocated (heap ((if succeed then recurse else mret ()) s4).2) lc)
    as Hs5.
  { destruct succeed; [by apply (Hrec' s4)|apply Harc]. }
  assert (domains_allocated ((if succeed then recurse else mret ()) s4).2)
    as Hs5'.
  { destruct succeed; [by apply (Hrec' s4)|apply Harc]. }
  destruct ((if succeed then recurse else mret ()) s4) as [[[]| |] s5];
    simpl in *; [|done..].
  rewrite run_bind. simpl. by apply unbind_keeps_allocated.
Qed.

Lemma record_solution_keeps_allocated csp :
  preserves (keeps domains_allocated) (record_solution csp).
Proof.
  unfold record_solution. preserves_auto; try (by apply modify_keeps_allocated).
  generalize (@nil (var * val)). induction (variables csp) as [|u vars IH];
    intros new; simpl; preserves_auto.
Qed.

(** Every call of [backtrack] keeps the working domains allocated, in
    every outcome. *)
Lemma backtrack_keeps_allocated csp mcv ac3 gas fuel :
  preserves (keeps domains_allocated) (backtrack csp mcv ac3 gas fuel).
Proof.
  induction fuel as [|fuel IH]; simpl; preserves_auto;
    try (by apply modify_keeps_allocated);
    try apply record_solution_keeps_allocated;
    (apply preserves_for_each; [typeclasses eauto|]); intros y.
  - by apply try_value_keeps_allocated.
  - apply try_value_ac3_keeps_allocated; [apply backtrack_heap_le|done].
Qed.

Lemma init_domains_allocated csp vars d s :
  allocated (heap s) d →
  ∃ d' s', init_domains csp vars d s = (Ok d', s') ∧ allocated (heap s') d'.
Proof.
  revert d s. induction vars as [|u vars IH]; intros d s Hal; simpl.
  - by exists d, s.
  - rewrite run_bind. simpl. rewrite run_bind. simpl. apply IH. simpl.
    apply allocated_set; [|rewrite length_app; simpl; lia].
    eapply allocated_mono; [|exact Hal]. rewrite length_app. lia.
Qed.

(** The working domains are allocated when [solve] stops, and so they are
    in every store the search passes through. *)
Lemma solve_allocated fuel csp mcv ac3 s :
  domains_allocated (solve fuel csp mcv ac3 s).2.
Proof.
  unfold solve, solve_body, reset_results. rewrite run_bind. simpl.
  set (s0 := set_all_assignments _ _).
  destruct (init_domains_allocated csp (variables csp) [] s0)
    as (d & s1 & Hinit & Hal); [apply Forall_nil_2|].
  rewrite run_bind, Hinit. rewrite run_bind. simpl. rewrite run_bind. simpl.
  by apply backtrack_keeps_allocated.
Qed.

(** ** Termination *)

(** *** Calls that use no fuel *)

Lemma fuel_free_ret {A} (r : A) : fuel_free (mret r).
Proof. by intros s. Qed.

Lemma fuel_free_raise {A} e : fuel_free (raise e : M A).
Proof. by intros s. Qed.

Lemma fuel_free_gets {A} (f : state → A) : fuel_free (gets f).
Proof. by intros s. Qed.

Lemma fuel_free_modify (f : state → state) : fuel_free (modify f).
Proof. by intros s. Qed.

Lemma fuel_free_alloc l : fuel_free (alloc l).
Proof. by intros s. Qed.

Lemma fuel_free_bind {A B} (m : M A) (f : A → M B) :
  fuel_free m → (∀ r, fuel_free (f r)) → fuel_free (m ≫= f).
Proof.
  intros Hm Hf s. rewrite run_bind. specialize (Hm s).
  destruct (m s) as [[r| |] s1]; simpl in *; [apply Hf|done..].
Qed.

Lemma fuel_free_for_each {A} (l : list A) (body : A → M unit) :
  (∀ y, fuel_free (body y)) → fuel_free (for_each l body).
Proof.
  intros Hbody. induction l as [|y l IH]; simpl.
  - apply fuel_free_ret.
  - apply fuel_free_bind; [apply Hbody|]. intros _. apply IH.
Qed.

Ltac fuel_free_step :=
  first
    [ assumption
    | solve [eauto 3 with fuel_free]
    | lazymatch goal with
      | |- fuel_free (mret _) => apply fuel_free_ret
      | |- fuel_free (raise _) => apply fuel_free_raise
      | |- fuel_free (gets _) => apply fuel_free_gets
      | |- fuel_free (modify _) => apply fuel_free_modify
      | |- fuel_free (alloc _) => apply fuel_free_alloc
      | |- fuel_free (mbind _ _) => apply fuel_free_bind; [|intros ?]
      | |- fuel_free (match ?y with _ => _ end) => destruct y
      end ].
Ltac fuel_free_auto := repeat fuel_free_step.

Create HintDb fuel_free.

Lemma fuel_free_read ℓ : fuel_free (read ℓ).
Proof. apply fuel_free_gets. Qed.

Lemma fuel_free_append ℓ x : fuel_free (append ℓ x).
Proof. apply fuel_free_modify. Qed.

Lemma fuel_free_domains_lookup v : fuel_free (domains_lookup v).
Proof. unfold domains_lookup. fuel_free_auto. Qed.

Lemma fuel_free_domains_store v ℓ : fuel_free (domains_store v ℓ).
Proof. apply fuel_free_modify. Qed.

Lemma fuel_free_bind_value v x : fuel_free (bind_value v x).
Proof. apply fuel_free_modify. Qed.

Lemma fuel_free_unbind v : fuel_free (unbind v).
Proof. unfold unbind. fuel_free_auto. Qed.

Hint Resolve fuel_free_read fuel_free_append fuel_free_domains_lookup
  fuel_free_domains_store fuel_free_bind_value fuel_free_unbind : fuel_free.

Lemma fuel_free_deepcopy_domains : fuel_free deepcopy_domains.
Proof.
  unfold deepcopy_domains. fuel_free_auto. generalize (@nil (nat * nat)).
  induction r as [|[v ℓ] items IH]; intros memo; simpl; fuel_free_auto.
Qed.

Lemma fuel_free_check_factors csp v x : fuel_free (check_factors csp v x).
Proof. unfold check_factors. fuel_free_auto. Qed.

Hint Resolve fuel_free_deepcopy_domains fuel_free_check_factors : fuel_free.

Lemma fuel_free_count_consistent csp v xs acc :
  fuel_free (count_consistent csp v xs acc).
Proof. revert acc. induction xs as [|x xs IH]; intros acc; simpl; fuel_free_auto. Qed.

Hint Resolve fuel_free_count_consistent : fuel_free.

Lemma fuel_free_mcv_loop csp vars m cur : fuel_free (mcv_loop csp vars m cur).
Proof.
  revert m cur. induction vars as [|u vars IH]; intros m cur; simpl;
    fuel_free_auto.
Qed.

Hint Resolve fuel_free_mcv_loop : fuel_free.

Lemma fuel_free_get_unassigned_variable csp mcv :
  fuel_free (get_unassigned_variable csp mcv).
Proof. unfold get_unassigned_variable. destruct mcv; simpl; fuel_free_auto. Qed.

Lemma fuel_free_binary_support csp cur nb cvals x :
  fuel_free (binary_support csp cur nb cvals x).
Proof. unfold binary_support. fuel_free_auto. Qed.

Hint Resolve fuel_free_get_unassigned_variable fuel_free_binary_support
  : fuel_free.

Lemma fuel_free_revise_values csp cur nb nd xs dc q :
  fuel_free (revise_values csp cur nb nd xs dc q).
Proof.
  revert dc q. induction xs as [|x xs IH]; intros dc q; simpl; fuel_free_auto.
Qed.

Hint Resolve fuel_free_revise_values : fuel_free.

Lemma fuel_free_revise_neighbors csp cur nbs q last :
  fuel_free (revise_neighbors csp cur nbs q last).
Proof.
  revert q last. induction nbs as [|nb nbs IH]; intros q last; simpl;
    fuel_free_auto.
Qed.

Hint Resolve fuel_free_revise_neighbors : fuel_free.

Lemma fuel_free_while_body csp cur q last : fuel_free (while_body csp cur q last).
Proof. unfold while_body. fuel_free_auto. Qed.

Lemma fuel_free_record_solution csp : fuel_free (record_solution csp).
Proof.
  unfold record_solution. fuel_free_auto. generalize (@nil (var * val)).
  induction (variables csp) as [|u vars IH]; intros new; simpl; fuel_free_auto.
Qed.

Hint Resolve fuel_free_while_body fuel_free_record_solution : fuel_free.

(** *** The potential of the working domains *)

Lemma tri_mono n m : n ≤ m → tri n ≤ tri m.
Proof. induction 1; simpl; lia. Qed.

Lemma get_set_eq v ℓ (d : list (var * nat)) : Dict.get v (Dict.set v ℓ d) = Some ℓ.
Proof.
  induction d as [|[u ℓ'] d IH]; simpl.
  - by rewrite decide_True.
  - destruct (decide (v = u)) as [->|Hne]; simpl.
    + by rewrite decide_True.
    + by rewrite decide_False.
Qed.

Lemma set_same v ℓ (d : list (var * nat)) :
  Dict.get v d = Some ℓ → Dict.set v ℓ d = d.
Proof.
  induction d as [|[u ℓ'] d IH]; simpl; [done|].
  destruct (decide (v = u)) as [->|Hne].
  - by intros [= ->].
  - intros Hget. by rewrite IH.
Qed.

Lemma refs_allocated h d : allocated h d → refs (length h) d = 0.
Proof.
  induction d as [|[u ℓ] d IH]; simpl; [done|].
  intros [Hℓ Hd]%Forall_cons. simpl in Hℓ.
  rewrite decide_False by lia. by rewrite IH.
Qed.

Lemma refs_get ℓ0 v ℓ d : refs ℓ0 d = 0 → Dict.get v d = Some ℓ → ℓ ≠ ℓ0.
Proof.
  induction d as [|[u ℓ'] d IH]; simpl; [done|].
  destruct (decide (ℓ' = ℓ0)); [done|]. intros Hrefs. simpl in Hrefs.
  destruct (decide (v = u)); [by intros [= <-]|by apply IH].
Qed.

Lemma refs_set ℓ0 v ℓ d :
  refs ℓ0 d = 0 → Dict.get v d = Some ℓ → refs ℓ0 (Dict.set v ℓ0 d) = 1.
Proof.
  induction d as [|[u ℓ'] d IH]; simpl; [done|].
  destruct (decide (ℓ' = ℓ0)); [done|]. intros Hrefs. simpl in Hrefs.
  destruct (decide (v = u)) as [->|Hne]; simpl.
  - intros _. rewrite decide_True by done. by rewrite Hrefs.
  - intros Hget. rewrite decide_False by done. by rewrite IH.
Qed.

Lemma potential_ext h h' d :
  (∀ v ℓ, (v, ℓ) ∈ d → contents h' ℓ = contents h ℓ) →
  potential h' d = potential h d.
Proof.
  induction d as [|[u ℓ] d IH]; simpl; [done|]. intros Hext.
  rewrite (Hext u ℓ) by left. rewrite IH; [done|].
  intros v ℓ' Hin. apply (Hext v). by right.
Qed.

Lemma potential_alloc h l d :
  allocated h d → potential (h ++ [l]) d = potential h d.
Proof.
  intros Hal. apply potential_ext. intros v ℓ Hin.
  apply contents_prefix; [by apply prefix_app_r|].
  by apply (allocated_elem _ _ v _ Hal).
Qed.

Lemma potential_view h h' d d' :
  view h' d' = view h d → potential h' d' = potential h d.
Proof.
  revert d'. induction d as [|[u ℓ] d IH]; intros [|[u' ℓ'] d']; try done.
  rewrite !view_cons. intros [= _ Hc Hv]. simpl. rewrite Hc. by rewrite (IH d').
Qed.

Lemma potential_set h v ℓ ℓ' d :
  Dict.get v d = Some ℓ →
  potential h (Dict.set v ℓ' d) + tri (length (contents h ℓ))
  = potential h d + tri (length (contents h ℓ')).
Proof.
  induction d as [|[u ℓ0] d IH]; simpl; [done|].
  destruct (decide (v = u)) as [->|Hne]; simpl.
  - intros [= ->]. lia.
  - intros Hget. specialize (IH Hget). lia.
Qed.

Lemma potential_alter_unref h f ℓ0 d :
  refs ℓ0 d = 0 → potential (alter f ℓ0 h) d = potential h d.
Proof.
  induction d as [|[u ℓ] d IH]; simpl; [done|].
  destruct (decide (ℓ = ℓ0)) as [|Hne]; [done|]. intros Hrefs.
  simpl in Hrefs. rewrite IH by done. unfold contents. by rewrite list_lookup_alter_ne.
Qed.

Lemma contents_append h ℓ x :
  ℓ < length h →
  contents (alter (λ l, l ++ [x]) ℓ h) ℓ = contents h ℓ ++ [x].
Proof.
  intros Hlt. unfold contents. rewrite list_lookup_alter_eq.
  destruct (lookup_lt_is_Some_2 h ℓ Hlt) as [l ->]. done.
Qed.

Lemma potential_append h ℓ0 x d :
  ℓ0 < length h → refs ℓ0 d = 1 →
  potential (alter (λ l, l ++ [x]) ℓ0 h) d
  = potential h d + S (length (contents h ℓ0)).
Proof.
  intros Hlt. induction d as [|[u ℓ] d IH]; simpl; [done|].
  destruct (decide (ℓ = ℓ0)) as [->|Hne].
  - intros Hrefs. rewrite potential_alter_unref by lia.
    rewrite contents_append by done. rewrite length_app. simpl.
    rewrite Nat.add_1_r. simpl. lia.
  - intros Hrefs. rewrite IH by done. unfold contents at 1.
    rewrite list_lookup_alter_ne by done. fold (contents h ℓ). lia.
Qed.

(** *** The propagation stops *)

(** One iteration of the loop over the values of a neighbor, as a change of
    store: the value is appended or not, and once a value has been dropped
    the list being built is stored and the neighbor is queued. *)
Lemma revise_values_step csp cur nb nd x rest dc q s q' s' :
  revise_values csp cur nb nd (x :: rest) dc q s = (Ok q', s') →
  ∃ keep : bool,
    let s1 := if keep then after (append nd x) s else s in
    let dc' := if keep then dc else true in
    revise_values csp cur nb nd rest dc'
      (if dc' then q ++ [nb] else q)
      (if dc' then after (domains_store nb nd) s1 else s1)
    = (Ok q', s').
Proof.
  simpl. rewrite run_bind.
  pose proof (domains_lookup_preserves (@eq state) cur s) as Hst. simpl in Hst.
  destruct (domains_lookup cur s) as [[ℓc| |] s0]; simpl in Hst; subst s0;
    [|done..].
  rewrite run_bind. simpl. rewrite run_bind.
  pose proof (binary_support_preserves (@eq state) csp cur nb
                (contents (heap s) ℓc) x s) as Hst. simpl in Hst.
  destruct (binary_support csp cur nb _ x s) as [[b| |] s0]; simpl in Hst;
    subst s0; [|done..].
  rewrite run_bind.
  destruct (unary_support csp nb x && b); simpl.
  - intros Hrun. exists true. simpl. destruct dc; simpl.
    + by rewrite run_bind in Hrun.
    + done.
  - intros Hrun. exists false. simpl. by rewrite run_bind in Hrun.
Qed.

(** The measure of the loop over the values of a neighbor: the length of
    the queue plus the potential does not exceed [B] in the end, if it is
    within [B] now, counted with what the loop may still add. *)
Lemma revise_values_measure csp cur nb nd B xs (dc : bool) q s q' s' :
  nd < length (heap s) → domains_allocated s →
  (if dc then
     Dict.get nb (domains s) = Some nd ∧ refs nd (domains s) = 1 ∧
     length q + length xs + potential (heap s) (domains s)
     + tri (length (contents (heap s) nd) + length xs)
     ≤ B + tri (length (contents (heap s) nd))
   else
     refs nd (domains s) = 0 ∧
     (∃ ℓn, Dict.get nb (domains s) = Some ℓn ∧
            length (contents (heap s) ℓn)
            = length (contents (heap s) nd) + length xs) ∧
     length q + potential (heap s) (domains s) ≤ B) →
  revise_values csp cur nb nd xs dc q s = (Ok q', s') →
  length q' + potential (heap s') (domains s') ≤ B ∧
  domains_allocated s' ∧ length q ≤ length q'.
Proof.
  revert dc q s. induction xs as [|x xs IH]; intros dc q s Hnd Hal Hinv Hrun.
  { simpl in Hrun. injection Hrun as <- <-. split_and!; [|done..].
    destruct dc; [|by destruct Hinv as (_ & _ & ?)].
    destruct Hinv as (_ & _ & Hle). simpl in Hle.
    rewrite !Nat.add_0_r in Hle. lia. }
  apply revise_values_step in Hrun as (keep & Hrun). simpl in Hrun.
  set (a := length (contents (heap s) nd)) in *.
  destruct keep, dc; simpl in Hrun.
  - (* kept, a value was dropped before *)
    destruct Hinv as (Hget & Hrefs & Hle).
    apply IH in Hrun as (Hq & Hal' & Hlen).
    + split_and!; [done..|]. rewrite length_app in Hlen. simpl in Hlen. lia.
    + unfold after. simpl. by rewrite length_alter.
    + unfold after, domains_allocated, allocated. simpl.
      rewrite length_alter, set_same by done. done.
    + unfold after. simpl. rewrite set_same by done.
      rewrite contents_append, potential_append by done.
      rewrite !length_app. simpl. fold a.
      split_and!; [done..|].
      replace (a + 1 + length xs) with (a + S (length xs)) by lia.
      replace (a + 1) with (S a) by lia. simpl. simpl in Hle. lia.
  - (* kept, no value dropped so far *)
    destruct Hinv as (Hrefs & (ℓn & Hget & Hn) & Hle).
    apply IH in Hrun as (Hq & Hal' & Hlen); [done|..].
    + unfold after. simpl. by rewrite length_alter.
    + unfold after, domains_allocated, allocated. simpl.
      by rewrite length_alter.
    + unfold after. simpl. rewrite potential_alter_unref by done.
      split_and!; [done| |done]. exists ℓn. split; [done|].
      rewrite contents_append by done. rewrite length_app. simpl.
      unfold contents at 1. rewrite list_lookup_alter_ne.
      * fold (contents (heap s) ℓn). rewrite Hn. simpl. fold a. lia.
      * intros ->. by apply (refs_get _ _ _ _ Hrefs Hget).
  - (* dropped, not the first *)
    destruct Hinv as (Hget & Hrefs & Hle).
    apply IH in Hrun as (Hq & Hal' & Hlen).
    + split_and!; [done..|]. rewrite length_app in Hlen. simpl in Hlen. lia.
    + done.
    + unfold after, domains_allocated. simpl. by rewrite set_same.
    + unfold after. simpl. rewrite set_same by done. fold a.
      split_and!; [done..|]. rewrite length_app. simpl. simpl in Hle.
      pose proof (tri_mono (a + length xs) (a + S (length xs))). lia.
  - (* the first value dropped *)
    destruct Hinv as (Hrefs & (ℓn & Hget & Hn) & Hle).
    apply IH in Hrun as (Hq & Hal' & Hlen).
    + split_and!; [done..|]. rewrite length_app in Hlen. simpl in Hlen. lia.
    + done.
    + unfold after, domains_allocated. simpl. by apply allocated_set.
    + unfold after. simpl. fold a.
      split_and!; [apply get_set_eq|by eapply refs_set|].
      pose proof (potential_set (heap s) nb ℓn nd (domains s) Hget) as Hpot.
      rewrite Hn in Hpot. fold a in Hpot. simpl in Hpot.
      replace (a + S (length xs)) with (S (a + length xs)) in Hpot by lia.
      simpl in Hpot. rewrite length_app. simpl. lia.
Qed.

Lemma revise_neighbors_measure csp cur nbs q last s q' last' s' :
  domains_allocated s →
  revise_neighbors csp cur nbs q last s = (Ok (q', last'), s') →
  length q' + potential (heap s') (domains s')
  ≤ length q + potential (heap s) (domains s) ∧
  domains_allocated s' ∧ length q ≤ length q'.
Proof.
  revert q last s. induction nbs as [|nb nbs IH]; intros q last s Hal Hrun.
  { simpl in Hrun. injection Hrun as <- _ <-. by split_and!. }
  simpl in Hrun. rewrite run_bind in Hrun. simpl in Hrun.
  set (s1 := set_heap _ s) in Hrun. rewrite run_bind in Hrun.
  pose proof (domains_lookup_preserves (@eq state) nb s1) as Hst.
  simpl in Hst.
  destruct (domains_lookup nb s1) as [[ℓn| |] s0] eqn:Hlook; simpl in Hst;
    subst s0; [|done..].
  rewrite run_bind in Hrun. simpl in Hrun. rewrite run_bind in Hrun.
  destruct (revise_values csp cur nb (length (heap s)) _ false q s1)
    as [[q1| |] s2] eqn:Hvals; [|done..].
  assert (domains_allocated s1) as Hal1.
  { unfold domains_allocated. simpl. eapply allocated_mono; [|exact Hal].
    rewrite length_app. lia. }
  assert (contents (heap s1) (length (heap s)) = []) as Hnew.
  { unfold contents. simpl. by rewrite list_lookup_middle. }
  apply (revise_values_measure _ _ _ _
           (length q + potential (heap s) (domains s))) in Hvals
    as (Hq1 & Hal2 & Hlen1); [|simpl; rewrite length_app; simpl; lia|done|].
  - apply IH in Hrun as (Hq' & Hal' & Hlen'); [|done]. split_and!; [|done|]; lia.
  - rewrite Hnew. simpl. split_and!.
    + by apply refs_allocated.
    + exists ℓn. split; [|done]. unfold domains_lookup in Hlook.
      rewrite run_bind in Hlook. simpl in Hlook.
      destruct (Dict.get nb (domains s)) as [ℓ|]; [|done].
      by injection Hlook as ->.
    + by rewrite potential_alloc.
Qed.

Lemma while_body_measure csp cur q last s r s' :
  domains_allocated s →
  while_body csp cur q last s = (Ok r, s') →
  domains_allocated s' ∧
  potential (heap s') (domains s') ≤ potential (heap s) (domains s) ∧
  match r with
  | Continue q' _ =>
      length q' + potential (heap s') (domains s')
      ≤ length q + potential (heap s) (domains s)
  | Return _ => True
  end.
Proof.
  intros Hal. unfold while_body. rewrite run_bind.
  destruct (revise_neighbors csp cur _ q last s) as [[[q1 last1]| |] s1] eqn:Hnb;
    [|done..].
  apply revise_neighbors_measure in Hnb as (Hq1 & Hal1 & Hlen1); [|done].
  destruct last1 as [nb|]; [|done]. rewrite run_bind.
  pose proof (domains_lookup_preserves (@eq state) nb s1) as Hst.
  simpl in Hst.
  destruct (domains_lookup nb s1) as [[ℓ| |] s0]; simpl in Hst; subst s0;
    [|done..].
  rewrite run_bind. simpl.
  destruct (contents (heap s1) ℓ); intros [= <- <-]; split_and!;
    try done; lia.
Qed.

(** The [while] loop of the propagation stops within as many iterations as
    the length of the queue plus the potential of the working domains, and
    it does not raise the potential. *)
Lemma ac3_while_terminates csp gas q last s :
  domains_allocated s →
  length q + potential (heap s) (domains s) < gas →
  (ac3_while csp gas q last s).1 ≠ OutOfFuel ∧
  ∀ b s', ac3_while csp gas q last s = (Ok b, s') →
          domains_allocated s' ∧
          potential (heap s') (domains s') ≤ potential (heap s) (domains s).
Proof.
  revert q last s. induction gas as [|gas IH]; intros q last s Hal Hgas;
    [lia|].
  destruct q as [|cur q]; simpl.
  { split; [done|]. by intros b s' [= _ <-]. }
  rewrite run_bind.
  pose proof (fuel_free_while_body csp cur q last s) as Hfree.
  destruct (while_body csp cur q last s) as [[r| |] s1] eqn:Hbody;
    [|split; done..].
  apply while_body_measure in Hbody as (Hal1 & Hpot & Hr); [|done].
  destruct r as [b|q1 last1].
  - split; [done|]. by intros b' s' [= _ <-].
  - simpl in Hgas. destruct (IH q1 last1 s1) as [Hne Hok]; [done|lia|].
    split; [done|]. intros b s' Hrun.
    destruct (Hok b s' Hrun) as [Hal' Hpot']. split; [done|lia].
Qed.

Lemma arc_consistency_check_terminates csp gas v s :
  domains_allocated s →
  S (potential (heap s) (domains s)) < gas →
  (arc_consistency_check csp gas v s).1 ≠ OutOfFuel ∧
  ∀ b s', arc_consistency_check csp gas v s = (Ok b, s') →
          domains_allocated s' ∧
          potential (heap s') (domains s') ≤ potential (heap s) (domains s).
Proof. intros Hal Hgas. by apply ac3_while_terminates. Qed.

(** *** The search stops *)

#[local] Instance restored_po : PreOrder restored.
Proof.
  split.
  - by intros s Hs.
  - intros s1 s2 s3 H1 H2 Hs. destruct (H1 Hs) as [Hv Hal].
    destruct (H2 Hal) as [Hv' Hal']. split; [congruence|done].
Qed.

Hint Resolve restored_po : preserves.

Lemma modify_restored (f : state → state) :
  (∀ s, heap (f s) = heap s ∧ domains (f s) = domains s) →
  preserves restored (modify f).
Proof.
  intros Hf s Hs. unfold dom_view, domains_allocated. simpl.
  destruct (Hf s) as [-> ->]. done.
Qed.

Lemma record_solution_restored csp : preserves restored (record_solution csp).
Proof.
  unfold record_solution. preserves_auto; try (by apply modify_restored).
  generalize (@nil (var * val)). induction (variables csp) as [|u vars IH];
    intros new; simpl; preserves_auto.
Qed.

Lemma unbind_restored v : preserves restored (unbind v).
Proof. unfold unbind. preserves_auto. by apply modify_restored. Qed.

Lemma try_value_restored csp (recurse : M unit) v x :
  preserves_ok restored recurse →
  preserves_ok restored (try_value csp recurse v x).
Proof.
  intros Hrec. unfold try_value.
  apply preserves_ok_bind; [typeclasses eauto|apply preserves_ok_of; preserves_auto|].
  intros [];
    [|apply preserves_ok_of, preserves_ret; typeclasses eauto].
  apply preserves_ok_bind;
    [typeclasses eauto|by apply preserves_ok_of, modify_restored|].
  intros _. apply preserves_ok_bind; [typeclasses eauto|done|].
  intros _. apply preserves_ok_of, unbind_restored.
Qed.

Lemma try_value_ac3_restored csp gas (recurse : M unit) v x :
  preserves heap_le recurse → preserves_ok same_assignment recurse →
  preserves_ok restored (try_value_ac3 csp gas recurse v x).
Proof.
  intros Hle Hrec s [] s' Hrun Hal.
  by destruct (try_value_ac3_restores csp gas recurse v x s s' Hle Hrec Hal Hrun)
    as (_ & ? & ?).
Qed.

(** A call of [backtrack] that returns leaves the working domains with the
    values they had. *)
Lemma backtrack_restored csp mcv ac3 gas fuel :
  preserves_ok restored (backtrack csp mcv ac3 gas fuel).
Proof.
  induction fuel as [|fuel IH]; [by intros s r s'|]. simpl.
  apply preserves_ok_bind; [typeclasses eauto|apply preserves_ok_of; preserves_auto|].
  intros ops.
  apply preserves_ok_bind;
    [typeclasses eauto|by apply preserves_ok_of, modify_restored|].
  intros _.
  apply preserves_ok_bind; [typeclasses eauto|apply preserves_ok_of; preserves_auto|].
  intros a. destruct (_ =? _).
  { apply preserves_ok_of, record_solution_restored. }
  apply preserves_ok_bind; [typeclasses eauto|apply preserves_ok_of; preserves_auto|].
  intros [v|]; [|by intros s r s'].
  apply preserves_ok_bind; [typeclasses eauto|apply preserves_ok_of; preserves_auto|].
  intros ℓ.
  apply preserves_ok_bind; [typeclasses eauto|apply preserves_ok_of; preserves_auto|].
  intros xs.
  destruct (negb ac3); (apply preserves_ok_for_each; [typeclasses eauto|]);
    intros y.
  - by apply try_value_restored.
  - apply try_value_ac3_restored;
      [apply backtrack_heap_le|apply backtrack_same_assignment].
Qed.

Lemma for_each_terminates {A} (J : state → Prop) (xs : list A)
    (body : A → M unit) s :
  (∀ y s, J s → (body y s).1 ≠ OutOfFuel ∧
                ∀ s', body y s = (Ok tt, s') → J s') →
  J s → (for_each xs body s).1 ≠ OutOfFuel.
Proof.
  intros Hbody. revert s. induction xs as [|y xs IH]; intros s HJ; [done|].
  simpl. rewrite run_bind. destruct (Hbody y s HJ) as [Hne Hok].
  destruct (body y s) as [[[]| |] s1]; simpl in *; [|done..].
  apply IH. by apply Hok.
Qed.

Lemma keys_length_le a (l : list var) :
  NoDup (Dict.keys a) → Dict.keys a ⊆ l → length (Dict.keys a) ≤ length l.
Proof. intros Hnd Hsub. by apply submseteq_length, NoDup_submseteq. Qed.

Lemma potential_set_le h v ℓ d :
  potential h (Dict.set v ℓ d) ≤ potential h d + tri (length (contents h ℓ)).
Proof.
  induction d as [|[u ℓ0] d IH]; simpl; [lia|].
  destruct (decide (v = u)); simpl; lia.
Qed.

Lemma try_value_terminates csp (recurse : M unit) v x s :
  ((check_factors csp v x s).1 = Ok true →
   (recurse (after (bind_value v x) s)).1 ≠ OutOfFuel) →
  (try_value csp recurse v x s).1 ≠ OutOfFuel.
Proof.
  intros Hrec. unfold try_value. rewrite run_bind.
  pose proof (check_factors_state csp v x s) as Hst.
  destruct (check_factors csp v x s) as [[[]| |] s0] eqn:Hcheck;
    simpl in *; subst s0; try done.
  - rewrite run_bind. simpl. rewrite run_bind. specialize (Hrec eq_refl).
    unfold after in Hrec. simpl in Hrec.
    destruct (recurse _) as [[[]| |] s1]; simpl in *; [|done..].
    apply fuel_free_unbind.
  - rewrite check_factors_run in Hcheck; [done|].
    destruct (Dict.mem v (assignment s)) eqn:Hm; [|done].
    by rewrite check_factors_assigned in Hcheck.
Qed.

Lemma try_value_ac3_terminates csp gas (recurse : M unit) v x s :
  domains_allocated s →
  potential (heap s) (domains s) + 2 < gas →
  (∀ s4, domains_allocated s4 →
         potential (heap s4) (domains s4) ≤ potential (heap s) (domains s) + 1 →
         assignment s4 = Dict.set v x (assignment s) →
         (check_factors csp v x s).1 = Ok true →
         (recurse s4).1 ≠ OutOfFuel) →
  (try_value_ac3 csp gas recurse v x s).1 ≠ OutOfFuel.
Proof.
  intros Hal Hgas Hrec. unfold try_value_ac3. rewrite run_bind.
  pose proof (check_factors_state csp v x s) as Hst.
  destruct (check_factors csp v x s) as [[[]| |] s0] eqn:Hcheck;
    simpl in *; subst s0; try done.
  2: { rewrite check_factors_run in Hcheck; [done|].
       destruct (Dict.mem v (assignment s)) eqn:Hm; [|done].
       by rewrite check_factors_assigned in Hcheck. }
  rewrite run_bind. simpl. rewrite run_bind.
  set (s1 := set_assignment _ s).
  destruct (deepcopy_domains_spec s1 Hal) as (lc & h' & -> & Hpre & _ & Hlc).
  rewrite run_bind. simpl. rewrite run_bind. simpl.
  set (s3 := set_domains _ _).
  assert (domains_allocated s3) as Hal3.
  { unfold domains_allocated. simpl.
    apply allocated_set; [|rewrite length_app; simpl; lia].
    eapply allocated_mono; [|exact Hal].
    apply prefix_length in Hpre. rewrite length_app. simpl in *. lia. }
  assert (potential (heap s3) (domains s3)
          ≤ potential (heap s) (domains s) + 1) as Hpot3.
  { simpl. etransitivity; [apply potential_set_le|].
    assert (contents (h' ++ [[x]]) (length h') = [x]) as ->.
    { unfold contents. by rewrite list_lookup_middle. }
    simpl. rewrite (potential_ext (heap s) (h' ++ [[x]])); [lia|].
    intros u ℓ Hin. apply contents_prefix.
    - etransitivity; [exact Hpre|]. by apply prefix_app_r.
    - by apply (allocated_elem _ _ u _ Hal). }
  destruct (arc_consistency_check_terminates csp gas v s3) as [Hne Hok];
    [done|lia|].
  rewrite run_bind.
  pose proof (arc_consistency_check_same_results csp gas v s3) as (Ha & _).
  destruct (arc_consistency_check csp gas v s3) as [[succeed| |] s4] eqn:Harc;
    simpl in *; [|done..].
  destruct (Hok succeed s4 eq_refl) as [Hal4 Hpot4].
  rewrite run_bind.
  assert (((if succeed then recurse else mret ()) s4).1 ≠ OutOfFuel) as Hr.
  { destruct succeed; [|done]. apply Hrec; [done|lia|done..]. }
  destruct ((if succeed then recurse else mret ()) s4) as [[[]| |] s5];
    simpl in *; [|done..].
  rewrite run_bind. simpl. apply fuel_free_unbind.
Qed.

(** A call of [backtrack] does not exhaust its fuel when the depth it may
    use exceeds the number of variables left to assign, and the bound on
    the iterations of a propagation exceeds the potential of the working
    domains by more than that number. *)
Lemma backtrack_terminates csp mcv ac3 gas fuel s :
  domains_allocated s →
  NoDup (Dict.keys (assignment s)) →
  Dict.keys (assignment s) ⊆ variables csp →
  potential (heap s) (domains s)
  + (length (variables csp) - length (Dict.keys (assignment s))) + 1 < gas →
  length (variables csp) < fuel + length (Dict.keys (assignment s)) →
  (backtrack csp mcv ac3 gas fuel s).1 ≠ OutOfFuel.
Proof.
  revert s. induction fuel as [|fuel IH]; intros s Hal Hnd Hsub Hgas Hfuel.
  { pose proof (keys_length_le _ _ Hnd Hsub). lia. }
  simpl. rewrite run_bind. simpl. rewrite run_bind. simpl.
  rewrite run_bind. simpl.
  set (s1 := set_num_operations _ s).
  destruct (Nat.eqb_spec (length (Dict.keys (assignment s))) (vars_num csp))
    as [Hlen|Hlen]; [apply fuel_free_record_solution|].
  pose proof (keys_length_le _ _ Hnd Hsub) as Hle. unfold vars_num in Hlen.
  rewrite run_bind.
  pose proof (get_unassigned_variable_returns csp mcv s1) as Hret.
  pose proof (get_unassigned_variable_preserves (@eq state) csp mcv s1) as Hst.
  pose proof (fuel_free_get_unassigned_variable csp mcv s1) as Hfree.
  destruct (get_unassigned_variable csp mcv s1) as [[[v|]| |] s0];
    simpl in Hst, Hfree; subst s0; try done.
  specialize (Hret _ _ eq_refl v eq_refl).
  rewrite run_bind.
  pose proof (domains_lookup_preserves (@eq state) v s1) as Hst.
  pose proof (fuel_free_domains_lookup v s1) as Hfree'.
  destruct (domains_lookup v s1) as [[ℓ| |] s0]; simpl in Hst, Hfree';
    subst s0; try done.
  rewrite run_bind. simpl.
  set (J := λ s', domains_allocated s' ∧ assignment s' = assignment s ∧
                  dom_view s' = dom_view s).
  assert (J s1) as HJ by done.
  assert (∀ s', J s' →
            potential (heap s') (domains s') = potential (heap s) (domains s))
    as Hpot.
  { intros s' (_ & _ & Hv). by apply potential_view. }
  destruct (negb ac3); apply (for_each_terminates J); try done.
  - intros y s' HJ'. pose proof HJ' as (Hal' & Ha' & Hv'). split.
    + apply try_value_terminates. intros Hcheck.
      apply check_factors_true_fresh in Hcheck. rewrite Ha' in Hcheck.
      apply IH; unfold after; simpl; rewrite Ha'.
      * done.
      * by apply NoDup_keys_set.
      * by apply keys_set_incl.
      * rewrite keys_set_fresh, length_app by done. simpl.
        fold (potential (heap s') (domains s')). rewrite (Hpot s' HJ'). lia.
      * rewrite keys_set_fresh, length_app by done. simpl. lia.
    + intros s'' Hrun. split_and!.
      * by eapply (try_value_restored _ _ _ _
                     (backtrack_restored csp mcv ac3 gas fuel) _ _ _ Hrun).
      * rewrite <- Ha'.
        by eapply (try_value_same_assignment _ _ _ _
                     (backtrack_same_assignment csp mcv ac3 gas fuel)).
      * rewrite <- Hv'.
        by eapply (try_value_restored _ _ _ _
                     (backtrack_restored csp mcv ac3 gas fuel) _ _ _ Hrun).
  - intros y s' HJ'. pose proof HJ' as (Hal' & Ha' & Hv'). split.
    + apply try_value_ac3_terminates; [done|rewrite (Hpot s' HJ'); lia|].
      intros s4 Hal4 Hpot4 Ha4 Hcheck.
      apply check_factors_true_fresh in Hcheck. rewrite Ha' in Hcheck.
      rewrite Ha' in Ha4. rewrite (Hpot s' HJ') in Hpot4.
      apply IH; rewrite ?Ha4.
      * done.
      * by apply NoDup_keys_set.
      * by apply keys_set_incl.
      * rewrite keys_set_fresh, length_app by done. simpl. lia.
      * rewrite keys_set_fresh, length_app by done. simpl. lia.
    + intros s'' Hrun.
      destruct (try_value_ac3_restores csp gas _ v y s' s''
                  (backtrack_heap_le csp mcv ac3 gas fuel)
                  (backtrack_same_assignment csp mcv ac3 gas fuel) Hal' Hrun)
        as (Ha'' & Hv'' & Hal'').
      split_and!; [done|congruence..].
Qed.

(** [solve] stops: from some fuel on it never runs out of fuel, so it
    returns or raises. *)
Lemma solve_terminates csp mcv ac3 s :
  ∃ N, ∀ fuel, N ≤ fuel → (solve fuel csp mcv ac3 s).1 ≠ OutOfFuel.
Proof.
  unfold solve, solve_body, reset_results.
  set (s0 := set_all_assignments []
               (set_first 0 (set_num_operations 0 (set_num_assignments 0 s)))).
  destruct (init_domains_allocated csp (variables csp) [] s0)
    as (d & s1 & Hinit & Hal); [apply Forall_nil_2|].
  exists (potential (heap s1) d + length (variables csp) + 2).
  intros fuel Hfuel. rewrite run_bind. simpl. fold s0.
  rewrite run_bind, Hinit. rewrite run_bind. simpl. rewrite run_bind. simpl.
  apply backtrack_terminates; simpl.
  - done.
  - apply NoDup_nil_2.
  - apply list_subseteq_nil.
  - lia.
  - lia.
Qed.

(** ** Every declared variable has a working domain *)

Lemma get_set_is_Some u v ℓ (d : list (var * nat)) :
  is_Some (Dict.get u d) → is_Some (Dict.get u (Dict.set v ℓ d)).
Proof.
  induction d as [|[w ℓ'] d IH]; simpl; [by intros []|].
  destruct (decide (v = w)) as [->|Hne]; simpl.
  - by destruct (decide (u = w)).
  - destruct (decide (u = w)); [done|apply IH].
Qed.

Lemma view_get h v d : Dict.get v (view h d) = contents h <$> Dict.get v d.
Proof.
  induction d as [|[u ℓ] d IH]; [done|]. rewrite view_cons. simpl.
  by destruct (decide (v = u)).
Qed.

Lemma domains_store_keeps_covered csp v ℓ :
  preserves (keeps (domains_covered csp)) (domains_store v ℓ).
Proof. intros s Hs u Hu. simpl. by apply get_set_is_Some, Hs. Qed.

Lemma modify_keeps_covered csp (f : state → state) :
  (∀ s, domains (f s) = domains s) →
  preserves (keeps (domains_covered csp)) (modify f).
Proof. intros Hf s Hs u Hu. simpl. rewrite Hf. by apply Hs. Qed.

Lemma alloc_keeps_covered csp l :
  preserves (keeps (domains_covered csp)) (alloc l).
Proof. by intros s Hs. Qed.

Lemma append_keeps_covered csp ℓ x :
  preserves (keeps (domains_covered csp)) (append ℓ x).
Proof. by intros s Hs. Qed.

Hint Resolve domains_store_keeps_covered alloc_keeps_covered
  append_keeps_covered : preserves.

Lemma arc_consistency_check_keeps_covered csp gas v :
  preserves (keeps (domains_covered csp)) (arc_consistency_check csp gas v).
Proof.
  assert (∀ cur nb nd xs dc q,
            preserves (keeps (domains_covered csp))
              (revise_values csp cur nb nd xs dc q)) as Hvals.
  { intros cur nb nd xs. induction xs as [|x xs IH]; intros dc q; simpl;
      preserves_auto. }
  assert (∀ cur nbs q last,
            preserves (keeps (domains_covered csp))
              (revise_neighbors csp cur nbs q last)) as Hnbs.
  { intros cur nbs. induction nbs as [|nb nbs IH]; intros q last; simpl;
      preserves_auto. }
  unfold arc_consistency_check. generalize (@None var), [v].
  induction gas as [|gas IH]; intros last q; simpl; preserves_auto.
  unfold while_body. preserves_auto.
Qed.

Lemma unbind_keeps_covered csp v :
  preserves (keeps (domains_covered csp)) (unbind v).
Proof. unfold unbind. preserves_auto. by apply modify_keeps_covered. Qed.

Lemma try_value_keeps_covered csp (recurse : M unit) v x :
  preserves (keeps (domains_covered csp)) recurse →
  preserves (keeps (domains_covered csp)) (try_value csp recurse v x).
Proof.
  intros Hrec. unfold try_value. preserves_auto.
  - by apply modify_keeps_covered.
  - apply unbind_keeps_covered.
Qed.

Lemma deepcopy_items_keys memo items s :
  ∃ lc s', deepcopy_items memo items s = (Ok lc, s') ∧
           Dict.keys lc = Dict.keys items ∧ domains s' = domains s.
Proof.
  revert memo s. induction items as [|[v ℓ] items IH]; intros memo s; simpl.
  - by eexists _, _.
  - destruct (Dict.get ℓ memo) as [ℓ'|].
    + destruct (IH memo s) as (lc & s' & Hrun & Hk & Hd).
      rewrite run_bind, Hrun. eexists _, _. split; [done|].
      split; [|done]. unfold Dict.keys in *. simpl. f_equal. exact Hk.
    + rewrite run_bind. simpl. rewrite run_bind. simpl.
      edestruct IH as (lc & s' & Hrun & Hk & Hd). rewrite run_bind, Hrun.
      eexists _, _. split; [done|]. split; [|by rewrite Hd].
      unfold Dict.keys in *. simpl. f_equal. exact Hk.
Qed.

Lemma try_value_ac3_keeps_covered csp gas (recurse : M unit) v x :
  preserves (keeps (domains_covered csp)) recurse →
  preserves (keeps (domains_covered csp)) (try_value_ac3 csp gas recurse v x).
Proof.
  intros Hrec s Hcov. unfold try_value_ac3. rewrite run_bind.
  pose proof (check_factors_state csp v x s) as Hst.
  destruct (check_factors csp v x s) as [[[]| |] s0]; simpl in *; subst s0;
    try done.
  rewrite run_bind. simpl. rewrite run_bind.
  unfold deepcopy_domains. rewrite run_bind. simpl.
  destruct (deepcopy_items_keys [] (domains s)
              (set_assignment (Dict.set v x (assignment s)) s))
    as (lc & s2 & -> & Hk & Hd).
  simpl in Hd.
  assert (domains_covered csp s2) as Hcov2.
  { intros u Hu. rewrite Hd. by apply Hcov. }
  rewrite run_bind. simpl. rewrite run_bind. simpl. rewrite run_bind.
  set (s3 := set_domains _ _).
  assert (domains_covered csp s3) as Hcov3.
  { intros u Hu. simpl. by apply get_set_is_Some, Hcov2. }
  pose proof (arc_consistency_check_keeps_covered csp gas v s3 Hcov3) as Harc.
  destruct (arc_consistency_check csp gas v s3) as [[succeed| |] s4];
    simpl in Harc; [|done..].
  rewrite run_bind.
  assert (domains_covered csp ((if succeed then recurse else mret ()) s4).2)
    as Hcov5.
  { destruct succeed; [by apply Hrec|done]. }
  destruct ((if succeed then recurse else mret ()) s4) as [[[]| |] s5];
    simpl in *; [|done..].
  rewrite run_bind. simpl. apply unbind_keeps_covered.
  intros u Hu. simpl. specialize (Hcov u Hu).
  destruct (Dict.get u lc) eqn:Hget; [done|].
  apply get_None_keys in Hget. rewrite Hk in Hget.
  apply get_None_keys in Hget. rewrite Hget in Hcov. by destruct Hcov.
Qed.

Lemma record_solution_keeps_covered csp :
  preserves (keeps (domains_covered csp)) (record_solution csp).
Proof.
  unfold record_solution. preserves_auto;
    try (by apply modify_keeps_covered).
  generalize (@nil (var * val)). induction (variables csp) as [|u vars IH];
    intros new; simpl; preserves_auto.
Qed.

(** Every call of [backtrack] keeps an entry in [self.domains] for every
    declared variable, in every outcome. *)
Lemma backtrack_keeps_covered csp mcv ac3 gas fuel :
  preserves (keeps (domains_covered csp)) (backtrack csp mcv ac3 gas fuel).
Proof.
  induction fuel as [|fuel IH]; simpl; preserves_auto;
    try (by apply modify_keeps_covered);
    try apply record_solution_keeps_covered;
    (apply preserves_for_each; [typeclasses eauto|]); intros y.
  - by apply try_value_keeps_covered.
  - by apply try_value_ac3_keeps_covered.
Qed.

Lemma init_domains_covered csp vars d s (l : list var) :
  (∀ u, u ∈ l → is_Some (Dict.get u d)) →
  ∃ d' s', init_domains csp vars d s = (Ok d', s') ∧
           ∀ u, u ∈ l ++ vars → is_Some (Dict.get u d').
Proof.
  revert d s l. induction vars as [|w vars IH]; intros d s l Hl; simpl.
  - exists d, s. split; [done|]. intros u Hu. rewrite app_nil_r in Hu. auto.
  - rewrite run_bind. simpl. rewrite run_bind. simpl.
    edestruct (IH (Dict.set w (length (heap s)) d) 
                 (set_heap (heap s ++ [contents (heap s) (values csp w)]) s)
                 (l ++ [w])) as (d' & s' & Hrun & Hcov).
    + intros u Hu. apply elem_of_app in Hu as [Hu|Hu].
      * by apply get_set_is_Some, Hl.
      * apply list_elem_of_singleton in Hu. subst u.
        rewrite get_set_eq. by eexists.
    + exists d', s'. split; [done|]. intros u Hu. apply Hcov.
      by rewrite <- app_assoc.
Qed.

(** The working domains cover the declared variables when [solve] stops,
    and so they do in every store the search passes through. *)
Lemma solve_covered fuel csp mcv ac3 s :
  domains_covered csp (solve fuel csp mcv ac3 s).2.
Proof.
  unfold solve, solve_body, reset_results. rewrite run_bind. simpl.
  set (s0 := set_all_assignments _ _).
  destruct (init_domains_covered csp (variables csp) [] s0 [])
    as (d & s1 & Hinit & Hcov).
  { intros u Hu. by apply elem_of_nil in Hu. }
  rewrite run_bind, Hinit. rewrite run_bind. simpl. rewrite run_bind. simpl.
  by apply backtrack_keeps_covered.
Qed.

(** ** A variable without neighbors *)

Lemma deepcopy_items_ok memo items s :
  ∃ lc s', deepcopy_items memo items s = (Ok lc, s').
Proof.
  revert memo s. induction items as [|[v ℓ] items IH]; intros memo s; simpl.
  - by eexists _, _.
  - destruct (Dict.get ℓ memo) as [ℓ'|].
    + destruct (IH memo s) as (lc & s' & Hrun). rewrite run_bind, Hrun.
      by eexists _, _.
    + rewrite run_bind. simpl. rewrite run_bind. simpl.
      edestruct IH as (lc & s' & Hrun). rewrite run_bind, Hrun.
      by eexists _, _.
Qed.

(** Propagation from a variable without neighbors reads the loop variable
    [neighbor_var] while it is unbound. *)
Lemma arc_consistency_check_no_neighbors csp gas v s :
  get_neighbor_vars csp v = [] →
  arc_consistency_check csp (S gas) v s = (Raise NameError, s).
Proof.
  intros Hnb. unfold arc_consistency_check. simpl. rewrite run_bind.
  unfold while_body. rewrite Hnb. simpl. done.
Qed.

(** The tentative assignment of a variable without neighbors raises. *)
Lemma try_value_ac3_no_neighbors csp gas (recurse : M unit) v x s :
  get_neighbor_vars csp v = [] →
  (check_factors csp v x s).1 = Ok true →
  (try_value_ac3 csp (S gas) recurse v x s).1 = Raise NameError.
Proof.
  intros Hnb Hcheck. unfold try_value_ac3. rewrite run_bind.
  pose proof (check_factors_state csp v x s) as Hst.
  destruct (check_factors csp v x s) as [[[]| |] s0]; simpl in *; try done.
  subst s0. rewrite run_bind. simpl. rewrite run_bind.
  unfold deepcopy_domains. rewrite run_bind. simpl.
  edestruct deepcopy_items_ok as (lc & s2 & ->).
  rewrite run_bind. simpl. rewrite run_bind. simpl. rewrite run_bind.
  by rewrite arc_consistency_check_no_neighbors.
Qed.

(** The loop of "problem d" over the values of an unassigned variable
    without neighbors raises at the first value [check_factors] accepts. *)
Lemma for_each_no_neighbors csp gas (recurse : M unit) v xs s :
  get_neighbor_vars csp v = [] →
  Dict.mem v (assignment s) = false →
  (∃ x, x ∈ xs ∧ (check_factors csp v x s).1 = Ok true) →
  (for_each xs (try_value_ac3 csp (S gas) recurse v) s).1 = Raise NameError.
Proof.
  intros Hnb Hm. induction xs as [|y xs IH]; intros (x & Hin & Hcheck).
  { by apply elem_of_nil in Hin. }
  simpl. rewrite run_bind.
  destruct (check_factors csp v y s) as [[[]| |] s0] eqn:Hy.
  - pose proof (try_value_ac3_no_neighbors csp gas recurse v y s Hnb) as Hr.
    rewrite Hy in Hr. specialize (Hr eq_refl).
    destruct (try_value_ac3 _ _ _ _ y s) as [[[]| |] s1]; simpl in *; congruence.
  - assert (try_value_ac3 csp (S gas) recurse v y s = (Ok tt, s)) as ->.
    { unfold try_value_ac3. rewrite run_bind, Hy.
      pose proof (check_factors_state csp v y s) as Hst.
      rewrite Hy in Hst. simpl in Hst. by subst. }
    apply IH. apply elem_of_cons in Hin as [->|Hin]; [|by exists x].
    rewrite Hy in Hcheck. done.
  - rewrite (check_factors_run _ _ _ _ Hm) in Hy. done.
  - rewrite (check_factors_run _ _ _ _ Hm) in Hy. done.
Qed.

Lemma domains_lookup_run v ℓ s :
  Dict.get v (domains s) = Some ℓ → domains_lookup v s = (Ok ℓ, s).
Proof. intros Hget. unfold domains_lookup. rewrite run_bind. simpl. by rewrite Hget. Qed.

Lemma get_unassigned_variable_single csp mcv v s :
  variables csp = [v] → Dict.mem v (assignment s) = false →
  is_Some (Dict.get v (domains s)) →
  get_unassigned_variable csp mcv s = (Ok (Some v), s).
Proof.
  intros Hvars Hm Hdom. unfold get_unassigned_variable. rewrite Hvars.
  destruct mcv; cbn [negb].
  - rewrite run_bind, mcv_loop_run.
    + simpl. by rewrite Hm.
    + intros u Hu _. apply list_elem_of_singleton in Hu. by subst.
  - rewrite run_bind. simpl. by rewrite Hm.
Qed.

(** On a CSP of one variable [solve] with propagation raises as soon as
    the declared domain has a value the unary factor accepts. *)
Lemma solve_single_variable csp mcv fuel v s :
  variables csp = [v] → get_neighbor_vars csp v = [] →
  (∃ x, x ∈ contents (heap s) (values csp v) ∧ unary_support csp v x = true) →
  (solve (S fuel) csp mcv true s).1 = Raise NameError.
Proof.
  intros Hvars Hnb Hex. unfold solve, solve_body, reset_results.
  rewrite run_bind. simpl. rewrite Hvars. simpl.
  rewrite run_bind. simpl. rewrite run_bind. simpl.
  unfold vars_num. rewrite Hvars. simpl.
  do 4 (rewrite run_bind; simpl).
  set (s1 := set_num_operations _ _).
  rewrite run_bind, (get_unassigned_variable_single csp mcv v s1); [|done..|].
  2: { simpl. rewrite decide_True by done. by eexists. }
  rewrite run_bind, (domains_lookup_run v (length (heap s)) s1).
  2: { simpl. by rewrite decide_True. }
  rewrite run_bind. simpl.
  apply for_each_no_neighbors; [done..|].
  destruct Hex as (x & Hin & Hun). exists x. split.
  - unfold contents. by rewrite list_lookup_middle.
  - rewrite check_factors_run by done. simpl. rewrite Hun.
    unfold get_neighbor_vars, Dict.keys in Hnb.
    apply fmap_nil_inv in Hnb. by rewrite Hnb.
Qed.

(** C4: on a variable [v] without an entry in the assignment,
    [check_factors] returns (it does not raise) and leaves the whole store
    as it was: the assignment, the domains, and the list objects, those of
    the CSP included.  It returns [False] when the unary factor of [v]
    exists and weighs [x] zero; otherwise [False] when some neighbor bound
    in the assignment has a zero binary weight with [x]; and [True] exactly
    when neither check rejects. *)
Theorem check_factors_correct csp s v x :
  Dict.get v (assignment s) = None →
  ∃ b, check_factors csp v x s = (Ok b, s) ∧
       (unary_rejects csp v x → b = false) ∧
       (¬ unary_rejects csp v x →
        binary_rejects csp (assignment s) v x → b = false) ∧
       (b = true ↔
        ¬ unary_rejects csp v x ∧ ¬ binary_rejects csp (assignment s) v x).
Proof.
  intros Hget.
  assert (Dict.mem v (assignment s) = false) as Hm.
  { unfold Dict.mem. by rewrite Hget. }
  eexists. split; [by apply check_factors_run|].
  unfold binary_rejects. rewrite <- unary_support_false, <- check_binary_false.
  destruct (unary_support csp v x), (check_binary _ x _); simpl;
    intuition congruence.
Qed.

(** C5: when some declared variable is unassigned (and, for the MCV branch,
    every unassigned declared variable has a working domain, as it has in
    every store of the search by [solve_covered] and
    [backtrack_keeps_covered]), the selection
    returns an unassigned variable [v] at a position [pre ++ v :: post] of
    the declaration order and leaves the store as it was.  Without MCV
    every variable before [v] is assigned, so [v] is the first unassigned
    one.  With MCV the count of consistent values of [v] is strictly below
    that of every unassigned variable declared before it and at most that
    of every unassigned variable declared after it: the count is minimal
    and [v] is the first variable that reaches it. *)
Theorem get_unassigned_variable_correct csp mcv s :
  (∃ u, u ∈ variables csp ∧ Dict.mem u (assignment s) = false) →
  (mcv = true →
   ∀ u, u ∈ variables csp → Dict.mem u (assignment s) = false →
        is_Some (Dict.get u (domains s))) →
  ∃ pre v post,
    get_unassigned_variable csp mcv s = (Ok (Some v), s) ∧
    variables csp = pre ++ v :: post ∧
    Dict.mem v (assignment s) = false ∧
    if mcv then
      (∀ u, u ∈ pre → Dict.mem u (assignment s) = false →
            num_consistent csp s v < num_consistent csp s u) ∧
      (∀ u, u ∈ post → Dict.mem u (assignment s) = false →
            num_consistent csp s v ≤ num_consistent csp s u)
    else ∀ u, u ∈ pre → Dict.mem u (assignment s) = true.
Proof.
  intros Hex Hdom. unfold get_unassigned_variable. destruct mcv; simpl.
  - destruct (variables csp) as [|v0 vars] eqn:Hvars.
    { destruct Hex as (u & Hu & _). by apply elem_of_nil in Hu. }
    rewrite run_bind, mcv_loop_run by auto.
    destruct (select_mcv_spec csp s (v0 :: vars) None v0)
      as [[_ Hall]|(pre & post & Hv & Hr & _ & Hpre & Hpost)].
    + destruct Hex as (u & Hu & Hm). specialize (Hall u Hu Hm). done.
    + exists pre, (select_mcv csp s (v0 :: vars) None v0), post. done.
  - destruct (first_unassigned_spec (assignment s) (variables csp) Hex)
      as (pre & v & post & Hf & Hv & Hm & Hpre).
    exists pre, v, post. rewrite run_bind. unfold gets. simpl.
    unfold mret, M_ret. rewrite Hf. done.
Qed.

(** C9: on a CSP without variables [solve] returns after one call of
    [backtrack], having recorded the empty assignment as the only
    solution. *)
Theorem solve_no_variables csp mcv ac3 fuel s :
  variables csp = [] →
  ∃ s', solve (S fuel) csp mcv ac3 s = (Ok tt, s') ∧
        num_operations s' = 1 ∧ num_assignments s' = 1 ∧
        all_assignments s' = [[]] ∧
        first_assignment_num_operations s' = 1.
Proof.
  intros Hvars. unfold solve, solve_body. simpl.
  unfold vars_num, record_solution. rewrite Hvars. simpl.
  eexists. split; [reflexivity|]. done.
Qed.

(** C8: [solve] leaves every list object that existed before the call as it
    was, in every outcome; in particular the value sequence [csp.values[v]]
    of every variable.  The working domains are new objects, and so is every
    list the propagation writes to. *)
Theorem solve_keeps_csp_values fuel csp mcv ac3 s v l :
  heap s !! values csp v = Some l →
  heap (solve fuel csp mcv ac3 s).2 !! values csp v = Some l.
Proof. apply solve_heap_le. Qed.

(** C6: when [solve] stops, [num_assignments] is the length of
    [all_assignments].  This holds in every outcome and for every fuel, so
    also in the stores at which a bounded run of the search is cut off:
    at the entry of a call of [backtrack] and between two iterations of a
    propagation. *)
Theorem num_assignments_is_length fuel csp mcv ac3 s :
  num_assignments (solve fuel csp mcv ac3 s).2
  = length (all_assignments (solve fuel csp mcv ac3 s).2).
Proof. apply solve_inv. Qed.

(** C7: when [solve] stops, [first_assignment_num_operations] is 0 if no
    solution is recorded, and otherwise at least 1 and at most
    [num_operations].  It is the operation counter of the call that recorded
    the first solution: a call of [backtrack] on a complete assignment, made
    while no solution is recorded, records one solution and sets
    [first_assignment_num_operations] to the operation counter it has just
    incremented; and once it is not 0, no call of [backtrack] changes it. *)
Theorem first_assignment_num_operations_correct csp mcv ac3 :
  (∀ fuel s,
     (all_assignments (solve fuel csp mcv ac3 s).2 = [] →
      first_assignment_num_operations (solve fuel csp mcv ac3 s).2 = 0) ∧
     (all_assignments (solve fuel csp mcv ac3 s).2 ≠ [] →
      1 ≤ first_assignment_num_operations (solve fuel csp mcv ac3 s).2
        ≤ num_operations (solve fuel csp mcv ac3 s).2)) ∧
  (∀ gas fuel s,
     inv csp s → all_assignments s = [] →
     length (Dict.keys (assignment s)) = vars_num csp →
     ∃ new s', backtrack csp mcv ac3 gas (S fuel) s = (Ok tt, s') ∧
               all_assignments s' = [new] ∧
               num_operations s' = num_operations s + 1 ∧
               first_assignment_num_operations s' = num_operations s') ∧
  (∀ gas fuel s,
     first_assignment_num_operations s ≠ 0 →
     first_assignment_num_operations (backtrack csp mcv ac3 gas fuel s).2
     = first_assignment_num_operations s).
Proof.
  split_and!.
  - intros fuel s. apply solve_inv.
  - intros gas fuel s. apply backtrack_records_first.
  - intros gas fuel s. apply backtrack_frozen.
Qed.

(** C3: in the search with propagation, take a tentative assignment of
    [x] to [v], one that [check_factors] accepts.  A deep copy of the
    working domains is taken right after [v] is bound and before the domain
    of [v] is collapsed, and it holds the values of the working domains
    before the step.  The step returns when the propagation returns [False],
    and when the propagation returns [True] and the recursive call returns.
    Whenever the step returns, [self.domains] is that copy, the working
    domains hold the values they held before the step, and [v] is unbound
    again: the assignment is the one before the step.  The hypothesis that
    the working domains name allocated list objects holds in every store of
    the search ([solve_allocated], [backtrack_keeps_allocated]). *)
Theorem snapshot_restored csp mcv gas fuel v x s :
  allocated (heap s) (domains s) →
  (check_factors csp v x s).1 = Ok true →
  ∃ localCopy s2,
    deepcopy_domains (after (bind_value v x) s) = (Ok localCopy, s2) ∧
    view (heap s2) localCopy = dom_view s ∧
    (∀ succeed s3,
       arc_consistency_check csp gas v
         (after (singleton ← alloc [x]; domains_store v singleton) s2)
       = (Ok succeed, s3) →
       (succeed = true →
        ∃ s4, backtrack csp mcv true gas fuel s3 = (Ok tt, s4)) →
       (try_value_ac3 csp gas (backtrack csp mcv true gas fuel) v x s).1
       = Ok tt) ∧
    ((try_value_ac3 csp gas (backtrack csp mcv true gas fuel) v x s).1
     = Ok tt →
     domains
       (try_value_ac3 csp gas (backtrack csp mcv true gas fuel) v x s).2
     = localCopy ∧
     dom_view
       (try_value_ac3 csp gas (backtrack csp mcv true gas fuel) v x s).2
     = dom_view s ∧
     assignment
       (try_value_ac3 csp gas (backtrack csp mcv true gas fuel) v x s).2
     = assignment s).
Proof.
  intros Hal Hcheck.
  destruct (deepcopy_domains_spec (after (bind_value v x) s) Hal)
    as (lc & h' & Hcopy & _ & Hv & _).
  exists lc, (set_heap h' (after (bind_value v x) s)).
  split_and!; [done..| |].
  - intros succeed s3 Harc Hrec.
    eapply try_value_ac3_completes;
      [apply backtrack_same_assignment|done..].
  - intros Hok.
    destruct (try_value_ac3 csp gas (backtrack csp mcv true gas fuel) v x s)
      as [o s'] eqn:Hrun.
    simpl in Hok. subst o. simpl.
    destruct (try_value_ac3_restores csp gas _ v x s s'
                (backtrack_heap_le csp mcv true gas fuel)
                (backtrack_same_assignment csp mcv true gas fuel) Hal Hrun)
      as (Ha & Hview & _).
    destruct (try_value_ac3_inv _ _ _ _ _ _ _ Hcheck Hrun)
      as (succeed & lc' & s2 & s3 & s4 & a' & Hcopy' & _ & _ & _ & ->).
    unfold after in Hcopy. simpl in Hcopy. rewrite Hcopy in Hcopy'.
    by injection Hcopy' as <- _.
Qed.

(** C10 (amended): with propagation, the loop of [backtrack] over the
    working domain of an unassigned variable without neighbors raises
    [NameError] at the first value [check_factors] accepts:
    [arc_consistency_check] reads [neighbor_var] after a neighbor loop of
    zero iterations.  In particular [solve] with [ac3=True] raises
    [NameError] on every CSP of one variable whose declared domain has a
    value that its unary factor does not reject. *)
Theorem isolated_variable_aborts csp mcv :
  (∀ gas (recurse : M unit) v xs s,
     get_neighbor_vars csp v = [] →
     Dict.mem v (assignment s) = false →
     (∃ x, x ∈ xs ∧ (check_factors csp v x s).1 = Ok true) →
     (for_each xs (try_value_ac3 csp (S gas) recurse v) s).1
     = Raise NameError) ∧
  (∀ fuel v s,
     variables csp = [v] → get_neighbor_vars csp v = [] →
     (∃ x, x ∈ contents (heap s) (values csp v) ∧
           unary_support csp v x = true) →
     (solve (S fuel) csp mcv true s).1 = Raise NameError).
Proof.
  split.
  - intros gas recurse v xs s. apply for_each_no_neighbors.
  - intros fuel v s. apply solve_single_variable.
Qed.

(** ** Every recorded assignment passed the checks *)

Section DictEntries.
Context {K V : Type} `{EqDecision K}.
Implicit Types (d : list (K * V)) (k : K) (w : V).

Lemma get_elem_of k w d : Dict.get k d = Some w → (k, w) ∈ d.
Proof.
  induction d as [|[k' w'] d IH]; simpl; [done|].
  destruct (decide (k = k')) as [->|Hne].
  - intros [= ->]. left.
  - intros Hget. right. by apply IH.
Qed.

Lemma elem_of_get k w d : NoDup (Dict.keys d) → (k, w) ∈ d → Dict.get k d = Some w.
Proof.
  unfold Dict.keys. induction d as [|[k' w'] d IH]; simpl.
  - intros _ Hin. by apply elem_of_nil in Hin.
  - intros Hnd Hin. apply NoDup_cons in Hnd as [Hni Hnd].
    apply elem_of_cons in Hin as [[= -> ->]|Hin].
    + by rewrite decide_True.
    + rewrite decide_False; [by apply IH|].
      intros ->. apply Hni. apply list_elem_of_fmap. by exists (k', w).
Qed.

Lemma set_fresh_app k w d : k ∉ Dict.keys d → Dict.set k w d = d ++ [(k, w)].
Proof.
  unfold Dict.keys. induction d as [|[k' w'] d IH]; simpl; [done|].
  rewrite not_elem_of_cons. intros [Hne Hni].
  rewrite decide_False by done. f_equal. by apply IH.
Qed.

Lemma get_set k k' w d :
  Dict.get k (Dict.set k' w d) =
  if decide (k = k') then Some w else Dict.get k d.
Proof.
  induction d as [|[k0 w0] d IH]; simpl.
  - by destruct (decide (k = k')).
  - destruct (decide (k' = k0)) as [->|Hne]; simpl.
    + by destruct (decide (k = k0)).
    + destruct (decide (k = k0)) as [->|Hne'].
      * by rewrite decide_False.
      * done.
Qed.

Lemma del_sublist k d d' : Dict.del k d = Some d' → d' `sublist_of` d.
Proof.
  revert d'. induction d as [|[k' w'] d IH]; simpl; [done|].
  intros d'. destruct (decide (k = k')).
  - intros [= <-]. by apply sublist_cons.
  - destruct (Dict.del k d) as [d''|]; [|done].
    intros [= <-]. apply sublist_skip. by apply IH.
Qed.

(** A dictionary whose distinct keys are taken from a list of the same
    length: the list has no duplicate either. *)
Lemma keys_full_NoDup d (l : list K) :
  NoDup (Dict.keys d) → Dict.keys d ⊆ l →
  length (Dict.keys d) = length l → NoDup l.
Proof.
  intros Hnd Hincl Hlen.
  assert (Dict.keys d ≡ₚ l) as Hperm.
  { apply submseteq_length_Permutation; [|lia]. by apply NoDup_submseteq. }
  by rewrite <- Hperm.
Qed.
End DictEntries.

Lemma accepted_nil csp : accepted csp [].
Proof. intros a1 v x a2 Heq. by destruct a1. Qed.

Lemma accepted_snoc csp a v x :
  accepted csp a → ¬ unary_rejects csp v x →
  (∀ u y, (u, y) ∈ a → admits csp v x u y) →
  accepted csp (a ++ [(v, x)]).
Proof.
  intros Hacc Hun Hbin a1 v' x' a2 Heq.
  destruct a2 as [|p a2 _] using rev_ind.
  - apply app_inj_tail in Heq as [-> [= -> ->]]. done.
  - rewrite app_comm_cons, app_assoc in Heq.
    apply app_inj_tail in Heq as [-> _]. by eapply Hacc.
Qed.

Lemma accepted_sublist csp a a' :
  a' `sublist_of` a → accepted csp a → accepted csp a'.
Proof.
  intros Hsub Hacc a1 v x a2 ->.
  apply sublist_app_l in Hsub as (k1 & k2 & -> & Hsub1 & Hsub2).
  apply sublist_cons_l in Hsub2 as (k3 & k4 & -> & _).
  destruct (Hacc (k1 ++ k3) v x k4) as [Hun Hbin]; [by rewrite <- app_assoc|].
  split; [done|]. intros u y Hin. apply Hbin, elem_of_app. left.
  by apply (sublist_subseteq _ _ Hsub1).
Qed.

(** What the loop of lines 136-137 builds. *)
Lemma copy_assignment_result vars new s new' :
  NoDup vars → (∀ u, u ∈ vars → u ∉ Dict.keys new) →
  copy_assignment vars new s = (Ok new', s) →
  Dict.keys new' = Dict.keys new ++ vars ∧
  ∀ u y, Dict.get u new' = Some y →
         Dict.get u new = Some y ∨ Dict.get u (assignment s) = Some y.
Proof.
  revert new. induction vars as [|w vars IH]; intros new Hnd Hfresh; simpl.
  - intros [= <-]. rewrite app_nil_r. auto.
  - apply NoDup_cons in Hnd as [Hni Hnd]. rewrite run_bind. simpl.
    destruct (Dict.get w (assignment s)) as [x|] eqn:Hget; [|done].
    intros Hrun. apply IH in Hrun as [Hkeys Hgets]; [|done|].
    + split.
      * rewrite Hkeys, keys_set_fresh by (apply Hfresh; left).
        by rewrite <- app_assoc.
      * intros u y Hu. destruct (Hgets u y Hu) as [Hnew|?]; [|by right].
        rewrite get_set in Hnew. destruct (decide (u = w)) as [->|Hne].
        -- injection Hnew as <-. by right.
        -- by left.
    + intros u Hu. rewrite keys_set_fresh by (apply Hfresh; left).
      rewrite elem_of_app, list_elem_of_singleton.
      intros [Hin| ->]; [|done]. apply (Hfresh u); [by right|done].
Qed.

#[local] Instance keeps_sound_po csp : PreOrder (keeps (sound csp)).
Proof.
  split.
  - by intros s Hs.
  - intros s1 s2 s3 H1 H2 Hs. by apply H2, H1.
Qed.

Hint Resolve keeps_sound_po : preserves.

Lemma same_results_keeps_sound {A} csp (m : M A) :
  preserves same_results m → preserves (keeps (sound csp)) m.
Proof.
  apply preserves_weaken. intros s s' (Ha & Hn & Ho & Hf & Hall).
  unfold keeps, sound, inv. by rewrite Ha, Hn, Ho, Hf, Hall.
Qed.

Lemma keeps_after_bind {A B} (P : state → Prop) (m : M A) (f : A → M B) s :
  P (m s).2 → (∀ r, preserves (keeps P) (f r)) → P ((m ≫= f) s).2.
Proof.
  intros Hm Hf. rewrite run_bind. destruct (m s) as [[r| |] s1]; [|done..].
  by apply Hf.
Qed.

(** A binding the check accepted keeps the invariant. *)
Lemma bind_value_sound csp v x s :
  v ∈ variables csp → (check_factors csp v x s).1 = Ok true →
  sound csp s → sound csp (bind_value v x s).2.
Proof.
  intros Hv Hcheck (Hinv & Hacc & Hall).
  split_and!; [by apply bind_value_keeps_inv| |done]. simpl.
  pose proof (check_factors_true_fresh _ _ _ _ Hcheck) as Hfresh.
  rewrite check_factors_run in Hcheck
    by by apply (check_factors_true_unassigned csp v x).
  simpl in Hcheck. injection Hcheck as Hcheck.
  apply andb_prop in Hcheck as [Hun Hbin].
  rewrite set_fresh_app by done. apply accepted_snoc; [done| |].
  - rewrite <- unary_support_false. by rewrite Hun.
  - intros u y Hin factor Hf Hz.
    assert (check_binary (assignment s) x (binary_factors csp v) = false)
      as Hfalse; [|by rewrite Hfalse in Hbin].
    apply check_binary_false. exists u, factor, y. split_and!; [done| |done].
    apply elem_of_get; [|done]. apply Hinv.
Qed.

Lemma unbind_keeps_sound csp v : preserves (keeps (sound csp)) (unbind v).
Proof.
  intros s (Hinv & Hacc & Hall).
  pose proof (unbind_keeps_inv csp v s Hinv) as Hinv'.
  split_and!; [done| |].
  - unfold unbind. rewrite run_bind. simpl.
    destruct (Dict.del v (assignment s)) as [a'|] eqn:Hdel; simpl; [|done].
    by apply (accepted_sublist csp (assignment s)), Hacc; apply (del_sublist v).
  - unfold unbind. rewrite run_bind. simpl.
    by destruct (Dict.del v (assignment s)).
Qed.

Lemma try_value_keeps_sound csp (recurse : M unit) v x :
  v ∈ variables csp → preserves (keeps (sound csp)) recurse →
  preserves (keeps (sound csp)) (try_value csp recurse v x).
Proof.
  intros Hv Hrec s Hs. unfold try_value. rewrite run_bind.
  pose proof (check_factors_state csp v x s) as Hst.
  destruct (check_factors csp v x s) as [[[]| |] s0] eqn:Hcheck;
    simpl in Hst; subst s0; try done.
  apply keeps_after_bind.
  - apply bind_value_sound; [done| |done]. by rewrite Hcheck.
  - intros _. preserves_auto. apply unbind_keeps_sound.
Qed.

Lemma try_value_ac3_keeps_sound csp gas (recurse : M unit) v x :
  v ∈ variables csp → preserves (keeps (sound csp)) recurse →
  preserves (keeps (sound csp)) (try_value_ac3 csp gas recurse v x).
Proof.
  intros Hv Hrec s Hs. unfold try_value_ac3. rewrite run_bind.
  pose proof (check_factors_state csp v x s) as Hst.
  destruct (check_factors csp v x s) as [[[]| |] s0] eqn:Hcheck;
    simpl in Hst; subst s0; try done.
  apply keeps_after_bind.
  - apply bind_value_sound; [done| |done]. by rewrite Hcheck.
  - intros _. preserves_auto;
      solve [ apply unbind_keeps_sound
            | apply same_results_keeps_sound; eauto with preserves ].
Qed.

(** A complete assignment under the invariant is recorded as a checked
    one. *)
Lemma record_solution_sound csp s :
  sound csp s → length (Dict.keys (assignment s)) = vars_num csp →
  1 ≤ num_operations s →
  sound csp (record_solution csp s).2.
Proof.
  intros (Hinv & Hacc & Hall) Hlen Hops.
  pose proof (record_solution_keeps_inv csp s Hinv Hlen Hops) as Hinv'.
  split; [done|]. clear Hinv'.
  destruct Hinv as (_ & Hnd & Hsub & _).
  unfold record_solution. rewrite run_bind. simpl. rewrite run_bind. simpl.
  set (s1 := set_num_assignments _ s).
  destruct (copy_assignment_run (variables csp) [] s1) as [new Hnew].
  { intros u Hu. by apply (keys_full _ (variables csp)). }
  rewrite run_bind, Hnew. rewrite run_bind. simpl. rewrite run_bind. simpl.
  apply copy_assignment_result in Hnew as [Hkeys Hgets];
    [|by apply (keys_full_NoDup (assignment s))
     |intros u _; apply not_elem_of_nil].
  unfold s1 in Hgets. simpl in Hgets.
  assert (Dict.keys new = variables csp ∧ checked csp new) as Hnew.
  { split; [done|]. split.
    - intros v x Hv. destruct (Hgets v x Hv) as [?|Hget]; [done|].
      apply get_elem_of, list_elem_of_split in Hget as (a1 & a2 & Heq).
      by apply (Hacc a1 v x a2).
    - intros u y v x Hne Hu Hv.
      destruct (Hgets u y Hu) as [?|Hgu]; [done|].
      destruct (Hgets v x Hv) as [?|Hgv]; [done|].
      apply get_elem_of in Hgu.
      apply get_elem_of, list_elem_of_split in Hgv as (a1 & a2 & Heq).
      simpl in Heq. rewrite Heq in Hgu.
      apply elem_of_app in Hgu as [Hin|Hin].
      + left. by apply (Hacc a1 v x a2 Heq).
      + apply elem_of_cons in Hin as [[= ? ?]|Hin]; [done|].
        apply list_elem_of_split in Hin as (b1 & b2 & ->). right.
        apply (Hacc (a1 ++ (v, x) :: b1) u y b2).
        * by rewrite Heq, <- app_assoc.
        * apply elem_of_app. right. left. }
  destruct (first_assignment_num_operations s =? 0); simpl;
    (split; [done|]); apply Forall_app; split; try done;
    by apply Forall_singleton.
Qed.

Lemma backtrack_keeps_sound csp mcv ac3 gas fuel :
  preserves (keeps (sound csp)) (backtrack csp mcv ac3 gas fuel).
Proof.
  induction fuel as [|fuel IH]; [by intros s Hs|].
  intros s Hs. simpl. rewrite run_bind. simpl. rewrite run_bind. simpl.
  rewrite run_bind. simpl.
  set (s1 := set_num_operations _ s).
  assert (sound csp s1) as Hs1.
  { destruct Hs as ((Hn & Hnd & Hsub & Hnil & Hcons) & Hacc & Hall).
    split; [|done]. unfold inv. simpl.
    split_and!; [done..|]. intros Hne. specialize (Hcons Hne). lia. }
  destruct (Nat.eqb_spec (length (Dict.keys (assignment s))) (vars_num csp))
    as [Hlen|Hlen].
  { apply record_solution_sound; [done..|simpl; lia]. }
  rewrite run_bind.
  pose proof (get_unassigned_variable_returns csp mcv s1) as Hret.
  pose proof (get_unassigned_variable_preserves (keeps (sound csp)) csp mcv
                s1 Hs1) as Hsel.
  destruct (get_unassigned_variable csp mcv s1) as [[[v|]| |] s2] eqn:Hrun;
    simpl in Hsel; try done.
  specialize (Hret _ _ eq_refl v eq_refl).
  lazymatch goal with
  | |- sound csp (?m s2).2 => assert (preserves (keeps (sound csp)) m) as Hrest
  end; [|by apply Hrest].
  preserves_auto; (apply preserves_for_each; [typeclasses eauto|]); intros y;
    first [by apply try_value_ac3_keeps_sound | by apply try_value_keeps_sound].
Qed.

(** The invariant holds when [solve] stops, whatever the outcome. *)
Lemma solve_sound fuel csp mcv ac3 s : sound csp (solve fuel csp mcv ac3 s).2.
Proof.
  unfold solve, solve_body, reset_results.
  rewrite run_bind. simpl.
  set (s0 := set_all_assignments _ _).
  destruct (init_domains_ok csp (variables csp) [] s0)
    as (d & s1 & Hinit & _ & Hn & Ho & Hf & Hall).
  rewrite run_bind, Hinit. rewrite run_bind. simpl. rewrite run_bind. simpl.
  apply backtrack_keeps_sound. unfold sound, inv. simpl.
  rewrite Hn, Hf, Hall. simpl. split_and!; try done.
  - apply NoDup_nil_2.
  - apply list_subseteq_nil.
  - apply accepted_nil.
Qed.

(** X1: every assignment that [solve] records, under any flags and in
    every outcome, binds exactly the declared variables in declaration
    order; no unary factor rejects one of its bindings; and of any two of
    its bindings, one is admitted by the binary tables of its own variable
    toward the other (the one bound later was checked against the one
    bound earlier). *)
Theorem recorded_assignments_checked fuel csp mcv ac3 s sol :
  sol ∈ all_assignments (solve fuel csp mcv ac3 s).2 →
  Dict.keys sol = variables csp ∧ checked csp sol.
Proof.
  intros Hin. destruct (solve_sound fuel csp mcv ac3 s) as (_ & _ & Hall).
  by apply (proj1 (Forall_forall _ _) Hall).
Qed.

(** ** The propagation adds no value to a working domain *)

Lemma contents_alter_ne h (f : list val → list val) ℓ ℓ' :
  ℓ ≠ ℓ' → contents (alter f ℓ h) ℓ' = contents h ℓ'.
Proof. intros Hne. unfold contents. by rewrite list_lookup_alter_ne. Qed.

Lemma contents_alloc h l ℓ : ℓ < length h → contents (h ++ [l]) ℓ = contents h ℓ.
Proof. intros Hℓ. unfold contents. by rewrite lookup_app_l. Qed.

Lemma contents_new h l : contents (h ++ [l]) (length h) = l.
Proof. unfold contents. by rewrite list_lookup_middle. Qed.

Lemma allocated_get h (d : list (var * nat)) v ℓ :
  allocated h d → Dict.get v d = Some ℓ → ℓ < length h.
Proof. intros Hal Hget. by apply (allocated_elem h d v), get_elem_of. Qed.

(** The loop over the values of a neighbor: the list it builds, named by
    no other variable, and the working domains stay within [D]. *)
Lemma revise_values_keeps_within D csp cur nb nd xs dc q :
  Forall (λ x, x ∈ D nb) xs →
  preserves
    (keeps (λ s, (nd < length (heap s) ∧ domains_allocated s) ∧
                 (∀ u, Dict.get u (domains s) = Some nd → u = nb) ∧
                 contents (heap s) nd ⊆ D nb ∧ within D s))
    (revise_values csp cur nb nd xs dc q).
Proof.
  revert dc q. induction xs as [|x xs IH]; intros dc q Hxs; simpl;
    [preserves_auto|].
  apply Forall_cons in Hxs as [Hx Hxs]. preserves_auto; try (by apply IH).
  - intros s ([Hlt Hal] & Hown & Hnd & Hw). split_and!.
    + simpl. by rewrite length_alter.
    + unfold domains_allocated, allocated. simpl. by rewrite length_alter.
    + done.
    + simpl. rewrite contents_append by done.
      intros y Hy. apply elem_of_app in Hy as [Hy|Hy]; [by apply Hnd|].
      apply list_elem_of_singleton in Hy. by subst.
    + intros u ℓ Hget. simpl in *. destruct (decide (ℓ = nd)) as [->|Hne].
      * rewrite (Hown u Hget), contents_append by done.
        intros y Hy. apply elem_of_app in Hy as [Hy|Hy]; [by apply Hnd|].
        apply list_elem_of_singleton in Hy. by subst.
      * rewrite contents_alter_ne by done. by apply Hw.
  - intros s ([Hlt Hal] & Hown & Hnd & Hw). split_and!.
    + done.
    + by apply allocated_set.
    + simpl. intros u. rewrite get_set. destruct (decide (u = nb)); [done|].
      apply Hown.
    + done.
    + intros u ℓ. simpl. rewrite get_set.
      destruct (decide (u = nb)) as [->|Hne]; [by intros [= <-]|]. apply Hw.
Qed.

Lemma within_alloc D s l :
  domains_allocated s → within D s → within D (set_heap (heap s ++ [l]) s).
Proof.
  intros Hal Hw u ℓ Hget. simpl in *.
  rewrite contents_alloc by by apply (allocated_get _ (domains s) u). by apply Hw.
Qed.

Lemma allocated_alloc s l :
  domains_allocated s → domains_allocated (set_heap (heap s ++ [l]) s).
Proof.
  intros Hal. unfold domains_allocated. simpl.
  eapply allocated_mono; [|exact Hal]. rewrite length_app. lia.
Qed.

(** The first steps of the loop over the neighbors: the list to build is
    allocated and the values of the neighbor are read. *)
Lemma revise_neighbors_cons csp cur nb nbs q last s :
  revise_neighbors csp cur (nb :: nbs) q last s =
  let s1 := set_heap (heap s ++ [[]]) s in
  match Dict.get nb (domains s) with
  | Some ℓn =>
      (q' ← revise_values csp cur nb (length (heap s))
              (contents (heap s1) ℓn) false q;
       revise_neighbors csp cur nbs q' (Some nb)) s1
  | None => (Raise KeyError, s1)
  end.
Proof.
  simpl. rewrite run_bind. simpl. rewrite run_bind.
  unfold domains_lookup. rewrite run_bind. simpl.
  by destruct (Dict.get nb (domains s)).
Qed.

Lemma revise_neighbors_keeps_within D csp cur nbs q last :
  preserves (keeps (λ s, domains_allocated s ∧ within D s))
    (revise_neighbors csp cur nbs q last).
Proof.
  revert q last. induction nbs as [|nb nbs IH]; intros q last.
  { simpl. preserves_auto. }
  intros s [Hal Hw]. rewrite revise_neighbors_cons. simpl.
  set (nd := length (heap s)). set (s1 := set_heap _ s).
  assert (domains_allocated s1 ∧ within D s1) as [Hal1 Hw1].
  { split; [by apply allocated_alloc|by apply within_alloc]. }
  destruct (Dict.get nb (domains s)) as [ℓn|] eqn:Hget; [|done].
  apply (keeps_after_bind (λ s, domains_allocated s ∧ within D s));
    [|by intros q'].
  assert (contents (heap s1) nd = []) as Hnew by apply contents_new.
  destruct (revise_values_keeps_within D csp cur nb nd
              (contents (heap s1) ℓn) false q) with (s := s1)
    as ([_ ?] & _ & _ & ?); [| |done].
  - apply Forall_forall. intros x Hx. by apply (Hw1 nb ℓn).
  - split_and!; [simpl; rewrite length_app; simpl; lia|done| | |done].
    + intros u Hu. apply (allocated_get (heap s) _ u) in Hu; [|done].
      unfold nd in Hu. lia.
    + rewrite Hnew. apply list_subseteq_nil.
Qed.

Lemma arc_consistency_check_keeps_within D csp gas v :
  preserves (keeps (λ s, domains_allocated s ∧ within D s))
    (arc_consistency_check csp gas v).
Proof.
  unfold arc_consistency_check. generalize (@None var), [v].
  induction gas as [|gas IH]; intros last q; simpl; preserves_auto.
  unfold while_body. preserves_auto. apply revise_neighbors_keeps_within.
Qed.

(** X2: the propagation adds no value to a working domain: whatever
    the outcome of [arc_consistency_check], every value of a working
    domain in the store it leaves was a value of that variable's working
    domain in the store it started from. *)
Theorem arc_consistency_check_adds_no_value csp gas v s u x :
  domains_allocated s →
  x ∈ working_domain (arc_consistency_check csp gas v s).2 u →
  x ∈ working_domain s u.
Proof.
  intros Hal.
  destruct (arc_consistency_check_keeps_within (working_domain s) csp gas v s)
    as [_ Hw].
  { split; [done|]. intros w ℓ Hget. unfold working_domain. by rewrite Hget. }
  unfold working_domain at 1.
  destruct (Dict.get u (domains _)) as [ℓ|] eqn:Hget.
  - by apply Hw.
  - intros Hin. by apply elem_of_nil in Hin.
Qed.

(** ** Every value of the search is a declared one *)

Lemma elem_of_set {K V} `{EqDecision K} (k k' : K) (w w' : V) d :
  (k, w) ∈ Dict.set k' w' d → (k, w) = (k', w') ∨ (k, w) ∈ d.
Proof.
  induction d as [|[k0 w0] d IH]; simpl.
  - intros Hin. left. by apply list_elem_of_singleton in Hin.
  - destruct (decide (k' = k0)) as [->|Hne].
    + intros Hin. apply elem_of_cons in Hin as [?|Hin]; [by left|].
      right. by right.
    + intros Hin. apply elem_of_cons in Hin as [->|Hin]; [right; left|].
      destruct (IH Hin) as [?|?]; [by left|]. right. by right.
Qed.

(** Every binding of the copy of lines 136-137 is one of the dictionary
    it extends or a binding of the assignment. *)
Lemma copy_assignment_gets vars new s new' s' :
  copy_assignment vars new s = (Ok new', s') →
  ∀ u y, Dict.get u new' = Some y →
         Dict.get u new = Some y ∨ Dict.get u (assignment s) = Some y.
Proof.
  revert new. induction vars as [|w vars IH]; intros new; simpl.
  - intros [= <- _]. auto.
  - rewrite run_bind. simpl.
    destruct (Dict.get w (assignment s)) as [x|] eqn:Hget; [|done].
    intros Hrun u y Hu. destruct (IH _ Hrun u y Hu) as [Hnew|?]; [|by right].
    rewrite get_set in Hnew. destruct (decide (u = w)) as [->|Hne].
    + injection Hnew as <-. by right.
    + by left.
Qed.

Lemma preserves_for_each_in {A} (R : relation state) `{!PreOrder R}
    (l : list A) (body : A → M unit) :
  (∀ y, y ∈ l → preserves R (body y)) → preserves R (for_each l body).
Proof.
  induction l as [|y l IH]; intros Hbody; simpl.
  - by apply preserves_ret.
  - apply preserves_bind; [done|apply Hbody; left|].
    intros _. apply IH. intros z Hz. apply Hbody. by right.
Qed.

Lemma keeps_and {A} (P Q : state → Prop) (m : M A) :
  preserves (keeps P) m → preserves (keeps Q) m →
  preserves (keeps (λ s, P s ∧ Q s)) m.
Proof. intros HP HQ s [? ?]. split; [by apply HP|by apply HQ]. Qed.

(** A dictionary of domains set aside keeps its values while the heap
    only grows. *)
Lemma heap_le_keeps_snapshot {A} D (lc : list (var * nat)) (m : M A) :
  preserves heap_le m →
  preserves (keeps (λ s, allocated (heap s) lc ∧
                         within D (set_domains lc s))) m.
Proof.
  intros Hle s [Hal Hw]. specialize (Hle s). split.
  - eapply allocated_mono; [|exact Hal]. by apply heap_le_length.
  - intros u ℓ Hget. simpl in *.
    assert (ℓ < length (heap s)) as Hlt by by apply (allocated_get _ lc u).
    specialize (Hw u ℓ Hget). simpl in Hw.
    unfold contents in *. destruct (heap s !! ℓ) as [l|] eqn:Hl.
    + by rewrite (Hle _ _ Hl).
    + apply lookup_ge_None in Hl. lia.
Qed.

Lemma same_results_keeps_declared {A} D (m : M A) :
  preserves same_results m →
  preserves (keeps (λ s, domains_allocated s ∧ within D s)) m →
  preserves (keeps (declared D)) m.
Proof.
  intros Hsame Hw s (Hal & Hwi & Ha & Hall).
  destruct (Hsame s) as (Ha' & _ & _ & _ & Hall').
  destruct (Hw s) as [? ?]; [done|].
  unfold declared. by rewrite Ha', Hall'.
Qed.

Lemma modify_keeps_declared D (f : state → state) :
  (∀ s, heap (f s) = heap s ∧ domains (f s) = domains s ∧
        assignment (f s) = assignment s ∧
        all_assignments (f s) = all_assignments s) →
  preserves (keeps (declared D)) (modify f).
Proof.
  intros Hf s (Hal & Hw & Ha & Hall). destruct (Hf s) as (Hh & Hd & Ha' & Hall').
  unfold declared, domains_allocated, within. simpl.
  by rewrite Hh, Hd, Ha', Hall'.
Qed.

Lemma unbind_keeps_declared D v : preserves (keeps (declared D)) (unbind v).
Proof.
  intros s (Hal & Hw & Ha & Hall). unfold unbind. rewrite run_bind. simpl.
  destruct (Dict.del v (assignment s)) as [a'|] eqn:Hdel; simpl; [|done].
  split_and!; [done..| |done]. simpl. intros u y Hin. apply Ha.
  by apply (sublist_subseteq _ _ (del_sublist _ _ _ Hdel)).
Qed.

Lemma bind_value_keeps_declared D v x :
  x ∈ D v → preserves (keeps (declared D)) (bind_value v x).
Proof.
  intros Hx s (Hal & Hw & Ha & Hall). split_and!; [done..| |done].
  simpl. intros u y Hin. apply elem_of_set in Hin as [[= -> ->]|Hin]; auto.
Qed.

Lemma try_value_keeps_declared D csp (recurse : M unit) v x :
  x ∈ D v → preserves (keeps (declared D)) recurse →
  preserves (keeps (declared D)) (try_value csp recurse v x).
Proof.
  intros Hx Hrec. unfold try_value. preserves_auto.
  - by apply bind_value_keeps_declared.
  - apply unbind_keeps_declared.
Qed.

Lemma try_value_ac3_keeps_declared D csp gas (recurse : M unit) v x :
  x ∈ D v → preserves heap_le recurse →
  preserves (keeps (declared D)) recurse →
  preserves (keeps (declared D)) (try_value_ac3 csp gas recurse v x).
Proof.
  intros Hx Hle Hrec s Hs. unfold try_value_ac3. rewrite run_bind.
  pose proof (check_factors_state csp v x s) as Hst.
  destruct (check_factors csp v x s) as [[[]| |] s0]; simpl in *; subst s0;
    try done.
  rewrite run_bind. simpl. rewrite run_bind.
  set (s1 := set_assignment _ s).
  assert (declared D s1) as (Hal1 & Hw1 & Ha1 & Hall1)
    by by apply (bind_value_keeps_declared D v x Hx s).
  destruct (deepcopy_domains_spec s1 Hal1) as (lc & h' & -> & Hpre & Hview & Hlc).
  rewrite run_bind. simpl. rewrite run_bind. simpl.
  set (s3 := set_domains _ _).
  set (Q := λ s : state, allocated (heap s) lc ∧ within D (set_domains lc s)).
  assert (declared D s3 ∧ Q s3) as Hs3.
  { assert (∀ ℓ, ℓ < length h' → contents (h' ++ [[x]]) ℓ = contents h' ℓ)
      as Hold by (intros ℓ; apply contents_alloc).
    unfold Q, declared, domains_allocated, within, s3. simpl.
    split; [split_and!|split].
    - apply allocated_set; [|rewrite length_app; simpl; lia].
      eapply allocated_mono; [|exact Hal1].
      apply prefix_length in Hpre. rewrite length_app. simpl in *. lia.
    - intros u ℓ. simpl. rewrite get_set.
      destruct (decide (u = v)) as [->|Hne].
      + intros [= <-]. rewrite contents_new. intros y Hy.
        apply list_elem_of_singleton in Hy. by subst.
      + intros Hget. pose proof (allocated_get _ _ _ _ Hal1 Hget) as Hlt.
        simpl in Hlt. apply prefix_length in Hpre as Hlen. simpl in Hlen.
        rewrite Hold, (contents_prefix (heap s) h') by (done || lia).
        by apply (Hw1 u).
    - done.
    - done.
    - eapply allocated_mono; [|exact Hlc]. rewrite length_app. lia.
    - intros u ℓ Hget. simpl in *.
      rewrite Hold by by apply (allocated_get _ lc u).
      assert (Dict.get u (view h' lc) = Some (contents h' ℓ)) as Hv
        by by rewrite view_get, Hget.
      rewrite Hview in Hv. unfold dom_view in Hv. rewrite view_get in Hv.
      simpl in Hv. destruct (Dict.get u (domains s)) as [ℓ0|] eqn:Hg; [|done].
      injection Hv as <-. by apply (Hw1 u). }
  lazymatch goal with
  | |- declared D (?m s3).2 =>
      assert (preserves (keeps (λ s, declared D s ∧ Q s)) m) as Hrest
  end; [|by apply Hrest].
  preserves_auto.
  - apply keeps_and; [|apply heap_le_keeps_snapshot, arc_consistency_check_heap_le].
    apply same_results_keeps_declared;
      [apply arc_consistency_check_same_results
      |apply arc_consistency_check_keeps_within].
  - apply keeps_and; [done|by apply heap_le_keeps_snapshot].
  - intros s4 [(Hal4 & Hw4 & Ha4 & Hall4) [Hlc4 Hwc4]]. by split; [split_and!|split].
  - apply keeps_and; [apply unbind_keeps_declared|].
    apply heap_le_keeps_snapshot, unbind_heap_le.
Qed.

Lemma record_solution_keeps_declared D csp :
  preserves (keeps (declared D)) (record_solution csp).
Proof.
  intros s (Hal & Hw & Ha & Hall).
  unfold record_solution. rewrite run_bind. simpl. rewrite run_bind. simpl.
  set (s1 := set_num_assignments _ s).
  pose proof (copy_assignment_state (variables csp) [] s1) as Hst.
  rewrite run_bind.
  destruct (copy_assignment (variables csp) [] s1) as [[new| |] s2] eqn:Hcopy;
    simpl in Hst; subst s2; [|by split_and!..].
  rewrite run_bind. simpl. rewrite run_bind. simpl.
  assert (Forall (λ sol : list (var * val),
                    ∀ v x, Dict.get v sol = Some x → x ∈ D v)
            (all_assignments s ++ [new])) as Hall'.
  { apply Forall_app. split; [done|]. apply Forall_singleton. intros v x Hv.
    destruct (copy_assignment_gets _ _ _ _ _ Hcopy v x Hv) as [?|Hget];
      [done|].
    by apply Ha, get_elem_of. }
  by destruct (first_assignment_num_operations s =? 0); split_and!.
Qed.

(** Every call of [backtrack] keeps the values of the search among the
    values [D], in every outcome. *)
Lemma backtrack_keeps_declared D csp mcv ac3 gas fuel :
  preserves (keeps (declared D)) (backtrack csp mcv ac3 gas fuel).
Proof.
  induction fuel as [|fuel IH]; [by intros s Hs|].
  intros s Hs. simpl. rewrite run_bind. simpl.
  apply keeps_after_bind;
    [by apply (modify_keeps_declared D (set_num_operations _))|].
  intros _. clear s Hs. intros s Hs. rewrite run_bind. simpl.
  destruct (_ =? _); [by apply record_solution_keeps_declared|].
  rewrite run_bind.
  pose proof (get_unassigned_variable_preserves (@eq state) csp mcv s) as Hst.
  destruct (get_unassigned_variable csp mcv s) as [[[v|]| |] s0];
    simpl in Hst; subst s0; try done.
  rewrite run_bind. unfold domains_lookup. rewrite run_bind. simpl.
  destruct (Dict.get v (domains s)) as [ℓ|] eqn:Hget; simpl; [|done].
  rewrite run_bind. simpl.
  assert (∀ y, y ∈ contents (heap s) ℓ → y ∈ D v) as Hxs.
  { intros y Hy. destruct Hs as (_ & Hw & _). by apply (Hw v ℓ Hget). }
  destruct (negb ac3);
    (apply (preserves_for_each_in (keeps (declared D))); [|done]);
    intros y Hy.
  - apply try_value_keeps_declared; auto.
  - apply try_value_ac3_keeps_declared; auto using backtrack_heap_le.
Qed.

Lemma init_domains_within csp h0 vars d s :
  h0 `prefix_of` heap s →
  (∀ u, u ∈ vars → values csp u < length h0) →
  allocated (heap s) d →
  (∀ u ℓ, Dict.get u d = Some ℓ →
          contents (heap s) ℓ ⊆ contents h0 (values csp u)) →
  ∃ d' s', init_domains csp vars d s = (Ok d', s') ∧ same_results s s' ∧
           allocated (heap s') d' ∧
           ∀ u ℓ, Dict.get u d' = Some ℓ →
                  contents (heap s') ℓ ⊆ contents h0 (values csp u).
Proof.
  revert d s. induction vars as [|w vars IH]; intros d s Hpre Hvals Hal Hw;
    simpl.
  - by exists d, s.
  - rewrite run_bind. simpl. rewrite run_bind. simpl.
    set (l := contents (heap s) (values csp w)). set (s1 := set_heap _ s).
    destruct (IH (Dict.set w (length (heap s)) d) s1)
      as (d' & s' & Hrun & Hsame & Hal' & Hw').
    + simpl. etransitivity; [done|]. by apply prefix_app_r.
    + intros u Hu. apply Hvals. by right.
    + simpl. apply allocated_set; [|rewrite length_app; simpl; lia].
      eapply allocated_mono; [|exact Hal]. rewrite length_app. lia.
    + intros u ℓ. simpl. rewrite get_set.
      destruct (decide (u = w)) as [->|Hne].
      * intros [= <-]. rewrite contents_new. unfold l.
        rewrite (contents_prefix h0 (heap s)); [done..|]. apply Hvals. left.
      * intros Hget.
        rewrite contents_alloc by by apply (allocated_get _ d u).
        by apply Hw.
    + exists d', s'. by split_and!.
Qed.

(** X3: the values of a recorded assignment are declared values: when the
    value sequences of the CSP are list objects of the store [solve]
    starts from, every value that an assignment recorded by [solve] gives
    a variable is one of the values the CSP declares for that variable,
    under any flags. *)
Theorem recorded_values_declared fuel csp mcv ac3 s sol v x :
  (∀ u, u ∈ variables csp → values csp u < length (heap s)) →
  sol ∈ all_assignments (solve fuel csp mcv ac3 s).2 →
  Dict.get v sol = Some x →
  x ∈ contents (heap s) (values csp v).
Proof.
  intros Hvals. unfold solve, solve_body, reset_results.
  rewrite run_bind. simpl.
  set (s0 := set_all_assignments _ _).
  destruct (init_domains_within csp (heap s) (variables csp) [] s0)
    as (d & s1 & Hinit & (_ & _ & _ & _ & Hall) & Hal & Hw);
    [done|done|apply Forall_nil_2|done|].
  rewrite run_bind, Hinit. rewrite run_bind. simpl. rewrite run_bind. simpl.
  set (s2 := set_assignment _ _).
  destruct (backtrack_keeps_declared
              (λ u, contents (heap s) (values csp u)) csp mcv ac3 fuel fuel s2)
    as (_ & _ & _ & Hsols).
  { split_and!; [done|done| |].
    - intros u y Hin. by apply elem_of_nil in Hin.
    - simpl. rewrite Hall. apply Forall_nil_2. }
  intros Hin Hget. by apply (proj1 (Forall_forall _ _) Hsols sol Hin v x).
Qed.

(** ** The propagation keeps every consistent valuation *)

Lemma binary_support_run csp cur nb cvals x s :
  binary_support csp cur nb cvals x s =
  (match cvals with
   | [] => Ok false
   | _ :: _ =>
       match Dict.get nb (binary_factors csp cur) with
       | None => Raise KeyError
       | Some table =>
           Ok (existsb (λ y, negb (table y x =? 0)%Z) cvals)
       end
   end, s).
Proof.
  unfold binary_support. destruct cvals; [done|].
  by destruct (Dict.get nb (binary_factors csp cur)).
Qed.

(** One iteration of the loop over the values of a neighbor. *)
Lemma revise_values_cons csp cur nb nd x rest dc q s :
  revise_values csp cur nb nd (x :: rest) dc q s =
  match Dict.get cur (domains s) with
  | None => (Raise KeyError, s)
  | Some ℓc =>
      match (binary_support csp cur nb (contents (heap s) ℓc) x s).1 with
      | Ok b =>
          if unary_support csp nb x && b then
            if dc then
              revise_values csp cur nb nd rest true (q ++ [nb])
                (after (domains_store nb nd) (after (append nd x) s))
            else
              revise_values csp cur nb nd rest false q (after (append nd x) s)
          else
            revise_values csp cur nb nd rest true (q ++ [nb])
              (after (domains_store nb nd) s)
      | Raise e => (Raise e, s)
      | OutOfFuel => (OutOfFuel, s)
      end
  end.
Proof.
  simpl. rewrite run_bind. unfold domains_lookup at 1. rewrite run_bind.
  simpl. destruct (Dict.get cur (domains s)) as [ℓc|]; [|done]. simpl.
  rewrite run_bind. simpl. rewrite run_bind, binary_support_run. simpl.
  destruct (contents (heap s) ℓc) as [|y cvals]; simpl.
  - rewrite andb_false_r. by rewrite run_bind.
  - destruct (Dict.get nb (binary_factors csp cur)) as [table|]; [|done].
    rewrite run_bind.
    destruct (unary_support csp nb x && _), dc; simpl;
      repeat (rewrite run_bind; simpl); done.
Qed.

Lemma contents_lt h ℓ y : y ∈ contents h ℓ → ℓ < length h.
Proof.
  unfold contents. intros Hy. destruct (h !! ℓ) as [l|] eqn:Hl.
  - by eapply lookup_lt_Some.
  - by apply elem_of_nil in Hy.
Qed.

Lemma contents_append_mono h nd x ℓ y :
  y ∈ contents h ℓ → y ∈ contents (alter (λ l, l ++ [x]) nd h) ℓ.
Proof.
  intros Hy. destruct (decide (nd = ℓ)) as [->|Hne].
  - rewrite contents_append by by eapply contents_lt.
    apply elem_of_app. by left.
  - by rewrite contents_alter_ne.
Qed.

(** A value that has support passes the test of lines 237-248. *)
Lemma binary_support_true csp cur nb cvals x s table y :
  Dict.get nb (binary_factors csp cur) = Some table →
  y ∈ cvals → table y x ≠ 0%Z →
  (binary_support csp cur nb cvals x s).1 = Ok true.
Proof.
  intros Hget Hy Hnz. rewrite binary_support_run. simpl.
  destruct cvals as [|z cvals]; [by apply elem_of_nil in Hy|].
  rewrite Hget. f_equal. apply existsb_exists. exists y. split.
  - by apply list_elem_of_In.
  - by apply negb_true_iff, Z.eqb_neq.
Qed.

(** The loop over the values of a neighbor keeps the value a consistent
    valuation gives the neighbor. *)
Lemma revise_values_keeps_valuation P σ csp cur nb nd xs (dc : bool) q s q' s' :
  passes P csp σ → P nb → (P cur → cur ≠ nb) → nd < length (heap s) →
  (∀ u ℓ, u ≠ nb → Dict.get u (domains s) = Some ℓ →
          P u ∧ σ u ∈ contents (heap s) ℓ) →
  (σ nb ∈ contents (heap s) nd ∨ σ nb ∈ xs) →
  (if dc then Dict.get nb (domains s) = Some nd
   else ∃ ℓn, Dict.get nb (domains s) = Some ℓn ∧
              σ nb ∈ contents (heap s) ℓn) →
  revise_values csp cur nb nd xs dc q s = (Ok q', s') →
  lies_in P σ s'.
Proof.
  intros [Hun Hbin] Hnb Hne'.
  assert (cur ≠ nb) as Hne by (intros ->; by apply Hne').
  clear Hne'. revert dc q s.
  induction xs as [|x xs IH]; intros dc q s Hnd Hothers Hnbv Hdom Hrun.
  { simpl in Hrun. injection Hrun as _ <-. intros u ℓ Hget.
    destruct (decide (u = nb)) as [->|Hu]; [|by apply Hothers].
    split; [done|]. destruct dc.
    - rewrite Hdom in Hget. injection Hget as <-.
      destruct Hnbv as [?|Hin]; [done|]. by apply elem_of_nil in Hin.
    - destruct Hdom as (ℓn & Hgn & Hin). rewrite Hgn in Hget.
      by injection Hget as <-. }
  rewrite revise_values_cons in Hrun.
  destruct (Dict.get cur (domains s)) as [ℓc|] eqn:Hcur; [|done].
  destruct (Hothers cur ℓc Hne Hcur) as [Hpc Hσc].
  destruct (binary_support csp cur nb (contents (heap s) ℓc) x s).1
    as [b| |] eqn:Hsup; [|done..].
  assert (∀ u ℓ, u ≠ nb → Dict.get u (domains s) = Some ℓ →
                 P u ∧ σ u ∈ contents (alter (λ l, l ++ [x]) nd (heap s)) ℓ)
    as Hothers'.
  { intros u ℓ Hu Hget. destruct (Hothers u ℓ Hu Hget) as [? ?].
    split; [done|]. by apply contents_append_mono. }
  assert (∀ (d : list (var * nat)) u ℓ, u ≠ nb →
            Dict.get u (Dict.set nb nd d) = Some ℓ → Dict.get u d = Some ℓ)
    as Hset.
  { intros d u ℓ Hu. rewrite get_set. by rewrite decide_False. }
  destruct (unary_support csp nb x && b) eqn:Hkeep.
  - (* the value is kept *)
    assert (σ nb ∈ contents (alter (λ l, l ++ [x]) nd (heap s)) nd ∨ σ nb ∈ xs)
      as Hnbv'.
    { destruct Hnbv as [Hin|Hin]; [left; by apply contents_append_mono|].
      apply elem_of_cons in Hin as [->|Hin]; [|by right].
      left. rewrite contents_append by done. apply elem_of_app. right. left. }
    destruct dc.
    + apply IH in Hrun; [done|..]; unfold after; simpl.
      * by rewrite length_alter.
      * intros u ℓ Hu Hget. apply Hothers'; [done|]. by apply Hset.
      * done.
      * apply get_set_eq.
    + apply IH in Hrun; [done|..]; unfold after; simpl.
      * by rewrite length_alter.
      * done.
      * done.
      * destruct Hdom as (ℓn & Hgn & Hin). exists ℓn. split; [done|].
        by apply contents_append_mono.
  - (* the value is dropped: it is not the value of the valuation *)
    apply IH in Hrun; [done|..]; unfold after; simpl.
    + done.
    + intros u ℓ Hu Hget. apply Hothers; [done|]. by apply Hset.
    + destruct Hnbv as [Hin|Hin]; [by left|].
      apply elem_of_cons in Hin as [Heq|Hin]; [|by right]. subst x.
      exfalso. apply andb_false_iff in Hkeep as [Hu|Hb].
      * apply unary_support_false in Hu. by apply (Hun nb).
      * subst b.
        destruct (Dict.get nb (binary_factors csp cur)) as [table|] eqn:Ht.
        -- rewrite (binary_support_true csp cur nb _ _ s table (σ cur))
             in Hsup; [done..|].
           apply (Hbin cur nb Hpc Hnb). by apply get_elem_of.
        -- rewrite binary_support_run, Ht in Hsup. simpl in Hsup.
           destruct (contents (heap s) ℓc); [|done].
           by apply elem_of_nil in Hσc.
    + apply get_set_eq.
Qed.

Lemma lies_in_alloc P σ s l :
  lies_in P σ s → lies_in P σ (set_heap (heap s ++ [l]) s).
Proof.
  intros Hl u ℓ Hget. destruct (Hl u ℓ Hget) as [Hp Hin]. split; [done|].
  simpl. rewrite contents_alloc; [done|]. by eapply contents_lt.
Qed.

Lemma revise_neighbors_keeps_valuation P σ csp cur nbs q last s q' last' s' :
  passes P csp σ → (P cur → cur ∉ nbs) → lies_in P σ s →
  revise_neighbors csp cur nbs q last s = (Ok (q', last'), s') →
  lies_in P σ s'.
Proof.
  intros Hpass. revert q last s.
  induction nbs as [|nb nbs IH]; intros q last s Hself Hl Hrun.
  { simpl in Hrun. by injection Hrun as _ _ <-. }
  rewrite revise_neighbors_cons in Hrun. simpl in Hrun.
  destruct (Dict.get nb (domains s)) as [ℓn|] eqn:Hget; [|done].
  rewrite run_bind in Hrun.
  set (s1 := set_heap _ s) in Hrun.
  destruct (revise_values csp cur nb (length (heap s)) _ false q s1)
    as [[q1| |] s2] eqn:Hvals; [|done..].
  pose proof (lies_in_alloc P σ s [] Hl) as Hl1. fold s1 in Hl1.
  destruct (Hl1 nb ℓn Hget) as [Hpn Hin].
  apply IH in Hrun; [done| |].
  - intros Hp Hc. apply (Hself Hp). by right.
  - apply (revise_values_keeps_valuation P σ) in Hvals; try done.
    + intros Hp ->. apply (Hself Hp). left.
    + simpl. rewrite length_app. simpl. lia.
    + intros u ℓ _. apply Hl1.
    + by right.
    + by exists ℓn.
Qed.

Lemma while_body_keeps_valuation P σ csp cur q last s r s' :
  passes P csp σ → (∀ u, P u → u ∉ get_neighbor_vars csp u) →
  lies_in P σ s →
  while_body csp cur q last s = (Ok r, s') →
  lies_in P σ s' ∧ ∃ q' last', r = Continue q' last'.
Proof.
  intros Hpass Hself Hl. unfold while_body. rewrite run_bind.
  destruct (revise_neighbors csp cur _ q last s) as [[[q1 last1]| |] s1]
    eqn:Hnb; [|done..].
  apply (revise_neighbors_keeps_valuation P σ) in Hnb; [|by auto..].
  destruct last1 as [nb|]; [|done]. rewrite run_bind.
  unfold domains_lookup. rewrite run_bind. simpl.
  destruct (Dict.get nb (domains s1)) as [ℓ|] eqn:Hget; [|done]. simpl.
  rewrite run_bind. simpl. destruct (Hnb nb ℓ Hget) as [_ Hin].
  destruct (contents (heap s1) ℓ) as [|y l]; [by apply elem_of_nil in Hin|].
  intros [= <- <-]. split; [done|]. by eexists _, _.
Qed.

Lemma ac3_while_keeps_valuation P σ csp gas q last s b s' :
  passes P csp σ → (∀ u, P u → u ∉ get_neighbor_vars csp u) →
  lies_in P σ s →
  ac3_while csp gas q last s = (Ok b, s') →
  b = true ∧ lies_in P σ s'.
Proof.
  intros Hpass Hself. revert q last s.
  induction gas as [|gas IH]; intros q last s Hl; [done|]. simpl.
  destruct q as [|cur q]; [by intros [= <- <-]|].
  rewrite run_bind.
  destruct (while_body csp cur q last s) as [[r| |] s1] eqn:Hbody; [|done..].
  apply (while_body_keeps_valuation P σ) in Hbody
    as (Hl1 & q1 & last1 & ->); [|done..].
  by apply IH.
Qed.

(** X4: the propagation keeps every consistent valuation.  Let no
    variable with a working domain be its own neighbor, and let [σ] give
    each such variable a value of its working domain so that no unary
    factor rejects a value and every binary table admits every pair.  Then
    a call of [arc_consistency_check] that returns has returned [True], and
    the working domains it leaves still hold every value of [σ]. *)
Theorem arc_consistency_check_keeps_valuation csp gas v s b s'
    (σ : var → val) :
  (∀ u, u ∈ Dict.keys (domains s) → u ∉ get_neighbor_vars csp u) →
  passes (λ u, u ∈ Dict.keys (domains s)) csp σ →
  (∀ u, u ∈ Dict.keys (domains s) → σ u ∈ working_domain s u) →
  arc_consistency_check csp gas v s = (Ok b, s') →
  b = true ∧
  ∀ u, u ∈ Dict.keys (domains s') → σ u ∈ working_domain s' u.
Proof.
  intros Hself Hpass Hin Hrun.
  set (P := λ u, u ∈ Dict.keys (domains s)) in *.
  assert (∀ (d : list (var * nat)) u ℓ,
            Dict.get u d = Some ℓ → u ∈ Dict.keys d) as Hkey.
  { intros d u ℓ Hget. destruct (decide (u ∈ Dict.keys d)) as [|Hni]; [done|].
    apply get_None_keys in Hni. by rewrite Hni in Hget. }
  apply (ac3_while_keeps_valuation P σ) in Hrun as [-> Hl]; [|done..|].
  - split; [done|]. intros u Hu. unfold working_domain.
    destruct (Dict.get u (domains s')) as [ℓ|] eqn:Hget.
    + by apply (Hl u ℓ).
    + by apply get_None_keys in Hget.
  - intros u ℓ Hget. assert (P u) as Hp by by apply (Hkey _ u ℓ).
    split; [done|]. specialize (Hin u Hp). unfold working_domain in Hin.
    by rewrite Hget in Hin.
Qed.

End Proofs.

(** ** The theorems at concrete inputs *)

Lemma check_factors_correct_witness :
  ∃ b, check_factors (Examples.queens 4) 1 3 Examples.queens4_partial
       = (Ok b, Examples.queens4_partial) ∧
       (unary_rejects (Examples.queens 4) 1 3 → b = false) ∧
       (¬ unary_rejects (Examples.queens 4) 1 3 →
        binary_rejects (Examples.queens 4)
          (assignment Examples.queens4_partial) 1 3 → b = false) ∧
       (b = true ↔
        ¬ unary_rejects (Examples.queens 4) 1 3 ∧
        ¬ binary_rejects (Examples.queens 4)
            (assignment Examples.queens4_partial) 1 3).
Proof.
  apply (check_factors_correct (Examples.queens 4) Examples.queens4_partial 1 3).
  reflexivity.
Defined.

Lemma solve_no_variables_witness :
  ∃ s', solve 1 Examples.empty true true (init []) = (Ok tt, s') ∧
        num_operations s' = 1 ∧ num_assignments s' = 1 ∧
        all_assignments s' = [[]] ∧
        first_assignment_num_operations s' = 1.
Proof.
  apply (solve_no_variables Examples.empty true true 0 (init [])).
  reflexivity.
Defined.

Lemma solve_keeps_csp_values_witness :
  heap (solve 10 (Examples.queens 4) true true
          (init (Examples.queens_heap 4))).2
    !! values (Examples.queens 4) 2 = Some [0; 1; 2; 3].
Proof.
  apply (solve_keeps_csp_values 10 (Examples.queens 4) true true
           (init (Examples.queens_heap 4)) 2 [0; 1; 2; 3]).
  reflexivity.
Defined.

Lemma get_unassigned_variable_correct_witness :
  ∃ pre v post,
    get_unassigned_variable (Examples.queens 4) true Examples.queens4_partial
    = (Ok (Some v), Examples.queens4_partial) ∧
    variables (Examples.queens 4) = pre ++ v :: post ∧
    Dict.mem v (assignment Examples.queens4_partial) = false ∧
    (∀ u, u ∈ pre → Dict.mem u (assignment Examples.queens4_partial) = false →
          num_consistent (Examples.queens 4) Examples.queens4_partial v
          < num_consistent (Examples.queens 4) Examples.queens4_partial u) ∧
    (∀ u, u ∈ post → Dict.mem u (assignment Examples.queens4_partial) = false →
          num_consistent (Examples.queens 4) Examples.queens4_partial v
          ≤ num_consistent (Examples.queens 4) Examples.queens4_partial u).
Proof.
  apply (get_unassigned_variable_correct (Examples.queens 4) true
           Examples.queens4_partial).
  - exists 1. split; [|reflexivity]. simpl. right. left.
  - intros _ u Hu _. simpl in Hu.
    repeat (apply elem_of_cons in Hu as [->|Hu]; [by eexists|]).
    by apply elem_of_nil in Hu.
Defined.

Lemma first_assignment_num_operations_correct_witness :
  1 ≤ first_assignment_num_operations
        (solve 10 (Examples.queens 4) false false
           (init (Examples.queens_heap 4))).2
    ≤ num_operations
        (solve 10 (Examples.queens 4) false false
           (init (Examples.queens_heap 4))).2.
Proof.
  apply (proj1 (first_assignment_num_operations_correct
                  (Examples.queens 4) false false)
               10 (init (Examples.queens_heap 4))).
  vm_compute. discriminate.
Defined.

Lemma snapshot_restored_witness :
  ∃ localCopy s2,
    deepcopy_domains (after (bind_value 0 1) Examples.queens4_root)
    = (Ok localCopy, s2) ∧
    view (heap s2) localCopy = dom_view Examples.queens4_root ∧
    (∀ succeed s3,
       arc_consistency_check (Examples.queens 4) 100 0
         (after (singleton ← alloc [1]; domains_store 0 singleton) s2)
       = (Ok succeed, s3) →
       (succeed = true →
        ∃ s4, backtrack (Examples.queens 4) false true 100 10 s3
              = (Ok tt, s4)) →
       (try_value_ac3 (Examples.queens 4) 100
          (backtrack (Examples.queens 4) false true 100 10) 0 1
          Examples.queens4_root).1
       = Ok tt) ∧
    ((try_value_ac3 (Examples.queens 4) 100
        (backtrack (Examples.queens 4) false true 100 10) 0 1
        Examples.queens4_root).1
     = Ok tt →
     domains
       (try_value_ac3 (Examples.queens 4) 100
          (backtrack (Examples.queens 4) false true 100 10) 0 1
          Examples.queens4_root).2
     = localCopy ∧
     dom_view
       (try_value_ac3 (Examples.queens 4) 100
          (backtrack (Examples.queens 4) false true 100 10) 0 1
          Examples.queens4_root).2
     = dom_view Examples.queens4_root ∧
     assignment
       (try_value_ac3 (Examples.queens 4) 100
          (backtrack (Examples.queens 4) false true 100 10) 0 1
          Examples.queens4_root).2
     = assignment Examples.queens4_root).
Proof.
  apply (snapshot_restored (Examples.queens 4) false 100 10 0 1
           Examples.queens4_root).
  - unfold allocated. simpl. repeat (apply Forall_cons; split; [simpl; lia|]).
    apply Forall_nil_2.
  - reflexivity.
Defined.

(** The tentative assignment of column 1 to row 0 at the root of the
    4-queens search does return: the propagation from row 0 succeeds and
    the recursive call finds the solution [1, 3, 0, 2]. *)
Lemma queens4_step_returns :
  (try_value_ac3 (Examples.queens 4) 100
     (backtrack (Examples.queens 4) false true 100 10) 0 1
     Examples.queens4_root).1 = Ok tt ∧
  all_assignments
    (try_value_ac3 (Examples.queens 4) 100
       (backtrack (Examples.queens 4) false true 100 10) 0 1
       Examples.queens4_root).2
  = [[(0, 1); (1, 3); (2, 0); (3, 2)]].
Proof. split; vm_compute; reflexivity. Qed.

Lemma isolated_variable_aborts_witness :
  (solve 1 Examples.lone false true (init Examples.lone_heap)).1
  = Raise NameError.
Proof.
  apply (proj2 (isolated_variable_aborts Examples.lone false) 0 0
           (init Examples.lone_heap)); [reflexivity..|].
  exists 0. split; [left|reflexivity].
Defined.

(** ** The code at the inputs where it departs from the specification *)

(** C10 as stated fails on a CSP of one variable with an empty declared
    domain: no value is tried, [arc_consistency_check] is never called, and
    [solve] with [ac3=True] returns without a solution. *)
Lemma isolated_variable_returns :
  variables Examples.barren = [0] ∧
  get_neighbor_vars Examples.barren 0 = [] ∧
  solve 5 Examples.barren false true (init Examples.barren_heap)
  = (Ok tt, mkState 0 1 0 [] [(0, 1)] [[]; []] []).
Proof. split_and!; reflexivity. Qed.

(** C2 at the CSP of one variable with the one value 0: without
    propagation [solve] records the solution; with propagation it raises
    [NameError] and no solution is recorded. *)
Lemma flags_change_solutions :
  solve 5 Examples.lone false false (init Examples.lone_heap)
  = (Ok tt, mkState 1 2 2 [[(0, 0)]] [(0, 1)] [[0]; [0]] []) ∧
  (solve 5 Examples.lone false true (init Examples.lone_heap)).1
  = Raise NameError ∧
  all_assignments
    (solve 5 Examples.lone false true (init Examples.lone_heap)).2 = [].
Proof. split_and!; reflexivity. Qed.

(** [star_store] is the store in which [solve] with propagation on [star]
    starts the propagation from variable 0: after the initialisation, the
    first increment of the operation counter, the binding of 0 to 0, the
    snapshot and the collapse. *)
Lemma star_store_reached :
  ((reset_results;;
    d ← init_domains Examples.star (variables Examples.star) [];
    modify (set_domains d);;
    modify (set_assignment []);;
    modify (set_num_operations 1);;
    bind_value 0 0;;
    localCopy ← deepcopy_domains;
    singleton ← alloc [0];
    domains_store 0 singleton) (init Examples.star_heap)).2
  = Examples.star_store.
Proof. reflexivity. Qed.

(** C1 at the store [star_store]: the first iteration of the [while] loop
    empties the working domain of the neighbor 1, but tests only the last
    neighbor 2 and goes on with the queue [[1]].  The call returns [False]
    one iteration later, after it has emptied the working domain of
    variable 0 as well; with fuel for one iteration it has not returned. *)
Lemma emptied_neighbor_not_reported :
  (while_body Examples.star 0 [] None Examples.star_store).1
  = Ok (Continue [1] (Some 2)) ∧
  working_domain
    (while_body Examples.star 0 [] None Examples.star_store).2 1 = [] ∧
  (arc_consistency_check Examples.star 1 0 Examples.star_store).1
  = OutOfFuel ∧
  (arc_consistency_check Examples.star 2 0 Examples.star_store).1
  = Ok false ∧
  working_domain
    (arc_consistency_check Examples.star 2 0 Examples.star_store).2 0 = [].
Proof. split_and!; reflexivity. Qed.

(** ** The further properties at concrete inputs *)

Lemma recorded_assignments_checked_witness :
  Dict.keys [(0, 1); (1, 3); (2, 0); (3, 2)] = variables (Examples.queens 4) ∧
  checked (Examples.queens 4) [(0, 1); (1, 3); (2, 0); (3, 2)].
Proof.
  apply (recorded_assignments_checked 100 (Examples.queens 4) true true
           (init (Examples.queens_heap 4))).
  vm_compute. left.
Defined.

Lemma arc_consistency_check_adds_no_value_witness :
  0 ∈ working_domain Examples.star_store 2.
Proof.
  apply (arc_consistency_check_adds_no_value Examples.star 100 0
           Examples.star_store 2 0).
  - unfold domains_allocated, allocated. simpl.
    repeat (apply Forall_cons; split; [simpl; lia|]). apply Forall_nil_2.
  - vm_compute. left.
Defined.

Lemma recorded_values_declared_witness :
  0 ∈ contents (Examples.queens_heap 4) (values (Examples.queens 4) 2).
Proof.
  apply (recorded_values_declared 100 (Examples.queens 4) false true
           (init (Examples.queens_heap 4)) [(0, 1); (1, 3); (2, 0); (3, 2)]
           2 0).
  - intros u _. simpl. lia.
  - vm_compute. left.
  - reflexivity.
Defined.

Lemma queens4_passes :
  passes (λ u, u ∈ [0; 1; 2; 3]) (Examples.queens 4) Examples.queens4_solution.
Proof.
  split.
  - intros u _ (table & Htable & _). discriminate.
  - intros u w Hu Hw factor Hf.
    repeat (apply elem_of_cons in Hu as [->|Hu]);
      try (by apply elem_of_nil in Hu);
      repeat (apply elem_of_cons in Hw as [->|Hw]);
      try (by apply elem_of_nil in Hw);
      vm_compute in Hf;
      repeat (apply elem_of_cons in Hf as [Hf|Hf];
              [simplify_eq; by vm_compute|]);
      by apply elem_of_nil in Hf.
Qed.

Lemma arc_consistency_check_keeps_valuation_witness :
  true = true ∧
  ∀ u, u ∈ Dict.keys
             (domains (arc_consistency_check (Examples.queens 4) 100 0
                         Examples.queens4_bound).2) →
       Examples.queens4_solution u
       ∈ working_domain (arc_consistency_check (Examples.queens 4) 100 0
                           Examples.queens4_bound).2 u.
Proof.
  apply (arc_consistency_check_keeps_valuation (Examples.queens 4) 100 0
           Examples.queens4_bound true _ Examples.queens4_solution).
  - intros u Hu Hself. simpl in Hu.
    repeat (apply elem_of_cons in Hu as [->|Hu]);
      try (by apply elem_of_nil in Hu);
      vm_compute in Hself;
      repeat (apply elem_of_cons in Hself as [Hself|Hself];
              try discriminate);
      by apply elem_of_nil in Hself.
  - apply queens4_passes.
  - intros u Hu. simpl in Hu.
    repeat (apply elem_of_cons in Hu as [->|Hu]);
      try (by apply elem_of_nil in Hu); vm_compute;
      repeat first [left | right].
  - vm_compute. reflexivity.
Defined.
